(** * PyMaster: the code execution and validation engine

    A shallow embedding of [SafeCodeExecutor] and [ChallengeValidator]
    of [pymaster.py].

    Python text ([str]) is a list of Unicode code points.  Calls into the
    CPython library whose behaviour cannot be written down here in full
    (the parser behind [ast.parse], [json.loads], [ast.literal_eval], the
    Unicode table behind [str.isprintable]) are fields of the class
    [Runtime]; the functions of the repository are defined over an
    arbitrary [Runtime], and so are the theorems about them.  The host
    operating system (temporary files, child processes) is the class
    [Host]; the process-wide state it acts on is the record [world].

    Around the engine: the [Challenge] objects that hold the test cases,
    the checks of [CodeAnalyzer], the progress records, the XP, levels
    and badges of [pymaster_gamification.py], arcade mode
    ([pymaster_arcade.py]) and the quest campaign of
    [pymaster_quests.py].  A Python [float] is a binary64 number. *)

From Stdlib Require Import String Ascii ZArith Lia.
From Stdlib Require Import DecimalPos DecimalN DecimalZ DecimalFacts.
From Stdlib Require Import Floats Uint63.
From stdpp Require Import base numbers option list gmap sets.

#[local] Set Warnings "-register-all".
#[local] Set Warnings "-inexact-float".
#[local] Open Scope N_scope.

(** ** Text *)

Definition str := list N.

(** The code points of an ASCII literal. *)
Definition u (s : string) : str :=
  map N_of_ascii (list_ascii_of_string s).

Definition str_eqb (a b : str) : bool := bool_decide (a = b).

(** [s.startswith(p)] *)
Fixpoint startswith (p s : str) : bool :=
  match p, s with
  | [], _ => true
  | c :: p', d :: s' => (c =? d) && startswith p' s'
  | _ :: _, [] => false
  end.

(** [needle in hay] on text. *)
Fixpoint contains (needle hay : str) : bool :=
  startswith needle hay ||
  match hay with
  | [] => false
  | _ :: hay' => contains needle hay'
  end.

(** [str.lower()].  Code points outside [A-Z] are left alone: no code point
    other than an ASCII capital lowers to a run of text in which one of
    the ASCII tokens searched for below could start or continue. *)
Definition lower_char (c : N) : N :=
  if (65 <=? c) && (c <=? 90) then c + 32 else c.

Definition lower (s : str) : str := map lower_char s.

(** [s.split(sep)] for a one-character separator: never empty. *)
Fixpoint split (sep : N) (s : str) : list str :=
  match s with
  | [] => [[]]
  | c :: s' =>
      if c =? sep then [] :: split sep s'
      else match split sep s' with
           | [] => [[c]]
           | w :: ws => (c :: w) :: ws
           end
  end.

(** [s.split('.')[0]] *)
Definition first_component (s : str) : str := hd [] (split 46 s).

(** [str.isspace()] of one code point, as CPython tabulates it. *)
Definition isspace (c : N) : bool :=
  ((9 <=? c) && (c <=? 13)) || ((28 <=? c) && (c <=? 32)) ||
  (c =? 133) || (c =? 160) || (c =? 5760) ||
  ((8192 <=? c) && (c <=? 8202)) || (c =? 8232) || (c =? 8233) ||
  (c =? 8239) || (c =? 8287) || (c =? 12288).

Fixpoint lstrip (s : str) : str :=
  match s with
  | c :: s' => if isspace c then lstrip s' else s
  | [] => []
  end.

Definition rstrip (s : str) : str := rev (lstrip (rev s)).

(** [s.strip()] *)
Definition strip (s : str) : str := rstrip (lstrip s).

(** The line boundaries of [str.splitlines()]. *)
Definition is_linebreak (c : N) : bool :=
  ((10 <=? c) && (c <=? 13)) || ((28 <=? c) && (c <=? 30)) ||
  (c =? 133) || (c =? 8232) || (c =? 8233).

(** [s.splitlines()]: a carriage return followed by a line feed is one
    boundary, and a final boundary opens no empty last line. *)
Fixpoint splitlines_from (cur : str) (s : str) : list str :=
  match s with
  | [] => match cur with [] => [] | _ => [rev cur] end
  | c :: s' =>
      if is_linebreak c then
        match c, s' with
        | 13, 10 :: s'' => rev cur :: splitlines_from [] s''
        | _, _ => rev cur :: splitlines_from [] s'
        end
      else splitlines_from (c :: cur) s'
  end.

Definition splitlines (s : str) : list str := splitlines_from [] s.

(** ** Values

    The Python objects the engine passes around: what a challenge
    definition lists as arguments and expected outputs, what a result
    record carries.  Floating-point numbers are left out. *)

Inductive pyval : Type :=
  | VNone
  | VBool (b : bool)
  | VInt (n : Z)
  | VStr (s : str)
  | VBytes (b : list N)
  | VList (items : list pyval)
  | VTuple (items : list pyval)
  | VDict (items : list (str * pyval)).

(** [bool(v)] *)
Definition truthy (v : pyval) : bool :=
  match v with
  | VNone => false
  | VBool b => b
  | VInt n => negb (n =? 0)%Z
  | VStr s => negb (bool_decide (s = []))
  | VBytes b => negb (bool_decide (b = []))
  | VList l | VTuple l => match l with [] => false | _ => true end
  | VDict d => match d with [] => false | _ => true end
  end.

(** [type(v).__name__] *)
Definition type_name (v : pyval) : str :=
  match v with
  | VNone => u "NoneType"
  | VBool _ => u "bool"
  | VInt _ => u "int"
  | VStr _ => u "str"
  | VBytes _ => u "bytes"
  | VList _ => u "list"
  | VTuple _ => u "tuple"
  | VDict _ => u "dict"
  end.

(** [d.get(k)] on the items of a dict, which hold each key once. *)
Fixpoint dict_get (k : str) (d : list (str * pyval)) : option pyval :=
  match d with
  | [] => None
  | (k', v) :: d' => if str_eqb k k' then Some v else dict_get k d'
  end.

(** ** Syntax trees

    What [_is_safe_code] looks at in the tree [ast.parse] returns: the
    import statements, wherever they are nested. *)

Record alias := Alias { alias_name : str }.

Inductive node : Type :=
  | Import (names : list alias)
  | ImportFrom (module : option str) (names : list alias) (level : nat)
  | Node (fields : list node).

(** [ast.iter_child_nodes]; the [alias] children of an import statement
    are not statements and are left out. *)
Definition child_nodes (n : node) : list node :=
  match n with
  | Node fields => fields
  | _ => []
  end.

Fixpoint node_size (n : node) : nat :=
  match n with
  | Node fields => S (list_sum (map node_size fields))
  | _ => 1%nat
  end.

(** [ast.walk]: breadth first, from a queue. *)
Fixpoint walk_queue (fuel : nat) (todo : list node) : list node :=
  match fuel, todo with
  | S fuel', n :: todo' => n :: walk_queue fuel' (todo' ++ child_nodes n)
  | _, _ => []
  end.

Definition walk (tree : node) : list node :=
  walk_queue (node_size tree) [tree].

(** [n] occurs in [t]. *)
Inductive subnode (n : node) : node -> Prop :=
  | subnode_here : subnode n n
  | subnode_field fields t :
      t ∈ fields -> subnode n t -> subnode n (Node fields).

(** ** The CPython runtime *)

Class Runtime := {
  (** [ast.parse(code)]; [None] is [SyntaxError]. *)
  ast_parse : str -> option node;
  (** [json.loads(line)]; [None] is [json.JSONDecodeError]. *)
  json_loads : str -> option pyval;
  (** [ast.literal_eval(text)]; [None] is any exception. *)
  literal_eval : str -> option pyval;
  (** [chr(c).isprintable()] for a code point above ASCII. *)
  unicode_printable : N -> bool
}.

(** ** Safety pre-screen: [SafeCodeExecutor._is_safe_code] *)

Definition blocked_imports : list str :=
  [u "os"; u "sys"; u "subprocess"; u "socket"; u "shutil"; u "ctypes";
   u "multiprocessing"; u "asyncio.subprocess"; u "urllib"; u "requests";
   u "glob"; u "pathlib"; u "__future__"].

Definition blocked_calls : list str :=
  [u "eval"; u "exec"; u "__import__"; u "open("].

Definition is_blocked_import (x : str) : bool :=
  bool_decide (x ∈ blocked_imports).

(** The list [check] built for one import statement. *)
Definition import_check (n : node) : list str :=
  match n with
  | Import names => map (fun a => first_component (alias_name a)) names
  | ImportFrom module names _ =>
      map (fun a => first_component (alias_name a)) names ++
      match module with
      | Some ((_ :: _) as m) => [first_component m]
      | _ => []
      end
  | Node _ => []
  end.

(** [any(x in blocked_imports for x in check if x)] *)
Definition import_denied (n : node) : bool :=
  existsb is_blocked_import
    (filter (fun x => x <> []) (import_check n)).

Definition has_blocked_call (code : str) : bool :=
  existsb (fun tok => contains tok (lower code)) blocked_calls.

Definition _is_safe_code `{Runtime} (code : str) : bool :=
  match ast_parse code with
  | None => true
  | Some tree =>
      if existsb import_denied (walk tree) then false
      else if has_blocked_call code then false
      else true
  end.

(** ** Literal value codec: [repr], [str] and [json.dumps] *)

Definition hex_digit (d : N) : N :=
  if d <? 10 then 48 + d else 87 + d.

(** [k] lower-case hexadecimal digits of [c], most significant first. *)
Fixpoint hex (k : nat) (c : N) : str :=
  match k with
  | O => []
  | S k' => hex k' (c / 16) ++ [hex_digit (c mod 16)]
  end.

Fixpoint uint_codes (d : Decimal.uint) : str :=
  match d with
  | Decimal.Nil => []
  | Decimal.D0 d => 48 :: uint_codes d
  | Decimal.D1 d => 49 :: uint_codes d
  | Decimal.D2 d => 50 :: uint_codes d
  | Decimal.D3 d => 51 :: uint_codes d
  | Decimal.D4 d => 52 :: uint_codes d
  | Decimal.D5 d => 53 :: uint_codes d
  | Decimal.D6 d => 54 :: uint_codes d
  | Decimal.D7 d => 55 :: uint_codes d
  | Decimal.D8 d => 56 :: uint_codes d
  | Decimal.D9 d => 57 :: uint_codes d
  end.

(** [repr(n)] and [str(n)] of an [int]. *)
Definition int_repr (n : Z) : str :=
  match Z.to_int n with
  | Decimal.Pos d => uint_codes d
  | Decimal.Neg d => 45 :: uint_codes d
  end.

(** [sep.join(parts)] *)
Fixpoint join (sep : str) (parts : list str) : str :=
  match parts with
  | [] => []
  | [p] => p
  | p :: ps => p ++ sep ++ join sep ps
  end.

(** The quote [repr] puts around text: double only when the text holds a
    single quote and no double quote. *)
Definition repr_quote (s : list N) : N :=
  if bool_decide (39 ∈ s) && negb (bool_decide (34 ∈ s)) then 34 else 39.

Definition ascii_printable (c : N) : bool := (32 <=? c) && (c <? 127).

Definition isprintable `{Runtime} (c : N) : bool :=
  if c <? 128 then ascii_printable c else unicode_printable c.

(** One code point of a [str] inside [repr]'s quotes. *)
Definition repr_char `{Runtime} (q c : N) : str :=
  if (c =? q) || (c =? 92) then [92; c]
  else if c =? 9 then u "\t"
  else if c =? 10 then u "\n"
  else if c =? 13 then u "\r"
  else if isprintable c then [c]
  else if c <? 256 then u "\x" ++ hex 2 c
  else if c <? 65536 then u "\u" ++ hex 4 c
  else u "\U" ++ hex 8 c.

Definition str_repr `{Runtime} (s : str) : str :=
  let q := repr_quote s in
  q :: List.concat (map (repr_char q) s) ++ [q].

(** One byte of a [bytes] inside [repr]'s quotes. *)
Definition repr_byte (q c : N) : str :=
  if (c =? q) || (c =? 92) then [92; c]
  else if c =? 9 then u "\t"
  else if c =? 10 then u "\n"
  else if c =? 13 then u "\r"
  else if ascii_printable c then [c]
  else u "\x" ++ hex 2 c.

Definition bytes_repr (b : list N) : str :=
  let q := repr_quote b in
  98 :: q :: List.concat (map (repr_byte q) b) ++ [q].

(** [repr(v)] *)
Fixpoint py_repr `{Runtime} (v : pyval) : str :=
  match v with
  | VNone => u "None"
  | VBool true => u "True"
  | VBool false => u "False"
  | VInt n => int_repr n
  | VStr s => str_repr s
  | VBytes b => bytes_repr b
  | VList items => u "[" ++ join (u ", ") (map py_repr items) ++ u "]"
  | VTuple [x] => u "(" ++ py_repr x ++ u ",)"
  | VTuple items => u "(" ++ join (u ", ") (map py_repr items) ++ u ")"
  | VDict items =>
      u "{" ++
      join (u ", ")
        (map (fun kv => str_repr (fst kv) ++ u ": " ++ py_repr (snd kv)) items)
      ++ u "}"
  end.

(** [str(v)], what an f-string puts in place of [{v}]. *)
Definition py_str `{Runtime} (v : pyval) : str :=
  match v with
  | VStr s => s
  | _ => py_repr v
  end.

(** One code point of text inside a JSON string, [ensure_ascii] on. *)
Definition json_char (c : N) : str :=
  if c =? 34 then [92; 34]
  else if c =? 92 then [92; 92]
  else if c =? 10 then u "\n"
  else if c =? 13 then u "\r"
  else if c =? 9 then u "\t"
  else if c =? 12 then u "\f"
  else if c =? 8 then u "\b"
  else if (32 <=? c) && (c <=? 126) then [c]
  else if c <? 65536 then u "\u" ++ hex 4 c
  else
    let n := c - 65536 in
    u "\u" ++ hex 4 (N.lor 55296 (N.land (N.shiftr n 10) 1023)) ++
    u "\u" ++ hex 4 (N.lor 56320 (N.land n 1023)).

Definition json_string (s : str) : str :=
  34 :: List.concat (map json_char s) ++ [34].

(** [json.dumps(v)]; [None] is the [TypeError] raised for an object that
    is not JSON serializable. *)
Fixpoint json_dumps (v : pyval) : option str :=
  match v with
  | VNone => Some (u "null")
  | VBool true => Some (u "true")
  | VBool false => Some (u "false")
  | VInt n => Some (int_repr n)
  | VStr s => Some (json_string s)
  | VBytes _ => None
  | VList items | VTuple items =>
      parts ← (fix each (l : list pyval) : option (list str) :=
                 match l with
                 | [] => Some []
                 | x :: l' =>
                     p ← json_dumps x; ps ← each l'; Some (p :: ps)
                 end) items;
      Some (u "[" ++ join (u ", ") parts ++ u "]")
  | VDict items =>
      parts ← (fix each (l : list (str * pyval)) : option (list str) :=
                 match l with
                 | [] => Some []
                 | (k, x) :: l' =>
                     p ← json_dumps x; ps ← each l';
                     Some ((json_string k ++ u ": " ++ p) :: ps)
                 end) items;
      Some (u "{" ++ join (u ", ") parts ++ u "}")
  end.

(** [a == b] *)
Fixpoint py_eq (a b : pyval) {struct a} : bool :=
  match a, b with
  | VNone, VNone => true
  | VBool x, VBool y => bool_decide (x = y)
  | VBool x, VInt n | VInt n, VBool x => (n =? (if x then 1 else 0))%Z
  | VInt n, VInt m => (n =? m)%Z
  | VStr s, VStr t => str_eqb s t
  | VBytes s, VBytes t => str_eqb s t
  | VList xs, VList ys | VTuple xs, VTuple ys =>
      (fix each (xs ys : list pyval) : bool :=
         match xs, ys with
         | [], [] => true
         | x :: xs', y :: ys' => py_eq x y && each xs' ys'
         | _, _ => false
         end) xs ys
  | VDict da, VDict db =>
      (length da =? length db)%nat &&
      (fix each (d : list (str * pyval)) : bool :=
         match d with
         | [] => true
         | (k, v) :: d' =>
             match dict_get k db with
             | Some v' => py_eq v v'
             | None => false
             end && each d'
         end) da
  | _, _ => false
  end.

(** ** The host: semaphore, temporary files, child processes *)

Inductive exn : Type :=
  | TimeoutExpired
  | Exception (type_ : str) (msg : str).

(** [str(e)] *)
Definition exn_str (e : exn) : str :=
  match e with
  | TimeoutExpired => u "timed out"
  | Exception _ msg => msg
  end.

(** What the process did to its host. *)
Inductive event : Type :=
  | EvAcquire
  | EvRelease
  | EvCreate (file : nat)
  | EvWrite (file : nat)
  | EvSpawn (file : nat)
  | EvUnlink (file : nat).

Record world := World {
  (** units left in [execution_semaphore] *)
  sem_value : nat;
  (** the temporary files on disk, name to text *)
  temp_files : gmap nat str;
  (** the events so far, oldest first *)
  trace : list event
}.

(** How one [subprocess.run] ends. *)
Inductive child_outcome : Type :=
  | Exited (stdout stderr : str)
  | TimedOut
  | Failed (e : exn).

Class Host := {
  (** [tempfile.NamedTemporaryFile] failing *)
  create_error : world -> option exn;
  (** [f.write(text)] failing *)
  write_error : world -> str -> option exn;
  (** [subprocess.run([sys.executable, file], timeout=t)] *)
  child : world -> nat -> Z -> child_outcome;
  (** [os.unlink(file)] failing *)
  unlink_error : world -> nat -> bool
}.

(** A call returns, raises, or waits for ever on the semaphore. *)
Inductive outcome (A : Type) : Type :=
  | Returns (a : A)
  | Raises (e : exn)
  | Blocks.
Arguments Returns {A} a.
Arguments Raises {A} e.
Arguments Blocks {A}.

Definition M (A : Type) : Type := world -> world * outcome A.

Definition ret {A} (a : A) : M A := fun w => (w, Returns a).

Definition raise {A} (e : exn) : M A := fun w => (w, Raises e).

Definition bind {A B} (k : A -> M B) (m : M A) : M B :=
  fun w =>
    match m w with
    | (w', Returns a) => k a w'
    | (w', Raises e) => (w', Raises e)
    | (w', Blocks) => (w', Blocks)
    end.

#[global] Instance M_ret : MRet M := @ret.
#[global] Instance M_bind : MBind M := @bind.

Definition log (ev : event) : M unit :=
  fun w => (World (sem_value w) (temp_files w) (trace w ++ [ev]), Returns tt).

(** [try: m  except ...: h e] where [h] names the exceptions caught. *)
Definition try_except {A} (m : M A) (h : exn -> option (M A)) : M A :=
  fun w =>
    match m w with
    | (w', Raises e) =>
        match h e with
        | Some k => k w'
        | None => (w', Raises e)
        end
    | r => r
    end.

(** [try: m  finally: fin] *)
Definition try_finally {A} (m : M A) (fin : M unit) : M A :=
  fun w =>
    match m w with
    | (w', Blocks) => (w', Blocks)
    | (w', o) =>
        match fin w' with
        | (w'', Returns _) => (w'', o)
        | (w'', Raises e) => (w'', Raises e)
        | (w'', Blocks) => (w'', Blocks)
        end
    end.

(** [execution_semaphore.acquire()] *)
Definition acquire : M unit :=
  fun w =>
    match sem_value w with
    | O => (w, Blocks)
    | S n => (World n (temp_files w) (trace w ++ [EvAcquire]), Returns tt)
    end.

(** [execution_semaphore.release()] *)
Definition release : M unit :=
  fun w =>
    (World (S (sem_value w)) (temp_files w) (trace w ++ [EvRelease]),
     Returns tt).

(** [with execution_semaphore: body] *)
Definition with_semaphore {A} (body : M A) : M A :=
  acquire;; try_finally body release.

(** [tempfile.NamedTemporaryFile(mode='w', suffix='.py', delete=False)]:
    a new, empty file under a name not in use. *)
Definition NamedTemporaryFile `{Host} : M nat :=
  fun w =>
    match create_error w with
    | Some e => (w, Raises e)
    | None =>
        let f := fresh (dom (temp_files w)) in
        (World (sem_value w) (<[f := []]> (temp_files w))
           (trace w ++ [EvCreate f]), Returns f)
    end.

(** [f.write(text)] *)
Definition write `{Host} (f : nat) (text : str) : M unit :=
  fun w =>
    match write_error w text with
    | Some e => (w, Raises e)
    | None =>
        (World (sem_value w) (<[f := text]> (temp_files w))
           (trace w ++ [EvWrite f]), Returns tt)
    end.

(** [subprocess.run([sys.executable, f], capture_output=True, text=True,
    timeout=t, env=env)] *)
Definition subprocess_run `{Host} (f : nat) (t : Z) : M (str * str) :=
  fun w =>
    let w' := World (sem_value w) (temp_files w) (trace w ++ [EvSpawn f]) in
    match child w f t with
    | Exited out err => (w', Returns (out, err))
    | TimedOut => (w', Raises TimeoutExpired)
    | Failed e => (w', Raises e)
    end.

(** [try: os.unlink(f)  except Exception: pass] *)
Definition unlink_quietly `{Host} (f : nat) : M unit :=
  fun w =>
    let files :=
      if unlink_error w f then temp_files w else delete f (temp_files w) in
    (World (sem_value w) files (trace w ++ [EvUnlink f]), Returns tt).

(** ** Harness: [SafeCodeExecutor._make_wrapper] *)

(** The text of a template literal; in it a backquote stands for the
    double quote. *)
Definition tpl (s : string) : str :=
  map (fun c => if c =? 96 then 34 else c) (u s).

Definition wrapper_head : str := tpl "# Auto-generated safe wrapper
import json

# ===== USER CODE START =====
".

Definition wrapper_driver : str := tpl "
# ===== USER CODE END =====

def _json_out(payload):
    try:
        print(json.dumps(payload))
    except Exception as _e:
        print(json.dumps({`success`: False, `error`: f`JSON encode error: {_e}`}))

try:
    test_expr = ".

Definition wrapper_resolve : str := tpl "
    if test_expr:
        # Resolve the target inside the sandboxed process
        try:
            target = eval(test_expr, globals(), locals())
        except Exception as e:
            _json_out({`success`: False, `error`: f`Cannot resolve target '{test_expr}': {e}`})
        else:
            try:
                args = tuple(".

Definition wrapper_kwargs : str := tpl ")
                kwargs = dict(".

Definition wrapper_call : str := tpl ")
                result = target(" ++ tpl "*args, **kwargs)
                _json_out({`success`: True, `result`: repr(result)})
            except Exception as e:
                _json_out({`success`: False, `error`: f`Execution error: {type(e).__name__}: {e}`})
    else:
        # No specific function to call; treat as OK if import/exec succeeded
        _json_out({`success`: True, `result`: `OK`})
except Exception as e:
    _json_out({`success`: False, `error`: f`Wrapper error: {type(e).__name__}: {e}`})
".

Definition not_serializable : exn :=
  Exception (u "TypeError") (u "Object of type bytes is not JSON serializable").

(** [json.dumps(v)] as a step of a call. *)
Definition dumps (v : pyval) : M str :=
  match json_dumps v with
  | Some text => mret text
  | None => raise not_serializable
  end.

Definition _make_wrapper (code : str) (test_function : option str)
    (args : list pyval) (kwargs : list (str * pyval)) : M str :=
  test_expr_json ← dumps (VStr (default [] test_function));
  args_json ← dumps (VTuple args);
  kwargs_json ← dumps (VDict kwargs);
  mret (wrapper_head ++ code ++ wrapper_driver ++ test_expr_json ++
        wrapper_resolve ++ args_json ++ wrapper_kwargs ++ kwargs_json ++
        wrapper_call).

(** ** Runner and result protocol: [SafeCodeExecutor.execute] *)

Record config := Config {
  TIMEOUT : Z;
  MAX_CONCURRENT_EXECUTIONS : nat
}.

(** The world at import time: a full semaphore, nothing on disk. *)
Definition initial_world (CONFIG : config) : world :=
  World (MAX_CONCURRENT_EXECUTIONS CONFIG) ∅ [].

Record SafeCodeExecutor := { timeout : Z }.

(** [SafeCodeExecutor(timeout)]: [timeout or CONFIG['TIMEOUT']] *)
Definition SafeCodeExecutor_init (CONFIG : config) (t : option Z)
    : SafeCodeExecutor :=
  {| timeout := match t with
                | Some t' => if (t' =? 0)%Z then TIMEOUT CONFIG else t'
                | None => TIMEOUT CONFIG
                end |}.

(** [s or alt] on text. *)
Definition or_text (s alt : str) : str :=
  match s with [] => alt | _ => s end.

Definition unsafe_message : str :=
  u "Code contains unsafe operations (blocked import or call).".

Definition timeout_message (self : SafeCodeExecutor) : str :=
  u "Execution timeout (" ++ int_repr (timeout self) ++ u "s exceeded)".

Definition no_get (v : pyval) : exn :=
  Exception (u "AttributeError")
    (u "'" ++ type_name v ++ u "' object has no attribute 'get'").

(** The body of the [try] of [execute] once the child has ended: what it
    returns, or the exception that leaves it. *)
Definition read_result `{Runtime} (out err : str)
    : outcome (bool * pyval * pyval) :=
  let stdout := strip out in
  let stderr := strip err in
  match stdout with
  | _ :: _ =>
      let last_line := strip (List.last (splitlines stdout) []) in
      match json_loads last_line with
      | Some (VDict payload) =>
          if truthy (default VNone (dict_get (u "success") payload))
          then Returns (true, default VNone (dict_get (u "result") payload),
                        VStr [])
          else Returns (false, VNone,
                        default (VStr (u "Unknown error"))
                          (dict_get (u "error") payload))
      | Some v => Raises (no_get v)
      | None =>
          Returns (false, VNone,
                   VStr (or_text stderr (u "Invalid output format")))
      end
  | [] => Returns (false, VNone, VStr (or_text stderr (u "No output")))
  end.

(** A step that leaves the world alone. *)
Definition lift {A} (o : outcome A) : M A := fun w => (w, o).

(** The block [with tempfile.NamedTemporaryFile(...) as f], which yields
    [temp_file]. *)
Definition write_wrapper `{Host} (code : str) (test_function : option str)
    (args : list pyval) (kwargs : list (str * pyval)) : M nat :=
  f ← NamedTemporaryFile;
  wrapper ← _make_wrapper code test_function args kwargs;
  write f wrapper;;
  mret f.

(** The [try] with its two [except] clauses. *)
Definition run_wrapper `{Runtime} `{Host} (self : SafeCodeExecutor)
    (temp_file : nat) : M (bool * pyval * pyval) :=
  try_except
    (r ← subprocess_run temp_file (timeout self);
     lift (read_result r.1 r.2))
    (fun e =>
       Some match e with
            | TimeoutExpired =>
                mret (false, VNone, VStr (timeout_message self))
            | _ =>
                mret (false, VNone, VStr (u "Execution error: " ++ exn_str e))
            end).

Definition execute `{Runtime} `{Host} (self : SafeCodeExecutor) (code : str)
    (test_function : option str) (args : list pyval)
    (kwargs : list (str * pyval)) : M (bool * pyval * pyval) :=
  if negb (_is_safe_code code) then
    mret (false, VNone, VStr unsafe_message)
  else
    with_semaphore (
      temp_file ← write_wrapper code test_function args kwargs;
      try_finally (run_wrapper self temp_file) (unlink_quietly temp_file)).

(** ** Validator: [ChallengeValidator.validate_solution] *)

Record test_case := TestCase {
  tc_function : option str;
  tc_args : list pyval;
  tc_kwargs : list (str * pyval)
}.

Record ChallengeValidator := { executor : SafeCodeExecutor }.

Definition ChallengeValidator_init (CONFIG : config) : ChallengeValidator :=
  {| executor := SafeCodeExecutor_init CONFIG None |}.

Definition nat_str (n : nat) : str := int_repr (Z.of_nat n).

Definition failed_line `{Runtime} (i : nat) (err : pyval) : str :=
  [10060] ++ u " Test " ++ nat_str i ++ u ": " ++ py_str err.

Definition passed_line (i : nat) : str :=
  [9989] ++ u " Test " ++ nat_str i ++ u ": Passed".

Definition mismatch_line `{Runtime} (i : nat) (exp val : pyval) : str :=
  [10060] ++ u " Test " ++ nat_str i ++ u ": Expected " ++ py_str exp ++
  u ", got " ++ py_str val.

Definition summary_line (passed total : nat) : str :=
  if (passed =? total)%nat
  then [127881] ++ u " All " ++ nat_str total ++ u " test cases passed!"
  else [9888; 65039] ++ u "  " ++ nat_str passed ++ u "/" ++ nat_str total ++
       u " test cases passed".

(** [ast.literal_eval(result)], falling back on [result] itself. *)
Definition decode_result `{Runtime} (result : pyval) : pyval :=
  match result with
  | VStr text => default result (literal_eval text)
  | _ => result
  end.

(** The [for] loop over [enumerate(zip(test_cases, expected_outputs),
    start=1)], from case [i] on. *)
Fixpoint run_cases `{Runtime} `{Host} (self : ChallengeValidator)
    (user_code : str) (cases : list (test_case * pyval)) (i : nat)
    (passed : nat) (feedback : list str) : M (nat * list str) :=
  match cases with
  | [] => mret (passed, feedback)
  | (tc, exp) :: cases' =>
      r ← execute (executor self) user_code (tc_function tc) (tc_args tc)
            (tc_kwargs tc);
      let '(ok, result, err) := r in
      if negb ok then
        run_cases self user_code cases' (S i) passed
          (feedback ++ [failed_line i err])
      else
        let val := decode_result result in
        if py_eq val exp then
          run_cases self user_code cases' (S i) (S passed)
            (feedback ++ [passed_line i])
        else
          run_cases self user_code cases' (S i) passed
            (feedback ++ [mismatch_line i exp val])
  end.

Definition validate_solution `{Runtime} `{Host} (self : ChallengeValidator)
    (user_code : str) (test_cases : list test_case)
    (expected_outputs : list pyval) : M (bool * list str) :=
  match test_cases with
  | [] => mret (true, [u "No test cases defined"])
  | _ =>
      r ← run_cases self user_code (zip test_cases expected_outputs) 1 0 [];
      let '(passed, feedback) := r in
      let all_passed := (passed =? length test_cases)%nat in
      mret (all_passed, summary_line passed (length test_cases) :: feedback)
  end.

(** ** A runtime to compute with

    Evaluators for three fragments of what CPython accepts.  Outside its
    fragment an evaluator answers [None]; the theorems that hold of every
    [Runtime] do not depend on it. *)

Definition is_digit (c : N) : bool := (48 <=? c) && (c <=? 57).

Definition is_letter (c : N) : bool :=
  ((65 <=? c) && (c <=? 90)) || ((97 <=? c) && (c <=? 122)) || (c =? 95).

(** A code point that continues a name or a number. *)
Definition is_word (c : N) : bool :=
  is_letter c || is_digit c || (128 <=? c).

Definition ends_token (s : str) : bool :=
  match s with
  | [] => true
  | c :: _ => negb (is_word c || (c =? 46))
  end.

(** Spaces and tabs between tokens. *)
Fixpoint skip_blank (s : str) : str :=
  match s with
  | c :: s' => if (c =? 32) || (c =? 9) then skip_blank s' else s
  | [] => []
  end.

#[global] Instance uint_eq_dec : EqDecision Decimal.uint :=
  Decimal.uint_eq_dec.

Definition digit (c : N) (d : Decimal.uint) : Decimal.uint :=
  if c =? 48 then Decimal.D0 d
  else if c =? 49 then Decimal.D1 d
  else if c =? 50 then Decimal.D2 d
  else if c =? 51 then Decimal.D3 d
  else if c =? 52 then Decimal.D4 d
  else if c =? 53 then Decimal.D5 d
  else if c =? 54 then Decimal.D6 d
  else if c =? 55 then Decimal.D7 d
  else if c =? 56 then Decimal.D8 d
  else Decimal.D9 d.

(** The longest run of decimal digits at the head of [s]. *)
Fixpoint read_digits (s : str) : Decimal.uint * str :=
  match s with
  | c :: s' =>
      if is_digit c
      then let '(d, r) := read_digits s' in (digit c d, r)
      else (Decimal.Nil, s)
  | [] => (Decimal.Nil, [])
  end.

(** A decimal integer literal: some digits, no leading zero unless all
    are zero, and the token ends there. *)
Definition read_number (s : str) : option (Decimal.uint * str) :=
  let '(d, r) := read_digits s in
  if bool_decide (d = Decimal.Nil) then None
  else if negb (bool_decide (Decimal.unorm d = d)) &&
          negb (bool_decide (Decimal.nzhead d = Decimal.Nil)) then None
  else if ends_token r then Some (d, r)
  else None.

Definition hex_value (c : N) : option N :=
  if is_digit c then Some (c - 48)
  else if (97 <=? c) && (c <=? 102) then Some (c - 87)
  else if (65 <=? c) && (c <=? 70) then Some (c - 55)
  else None.

(** Exactly [k] hexadecimal digits. *)
Fixpoint read_hex (k : nat) (acc : N) (s : str) : option (N * str) :=
  match k with
  | O => Some (acc, s)
  | S k' =>
      match s with
      | c :: s' => v ← hex_value c; read_hex k' (acc * 16 + v) s'
      | [] => None
      end
  end.

(** At most [k] octal digits. *)
Fixpoint read_octal (k : nat) (acc : N) (s : str) : N * str :=
  match k, s with
  | S k', c :: s' =>
      if (48 <=? c) && (c <=? 55)
      then read_octal k' (acc * 8 + (c - 48)) s'
      else (acc, s)
  | _, _ => (acc, s)
  end.

(** The code point a backslash escape stands for, [e] being the code
    point after the backslash. *)
Definition read_escape (e : N) (s : str) : option (N * str) :=
  if (e =? 92) || (e =? 39) || (e =? 34) then Some (e, s)
  else if e =? 110 then Some (10, s)
  else if e =? 114 then Some (13, s)
  else if e =? 116 then Some (9, s)
  else if e =? 97 then Some (7, s)
  else if e =? 98 then Some (8, s)
  else if e =? 102 then Some (12, s)
  else if e =? 118 then Some (11, s)
  else if e =? 120 then read_hex 2 0 s
  else if e =? 117 then read_hex 4 0 s
  else if e =? 85 then
    r ← read_hex 8 0 s;
    if r.1 <? 1114112 then Some r else None
  else if (48 <=? e) && (e <=? 55) then Some (read_octal 2 (e - 48) s)
  else None.

(** The text of a string literal up to its closing quote [q]. *)
Fixpoint read_text (fuel : nat) (q : N) (s : str) : option (str * str) :=
  match fuel, s with
  | S fuel', c :: s' =>
      if c =? q then Some ([], s')
      else if (c =? 10) || (c =? 13) then None
      else if c =? 92 then
        match s' with
        | e :: s'' =>
            r ← read_escape e s'';
            t ← read_text fuel' q r.2;
            Some (r.1 :: t.1, t.2)
        | [] => None
        end
      else
        t ← read_text fuel' q s';
        Some (c :: t.1, t.2)
  | _, _ => None
  end.

(** A keyword literal, which must end where the name ends. *)
Definition read_keyword (kw : str) (v : pyval) (s : str)
    : option (pyval * str) :=
  if startswith kw s && ends_token (drop (length kw) s)
  then Some (v, drop (length kw) s)
  else None.

(** One literal of the fragment, and the items of a list display after
    its opening bracket. *)
Fixpoint read_value (fuel : nat) (s : str) : option (pyval * str) :=
  match fuel with
  | O => None
  | S fuel' =>
      match skip_blank s with
      | [] => None
      | c :: s' =>
          if c =? 91 then
            r ← read_items fuel' s'; Some (VList r.1, r.2)
          else if (c =? 39) || (c =? 34) then
            r ← read_text (length s') c s'; Some (VStr r.1, r.2)
          else if c =? 45 then
            r ← read_number (skip_blank s');
            Some (VInt (Z.of_int (Decimal.Neg r.1)), r.2)
          else if c =? 43 then
            r ← read_number (skip_blank s');
            Some (VInt (Z.of_int (Decimal.Pos r.1)), r.2)
          else if is_digit c then
            r ← read_number (c :: s');
            Some (VInt (Z.of_int (Decimal.Pos r.1)), r.2)
          else
            match read_keyword (u "None") VNone (c :: s') with
            | Some r => Some r
            | None =>
                match read_keyword (u "True") (VBool true) (c :: s') with
                | Some r => Some r
                | None => read_keyword (u "False") (VBool false) (c :: s')
                end
            end
      end
  end
with read_items (fuel : nat) (s : str) : option (list pyval * str) :=
  match fuel with
  | O => None
  | S fuel' =>
      match skip_blank s with
      | [] => None
      | c :: r =>
          if c =? 93 then Some ([], r)
          else
            v ← read_value fuel' (c :: r);
            match skip_blank v.2 with
            | [] => None
            | c' :: r' =>
                if c' =? 44 then
                  vs ← read_items fuel' r'; Some (v.1 :: vs.1, vs.2)
                else if c' =? 93 then Some ([v.1], r')
                else None
            end
      end
  end.

(** [ast.literal_eval] on the fragment [None], [True], [False], decimal
    integers with a sign, string literals in one pair of quotes, and
    list displays of these. *)
Definition literal_eval_fragment (text : str) : option pyval :=
  r ← read_value (S (length text)) (skip_blank text);
  match skip_blank r.2 with
  | [] => Some r.1
  | _ => None
  end.

(** *** Source made of import statements *)

Definition keywords : list str :=
  map u ["False"; "None"; "True"; "and"; "as"; "assert"; "async"; "await";
         "break"; "class"; "continue"; "def"; "del"; "elif"; "else";
         "except"; "finally"; "for"; "from"; "global"; "if"; "import";
         "in"; "is"; "lambda"; "nonlocal"; "not"; "or"; "pass"; "raise";
         "return"; "try"; "while"; "with"; "yield"]%string.

Definition is_name (s : str) : bool :=
  match s with
  | c :: r =>
      is_letter c && forallb (fun c => is_letter c || is_digit c) r &&
      negb (bool_decide (s ∈ keywords))
  | [] => false
  end.

Definition is_dotted_name (s : str) : bool :=
  forallb is_name (split 46 s).

(** [s.partition(sep)] when [sep] occurs. *)
Fixpoint partition (sep s : str) : option (str * str) :=
  if startswith sep s then Some ([], drop (length sep) s)
  else match s with
       | [] => None
       | c :: s' => r ← partition sep s'; Some (c :: r.1, r.2)
       end.

(** The names of a comma-separated list, one space allowed after each
    comma. *)
Definition read_names (ok : str -> bool) (s : str) : option (list alias) :=
  let names :=
    map (fun n => match n with 32 :: n' => n' | _ => n end) (split 44 s) in
  if forallb ok names then Some (map Alias names) else None.

(** One logical line: [None] for a line outside the fragment, [Some None]
    for a blank line. *)
Definition read_statement (line : str) : option (option node) :=
  match line with
  | [] => Some None
  | _ =>
      if str_eqb line (u "pass") then Some (Some (Node []))
      else if startswith (u "import ") line then
        names ← read_names is_dotted_name (drop 7 line);
        Some (Some (Import names))
      else if startswith (u "from ") line then
        r ← partition (u " import ") (drop 5 line);
        if is_dotted_name r.1 then
          names ← read_names is_name r.2;
          Some (Some (ImportFrom (Some r.1) names 0))
        else None
      else None
  end.

(** [ast.parse] on source whose lines are [pass], [import a.b, c] or
    [from a.b import c, d], flush left and spaced as shown. *)
Definition parse_imports (code : str) : option node :=
  body ← mapM read_statement (split 10 code);
  Some (Node (omap id body)).

(** *** JSON without fractions and exponents *)

Fixpoint skip_json_space (s : str) : str :=
  match s with
  | c :: s' =>
      if (c =? 32) || (c =? 9) || (c =? 10) || (c =? 13)
      then skip_json_space s' else s
  | [] => []
  end.

Definition json_escape (e : N) (s : str) : option (N * str) :=
  if (e =? 34) || (e =? 92) || (e =? 47) then Some (e, s)
  else if e =? 98 then Some (8, s)
  else if e =? 102 then Some (12, s)
  else if e =? 110 then Some (10, s)
  else if e =? 114 then Some (13, s)
  else if e =? 116 then Some (9, s)
  else if e =? 117 then
    r ← read_hex 4 0 s;
    if (55296 <=? r.1) && (r.1 <=? 56319) then
      match r.2 with
      | 92 :: 117 :: s' =>
          match read_hex 4 0 s' with
          | Some lo =>
              if (56320 <=? lo.1) && (lo.1 <=? 57343)
              then Some (65536 + (r.1 - 55296) * 1024 + (lo.1 - 56320), lo.2)
              else Some r
          | None => Some r
          end
      | _ => Some r
      end
    else Some r
  else None.

Fixpoint json_text (fuel : nat) (s : str) : option (str * str) :=
  match fuel, s with
  | S fuel', c :: s' =>
      if c =? 34 then Some ([], s')
      else if c <? 32 then None
      else if c =? 92 then
        match s' with
        | e :: s'' =>
            r ← json_escape e s'';
            t ← json_text fuel' r.2;
            Some (r.1 :: t.1, t.2)
        | [] => None
        end
      else
        t ← json_text fuel' s';
        Some (c :: t.1, t.2)
  | _, _ => None
  end.

(** [d[k] = v] on the items of a dict. *)
Fixpoint dict_set (k : str) (v : pyval) (d : list (str * pyval))
    : list (str * pyval) :=
  match d with
  | [] => [(k, v)]
  | (k', v') :: d' =>
      if str_eqb k k' then (k, v) :: d' else (k', v') :: dict_set k v d'
  end.

Definition json_number (s : str) : option (Decimal.uint * str) :=
  let '(d, r) := read_digits s in
  if bool_decide (d = Decimal.Nil) then None
  else if negb (bool_decide (Decimal.unorm d = d)) then None
  else match r with
       | c :: _ => if (c =? 46) || (c =? 101) || (c =? 69) then None
                   else Some (d, r)
       | [] => Some (d, r)
       end.

Definition json_keyword (kw : str) (v : pyval) (s : str)
    : option (pyval * str) :=
  if startswith kw s then Some (v, drop (length kw) s) else None.

Fixpoint json_value (fuel : nat) (s : str) : option (pyval * str) :=
  match fuel with
  | O => None
  | S fuel' =>
      match skip_json_space s with
      | [] => None
      | c :: s' =>
          if c =? 123 then
            match skip_json_space s' with
            | 125 :: r => Some (VDict [], r)
            | s1 => r ← json_members fuel' s1 []; Some (VDict r.1, r.2)
            end
          else if c =? 91 then
            match skip_json_space s' with
            | 93 :: r => Some (VList [], r)
            | s1 => r ← json_elements fuel' s1; Some (VList r.1, r.2)
            end
          else if c =? 34 then
            r ← json_text (length s') s'; Some (VStr r.1, r.2)
          else if c =? 45 then
            r ← json_number s'; Some (VInt (Z.of_int (Decimal.Neg r.1)), r.2)
          else if is_digit c then
            r ← json_number (c :: s');
            Some (VInt (Z.of_int (Decimal.Pos r.1)), r.2)
          else
            match json_keyword (u "true") (VBool true) (c :: s') with
            | Some r => Some r
            | None =>
                match json_keyword (u "false") (VBool false) (c :: s') with
                | Some r => Some r
                | None => json_keyword (u "null") VNone (c :: s')
                end
            end
      end
  end
with json_elements (fuel : nat) (s : str) : option (list pyval * str) :=
  match fuel with
  | O => None
  | S fuel' =>
      v ← json_value fuel' s;
      match skip_json_space v.2 with
      | 44 :: r => vs ← json_elements fuel' r; Some (v.1 :: vs.1, vs.2)
      | 93 :: r => Some ([v.1], r)
      | _ => None
      end
  end
with json_members (fuel : nat) (s : str) (acc : list (str * pyval))
    : option (list (str * pyval) * str) :=
  match fuel with
  | O => None
  | S fuel' =>
      match skip_json_space s with
      | 34 :: s' =>
          k ← json_text (length s') s';
          match skip_json_space k.2 with
          | 58 :: s'' =>
              v ← json_value fuel' s'';
              let acc' := dict_set k.1 v.1 acc in
              match skip_json_space v.2 with
              | 44 :: r => json_members fuel' r acc'
              | 125 :: r => Some (acc', r)
              | _ => None
              end
          | _ => None
          end
      | _ => None
      end
  end.

(** [json.loads] on JSON whose numbers are integers. *)
Definition json_loads_fragment (text : str) : option pyval :=
  r ← json_value (S (length text)) text;
  match skip_json_space r.2 with
  | [] => Some r.1
  | _ => None
  end.

(** The rows of the Unicode table for Latin-1. *)
Definition latin1_printable (c : N) : bool :=
  (161 <=? c) && (c <=? 255) && negb (c =? 173).

Definition cpython_fragment : Runtime := {|
  ast_parse := parse_imports;
  json_loads := json_loads_fragment;
  literal_eval := literal_eval_fragment;
  unicode_printable := latin1_printable
|}.

(** A host on which nothing fails and the [n]-th child (from 0) ends as
    [script n] says. *)
Definition is_spawn (ev : event) : bool :=
  match ev with EvSpawn _ => true | _ => false end.

Definition spawn_count (w : world) : nat :=
  length (List.filter is_spawn (trace w)).

Definition scripted_host (script : nat -> child_outcome) : Host := {|
  create_error := fun _ => None;
  write_error := fun _ _ => None;
  child := fun w _ _ => script (spawn_count w);
  unlink_error := fun _ _ => false
|}.

(** *** Worlds along one run *)

(** The world once the child of [f] has been spawned in [w]. *)
Definition spawned (w : world) (f : nat) : world :=
  World (sem_value w) (temp_files w) (trace w ++ [EvSpawn f]).

(** The world once [f] has been unlinked and the semaphore released. *)
Definition cleaned `{Host} (w : world) (f : nat) : world :=
  (release (unlink_quietly f w).1).1.

(** What [execute] makes of the way the child ended. *)
Definition verdict `{Runtime} (self : SafeCodeExecutor) (c : child_outcome)
    : bool * pyval * pyval :=
  match c with
  | Exited out err =>
      match read_result out err with
      | Returns r => r
      | Raises TimeoutExpired => (false, VNone, VStr (timeout_message self))
      | Raises e => (false, VNone, VStr (u "Execution error: " ++ exn_str e))
      | Blocks => (false, VNone, VNone)
      end
  | TimedOut | Failed TimeoutExpired =>
      (false, VNone, VStr (timeout_message self))
  | Failed e => (false, VNone, VStr (u "Execution error: " ++ exn_str e))
  end.

(** A computation that keeps the semaphore as it found it and never
    waits. *)
Definition quiet {A} (m : M A) : Prop :=
  forall w, sem_value (m w).1 = sem_value w /\ (m w).2 <> Blocks.

(** *** Sample data *)

Definition sample_config : config := Config 5 5.

Definition sample_validator : ChallengeValidator :=
  ChallengeValidator_init sample_config.

Definition sample_case : test_case :=
  TestCase (Some (u "solution")) [VInt 2; VInt 3] [].

(** The line the harness prints for a call that returned [r]. *)
Definition success_record (r : str) : str :=
  tpl "{`success`: true, `result`: " ++ json_string r ++ tpl "}
".

(** A text that does not go on with a decimal digit. *)
Definition head_not_digit (s : str) : Prop :=
  match s with c :: _ => is_digit c = false | [] => True end.


(** *** One run in the trace *)

(** The events of one run of [execute] that got as far as its child, on
    the temporary file [f]. *)
Definition run_events (f : nat) : list event :=
  [EvAcquire; EvCreate f; EvWrite f; EvSpawn f; EvUnlink f; EvRelease].

(** The summary line of a validation in which every case passed. *)
Definition all_passed_line (total : nat) : str :=
  [127881] ++ u " All " ++ nat_str total ++ u " test cases passed!".

(** The report a validation ended with, empty if it did not return. *)
Definition validation_feedback (r : world * outcome (bool * list str))
    : list str :=
  match r.2 with
  | Returns (_, feedback) => feedback
  | _ => []
  end.


(** *** The result record on the wire *)

(** A code point [json.dumps] and [json.loads] carry through unchanged:
    any but a high surrogate, which [json.loads] joins with a low
    surrogate that follows it. *)
Definition json_safe (c : N) : Prop :=
  c < 1114112 /\ (c < 55296 \/ 56319 < c).

(** Printable ASCII, the space included. *)
Definition plain (c : N) : Prop := 32 <= c <= 126.

(** A host on which nothing fails and every child prints [out] and
    ends. *)
Definition echo_host (out : str) : Host :=
  scripted_host (fun _ => Exited out []).

(** What [json.loads] makes of the line the harness prints for a call
    that returned [r]. *)
Definition success_payload (r : str) : list (str * pyval) :=
  [(u "success", VBool true); (u "result", VStr r)].

(** The line the harness prints for a call that returned [r], without
    the line feed [print] ends it with. *)
Definition record_line (r : str) : str :=
  tpl "{`success`: true, `result`: " ++ json_string r ++ [125].

(** Output before the record that ends a line: none at all, or text up
    to and including a line boundary. *)
Definition ends_line (noise : str) : Prop :=
  noise = [] \/ exists text c, noise = text ++ [c] /\ is_linebreak c = true.

(** A code point of Latin-1. *)
Definition narrow (c : N) : Prop := c < 256.

(** The results the literal codec is proved on: an integer, a string of
    Latin-1, a list of integers. *)
Definition literal_result (v : pyval) : Prop :=
  (exists n, v = VInt n) \/
  (exists s, v = VStr s /\ Forall narrow s) \/
  (exists ns, v = VList (map VInt ns)).


(** ** Challenges: [Challenge] *)

Record Challenge := {
  challenge_id : str;
  title : str;
  description : str;
  difficulty : Z;
  module : str;
  concept : str;
  hints : list str;
  test_cases : list test_case;
  expected_outputs : list pyval
}.

Definition Challenge_init (challenge_id title description : str)
    (difficulty : Z) (module concept : str) : Challenge :=
  {| challenge_id := challenge_id; title := title;
     description := description; difficulty := difficulty;
     module := module; concept := concept;
     hints := []; test_cases := []; expected_outputs := [] |}.

Definition add_hint (self : Challenge) (hint : str) : Challenge :=
  {| challenge_id := challenge_id self; title := title self;
     description := description self; difficulty := difficulty self;
     module := module self; concept := concept self;
     hints := hints self ++ [hint];
     test_cases := test_cases self;
     expected_outputs := expected_outputs self |}.

Definition add_test_case (self : Challenge) (test_case : test_case)
    (expected_output : pyval) : Challenge :=
  {| challenge_id := challenge_id self; title := title self;
     description := description self; difficulty := difficulty self;
     module := module self; concept := concept self;
     hints := hints self;
     test_cases := test_cases self ++ [test_case];
     expected_outputs := expected_outputs self ++ [expected_output] |}.

(** A call of one of the two methods that change a challenge. *)
Inductive challenge_call : Type :=
  | AddHint (hint : str)
  | AddTestCase (test_case : test_case) (expected_output : pyval).

Definition call (self : Challenge) (c : challenge_call) : Challenge :=
  match c with
  | AddHint hint => add_hint self hint
  | AddTestCase tc exp => add_test_case self tc exp
  end.

(** The pairs handed to [add_test_case] in a run of calls, in order. *)
Definition added_cases (calls : list challenge_call)
    : list (test_case * pyval) :=
  omap (fun c => match c with
                 | AddTestCase tc exp => Some (tc, exp)
                 | AddHint _ => None
                 end) calls.

Definition added_hints (calls : list challenge_call) : list str :=
  omap (fun c => match c with
                 | AddHint hint => Some hint
                 | AddTestCase _ _ => None
                 end) calls.

(** ** Style check: [CodeAnalyzer.check_pep8] *)

(** [float(n)] of a length; exact below [2 ** 53]. *)
Definition float_of_nat (n : nat) : float :=
  PrimFloat.of_uint63 (Uint63.of_Z (Z.of_nat n)).

(** [min(a, b)] and [max(a, b)]: the first argument unless the second
    is strictly beyond it. *)
Definition py_min (a b : float) : float := if (b <? a)%float then b else a.
Definition py_max (a b : float) : float := if (a <? b)%float then b else a.

(** [enumerate(l)] *)
Definition enumerate {A} (l : list A) : list (nat * A) :=
  zip (seq 0 (length l)) l.

(** [[i + 1 for i, line in enumerate(lines) if cond(line)]] *)
Definition line_numbers (cond : str -> bool) (lines : list str) : list nat :=
  map (fun p => (p.1 + 1)%nat)
    (List.filter (fun p => cond p.2) (enumerate lines)).

Definition is_long (line : str) : bool := (79 <? length line)%nat.

Definition has_trailing (l : str) : bool := negb (str_eqb (rstrip l) l).

(** [repr] of a list of line numbers, as an f-string shows it. *)
Definition numbers_repr (l : list nat) : str :=
  u "[" ++ join (u ", ") (map nat_str l) ++ u "]".

Definition check_pep8 (code : str) : float * list str :=
  let lines := splitlines code in
  let long_lines := line_numbers is_long lines in
  let '(feedback, score) :=
    match long_lines with
    | [] => ([], 1%float)
    | _ :: _ =>
        ([u "Lines " ++ numbers_repr (take 3 long_lines) ++
          u " exceed 79 characters" ++
          (if (3 <? length long_lines)%nat then u " and more..." else [])],
         (1 - py_min (0.1 * float_of_nat (length long_lines)) 0.3)%float)
    end in
  let trailing := line_numbers has_trailing lines in
  let '(feedback, score) :=
    match trailing with
    | [] => (feedback, score)
    | _ :: _ =>
        (feedback ++
         [u "Trailing whitespace on lines " ++ numbers_repr (take 3 trailing)],
         (score - 0.05)%float)
    end in
  let feedback :=
    match feedback with
    | [] => [u "PEP8 check OK"]
    | _ :: _ => feedback
    end in
  (py_max 0 score, feedback).

(** A line the style check has nothing to say about. *)
Definition tidy (line : str) : Prop :=
  (length line <= 79)%nat /\
  forall body c, line = body ++ [c] -> isspace c = false.


(** ** Gamification: [pymaster_gamification]

    The hub reads its rows from [challenge_results] with
    [dict(row)]: a value is what SQLite hands to Python. *)

Inductive cell : Type :=
  | CNull
  | CInt (n : Z)
  | CReal (x : float)
  | CText (s : str)
  | CBlob (b : list N).

Definition result_row := list (str * cell).

Fixpoint row_lookup (k : str) (d : result_row) : option cell :=
  match d with
  | [] => None
  | (k', v) :: d' => if str_eqb k k' then Some v else row_lookup k d'
  end.

(** [result.get(k, default)] *)
Definition get (result : result_row) (k : str) (default_ : cell) : cell :=
  default default_ (row_lookup k result).

(** [bool(c)] *)
Definition cell_truthy (c : cell) : bool :=
  match c with
  | CNull => false
  | CInt n => negb (n =? 0)%Z
  | CReal x => negb (x =? 0)%float
  | CText s => negb (bool_decide (s = []))
  | CBlob b => negb (bool_decide (b = []))
  end.

(** An [int] against a [float], compared as numbers and not after
    rounding; [None] against a NaN. *)
Definition compare_int_float (n : Z) (y : float) : option comparison :=
  match Prim2SF y with
  | S754_nan => None
  | S754_zero _ => Some (n ?= 0)%Z
  | S754_infinity negative => Some (if negative then Gt else Lt)
  | S754_finite negative m e =>
      let v := if negative then Z.neg m else Z.pos m in
      Some (if (0 <=? e)%Z then (n ?= v * 2 ^ e)%Z
            else (n * 2 ^ (- e) ?= v)%Z)
  end.

(** [c > y], [c < y] and [c >= y] for a [float] [y]; [None] is the
    [TypeError] of an operand that is no number. *)
Definition cell_gt (c : cell) (y : float) : option bool :=
  match c with
  | CReal x => Some (y <? x)%float
  | CInt n => Some (bool_decide (compare_int_float n y = Some Gt))
  | _ => None
  end.

Definition cell_lt (c : cell) (y : float) : option bool :=
  match c with
  | CReal x => Some (x <? y)%float
  | CInt n => Some (bool_decide (compare_int_float n y = Some Lt))
  | _ => None
  end.

Definition cell_ge (c : cell) (y : float) : option bool :=
  match c with
  | CReal x => Some (y <=? x)%float
  | CInt n =>
      Some (bool_decide (compare_int_float n y = Some Gt) ||
            bool_decide (compare_int_float n y = Some Eq))
  | _ => None
  end.

Record badge := Badge { name : str; badge_description : str; emoji : str }.

Definition BADGES : list (str * badge) :=
  [(u "first_blood",
    Badge (u "First Blood " ++ [9889]) (u "Complete your first challenge")
      [9889]);
   (u "streak_starter",
    Badge (u "Streak Starter " ++ [128293])
      (u "Attempt 3 or more challenges") [128293]);
   (u "style_seeker",
    Badge (u "Style Seeker " ++ [10024]) (u "Score over 80% on PEP8")
      [10024]);
   (u "speed_demon",
    Badge (u "Speed Demon " ++ [127950; 65039])
      (u "Execution time under 0.5s") [127950; 65039]);
   (u "perfectionist",
    Badge (u "Perfectionist " ++ [127919])
      (u "Pass a challenge with 100% scores") [127919]);
   (u "level_up",
    Badge (u "Level Up! " ++ [128200]) (u "Reach level 2 or higher")
      [128200])].

(** The body of the loop of [calculate_xp]: the XP one result adds. *)
Definition result_xp (result : result_row) : option Z :=
  let xp := 10%Z in
  let xp := if cell_truthy (get result (u "passed") CNull)
            then (xp + 40)%Z else xp in
  cell_gt (get result (u "pep8_score") (CInt 0)) 0.8 ≫= fun style : bool =>
  let xp := if style then (xp + 10)%Z else xp in
  cell_gt (get result (u "performance_score") (CInt 0)) 0.8 ≫=
  fun speed : bool =>
  let xp := if speed then (xp + 10)%Z else xp in
  Some xp.

Fixpoint calculate_xp_from (xp : Z) (challenge_results : list result_row)
    : option Z :=
  match challenge_results with
  | [] => Some xp
  | result :: rest =>
      gain ← result_xp result;
      calculate_xp_from (xp + gain) rest
  end.

(** [calculate_xp(challenge_results)]; [None] is the [TypeError] of a
    score that is no number. *)
Definition calculate_xp (challenge_results : list result_row) : option Z :=
  calculate_xp_from 0 challenge_results.

Definition get_level_from_xp (xp : Z) : Z := (1 + xp / 100)%Z.

Definition get_xp_for_next_level (level : Z) : Z := (level * 100)%Z.

Definition get_xp_progress_in_level (xp level : Z) : Z := (xp mod 100)%Z.

(** [list(dict.fromkeys(badges))]: each key once, where it came
    first. *)
Definition fromkeys (badges : list str) : list str :=
  foldl (fun seen b => if bool_decide (b ∈ seen) then seen else seen ++ [b])
    [] badges.

(** The badges one result appends. *)
Definition result_badges (result : result_row) : option (list str) :=
  cell_gt (get result (u "pep8_score") (CInt 0)) 0.8 ≫= fun style : bool =>
  cell_lt (get result (u "execution_time") (CInt 1)) 0.5 ≫=
  fun speed : bool =>
  (if cell_truthy (get result (u "passed") CNull) then
     cell_ge (get result (u "pep8_score") (CInt 0)) 1 ≫= fun pep : bool =>
     if pep then cell_ge (get result (u "performance_score") (CInt 0)) 1
     else Some false
   else Some false) ≫= fun perfect : bool =>
  Some ((if style then [u "style_seeker"] else []) ++
        (if speed then [u "speed_demon"] else []) ++
        (if perfect then [u "perfectionist"] else [])).

Fixpoint append_badges (badges : list str)
    (challenge_results : list result_row) : option (list str) :=
  match challenge_results with
  | [] => Some badges
  | result :: rest =>
      more ← result_badges result;
      append_badges (badges ++ more) rest
  end.

(** [get_user_badges(challenge_results, level)]; [None] is the
    [TypeError] of a score that is no number. *)
Definition get_user_badges (challenge_results : list result_row) (level : Z)
    : option (list str) :=
  let badges := [] in
  let badges := if (1 <=? length challenge_results)%nat
                then badges ++ [u "first_blood"] else badges in
  let badges := if (3 <=? length challenge_results)%nat
                then badges ++ [u "streak_starter"] else badges in
  let badges := if (2 <=? level)%Z
                then badges ++ [u "level_up"] else badges in
  badges ← append_badges badges challenge_results;
  Some (fromkeys badges).

(** The numbers [run_gamification_hub] works out from the rows it has
    read: total XP, level and badges. *)
Definition hub_status (raw_challenge_results : list result_row)
    : option (Z * Z * list str) :=
  total_xp ← calculate_xp raw_challenge_results;
  let current_level := get_level_from_xp total_xp in
  earned_badges ← get_user_badges raw_challenge_results current_level;
  Some (total_xp, current_level, earned_badges).

(** *** Sample rows *)

Definition sample_result (passed_ : Z) (pep8 performance seconds : float)
    : result_row :=
  [(u "challenge_id", CText (u "core_001")); (u "passed", CInt passed_);
   (u "performance_score", CReal performance); (u "pep8_score", CReal pep8);
   (u "execution_time", CReal seconds)].

Definition sample_results : list result_row :=
  [sample_result 1 1 1 0.25; sample_result 0 0.95 0.5 1.5].


(** ** Arcade mode: the counters of [run_arcade_mode]

    The loop keeps four counters, which depend on nothing but whether
    each round was passed; the clock, the console and the database are
    left out. *)

Record arcade_counters := ArcadeCounters {
  attempted : nat;
  solved : nat;
  current_streak : nat;
  best_streak : nat
}.

(** The counters before the first round. *)
Definition arcade_start : arcade_counters := ArcadeCounters 0 0 0 0.

(** The update at the end of one round. *)
Definition arcade_round (c : arcade_counters) (passed : bool)
    : arcade_counters :=
  let attempted := (attempted c + 1)%nat in
  if passed then
    let solved := (solved c + 1)%nat in
    let current_streak := (current_streak c + 1)%nat in
    let best_streak := Nat.max (best_streak c) current_streak in
    ArcadeCounters attempted solved current_streak best_streak
  else
    ArcadeCounters attempted (solved c) 0 (best_streak c).

(** The counters after rounds with the given outcomes. *)
Definition arcade_rounds (outcomes : list bool) : arcade_counters :=
  foldl arcade_round arcade_start outcomes.


(** ** Quest campaign: [pymaster_quests] *)

Record quest_step := {
  step_id : str;
  step_title : str;
  step_description : str;
  step_challenge_id : option str;
  step_narrative : str
}.

Record zone := {
  zone_name : str;
  zone_color : str;
  zone_emoji : str;
  zone_description : str;
  zone_steps : list quest_step
}.

Definition ZONES : list (str * zone) :=
  [(u "green_valley",
    {| zone_name := u "Green Valley " ++ [63743; 252; 229; 177];
       zone_color := u "green";
       zone_emoji := [63743; 252; 229; 177];
       zone_description :=
         u "Master the fundamentals of Python programming";
       zone_steps := [
      {| step_id := u "gv_step1";
         step_title := u "The First Function";
         step_description :=
           u "Write your first Python function to add two numbers " ++
           u "together.";
         step_challenge_id := (Some (u "core_001"));
         step_narrative :=
           u "Welcome to Green Valley, young programmer! Your journey " ++
           u "begins with the most fundamental concept - functions. " ++
           u "Create a function that takes two parameters and returns " ++
           u "their sum." |};
      {| step_id := u "gv_step2";
         step_title := u "String Manipulation";
         step_description :=
           u "Process text strings to extract specific information.";
         step_challenge_id := None;
         step_narrative :=
           u "In the meadows of Green Valley, you encounter ancient " ++
           u "texts that need processing. Your task is to manipulate " ++
           u "strings to extract meaningful information." |};
      {| step_id := u "gv_step3";
         step_title := u "List Basics";
         step_description :=
           u "Work with lists to store and manipulate collections of " ++
           u "data.";
         step_challenge_id := None;
         step_narrative :=
           u "The villagers of Green Valley need help organizing their " ++
           u "harvest. Use your list skills to manage collections of " ++
           u "fruits and vegetables." |}] |});
   (u "azure_city",
    {| zone_name := u "Azure City " ++ [63743; 252; 232; 244; 212; 8719; 232];
       zone_color := u "cyan";
       zone_emoji := [63743; 252; 232; 244; 212; 8719; 232];
       zone_description :=
         u "Dive into data structures and advanced list operations";
       zone_steps := [
      {| step_id := u "ac_step1";
         step_title := u "List Comprehensions";
         step_description :=
           u "Use list comprehensions to filter and transform data " ++
           u "efficiently.";
         step_challenge_id := (Some (u "ds_001"));
         step_narrative :=
           u "Welcome to the technological heart of Python land - Azure " ++
           u "City! Here, efficiency is key. Master list comprehensions " ++
           u "to process data like a pro." |};
      {| step_id := u "ac_step2";
         step_title := u "Dictionary Operations";
         step_description :=
           u "Manipulate dictionaries to store key-value relationships.";
         step_challenge_id := None;
         step_narrative :=
           u "The city's database systems require your expertise with " ++
           u "dictionaries. Organize citizen records using key-value " ++
           u "pairs." |};
      {| step_id := u "ac_step3";
         step_title := u "Data Processing Challenge";
         step_description :=
           u "Combine multiple data structures to solve a complex " ++
           u "problem.";
         step_challenge_id := None;
         step_narrative :=
           u "The mayor of Azure City has a special task for you. " ++
           u "Process complex datasets using all the skills you've " ++
           u "learned." |}] |});
   (u "scarlet_tower",
    {| zone_name := u "Scarlet Tower " ++ [63743; 252; 243; 186];
       zone_color := u "red";
       zone_emoji := [63743; 252; 243; 186];
       zone_description :=
         u "Conquer object-oriented programming and class design";
       zone_steps := [
      {| step_id := u "st_step1";
         step_title := u "Class Creation";
         step_description :=
           u "Design and implement your first Python class.";
         step_challenge_id := (Some (u "oop_001"));
         step_narrative :=
           u "At the top of Scarlet Tower, you'll master the art of " ++
           u "Object-Oriented Programming. Begin by creating your first " ++
           u "class with attributes and methods." |};
      {| step_id := u "st_step2";
         step_title := u "Inheritance";
         step_description :=
           u "Use inheritance to create specialized classes.";
         step_challenge_id := None;
         step_narrative :=
           u "The ancient wizards of Scarlet Tower used inheritance to " ++
           u "pass down magical knowledge. Create class hierarchies to " ++
           u "organize your code." |};
      {| step_id := u "st_step3";
         step_title := u "Design Patterns";
         step_description :=
           u "Implement common design patterns in Python.";
         step_challenge_id := None;
         step_narrative :=
           u "Your final challenge in Scarlet Tower is to implement " ++
           u "proven design patterns that make your code robust and " ++
           u "maintainable." |}] |})].

(** [d.get(k)] on the items of a dict with text keys. *)
Fixpoint assoc {A} (k : str) (d : list (str * A)) : option A :=
  match d with
  | [] => None
  | (k', v) :: d' => if str_eqb k k' then Some v else assoc k d'
  end.

(** The user's progress in memory: for a zone, the steps completed. *)
Abbreviation campaign := (gmap str (list str)).

(** [progress[zone_id].append(step_id)], after [progress[zone_id] = []]
    for a zone that is not in [progress]. *)
Definition append_step (progress : campaign) (zone_id step_id : str)
    : campaign :=
  <[zone_id := default [] (progress !! zone_id) ++ [step_id]]> progress.

(** The loop of [get_user_progress] over the rows fetched. *)
Definition get_user_progress (rows : list (str * str)) : campaign :=
  foldl (fun progress row => append_step progress row.1 row.2) ∅ rows.

(** The table [campaign_progress], by its unique key
    [(user_id, zone_id, step_id)]. *)
Record campaign_row := {
  completed : bool;
  completed_at : str
}.

Abbreviation campaign_table := (gmap (str * str * str) campaign_row).

(** The rows [SELECT zone_id, step_id ... WHERE user_id = ? AND
    completed = 1] yields: those of the user, in an order that SQL does
    not fix. *)
Definition selected (table : campaign_table) (username : str)
    : list (str * str) :=
  omap (fun entry : str * str * str * campaign_row =>
          let '(user_id, zone_id, step_id, row) := entry in
          if bool_decide (user_id = username) && completed row
          then Some (zone_id, step_id) else None)
    (map_to_list table).

Definition fetched (table : campaign_table) (username : str)
    (rows : list (str * str)) : Prop :=
  rows ≡ₚ selected table username.

(** [mark_step_completed]: [INSERT OR REPLACE] at the time [now]. *)
Definition mark_step_completed (table : campaign_table)
    (username zone_id step_id now : str) : campaign_table :=
  <[(username, zone_id, step_id) :=
      {| completed := true; completed_at := now |}]> table.

Definition is_step_completed (progress : campaign) (zone_id step_id : str)
    : bool :=
  match progress !! zone_id with
  | Some steps => bool_decide (step_id ∈ steps)
  | None => false
  end.

Definition unlock_requirements : list (str * (str * nat)) :=
  [(u "azure_city", (u "green_valley", 1%nat));
   (u "scarlet_tower", (u "azure_city", 1%nat))].

Definition is_zone_unlocked (progress : campaign) (zone_id : str) : bool :=
  if str_eqb zone_id (u "green_valley") then true
  else
    match assoc zone_id unlock_requirements with
    | None => false
    | Some (required_zone, required_steps) =>
        match progress !! required_zone with
        | Some steps => (required_steps <=? length steps)%nat
        | None => false
        end
    end.

(** [mark_step_as_completed_ui], with the answer [choice] given at the
    prompt; what it prints is left out. *)
Definition mark_step_as_completed_ui (table : campaign_table)
    (username zone_id : str) (step_index : Z) (progress : campaign)
    (choice now : str) : campaign_table * campaign :=
  match assoc zone_id ZONES with
  | None => (table, progress)
  | Some zone_data =>
      if (step_index <? 0)%Z ||
         (Z.of_nat (length (zone_steps zone_data)) <=? step_index)%Z
      then (table, progress)
      else
        match zone_steps zone_data !! Z.to_nat step_index with
        | None => (table, progress)
        | Some step =>
            if is_step_completed progress zone_id (step_id step)
            then (table, progress)
            else if (0 <? step_index)%Z &&
                    negb (from_option
                            (fun previous =>
                               is_step_completed progress zone_id
                                 (step_id previous))
                            false
                            (zone_steps zone_data !!
                               Z.to_nat (step_index - 1)))
            then (table, progress)
            else if str_eqb (lower choice) (u "y") then
              (mark_step_completed table username zone_id (step_id step)
                 now,
               append_step progress zone_id (step_id step))
            else (table, progress)
        end
  end.

(** Choice 3 of the menu of [run_quest_campaign]: the zone is picked
    among the unlocked ones, the step among the steps of the zone; the
    prompt takes no other answer. *)
Definition zone_choices (progress : campaign) : list str :=
  List.filter (is_zone_unlocked progress) (ZONES.*1).

Definition mark_from_menu (table : campaign_table) (username : str)
    (progress : campaign) (zone_idx step_idx : nat) (choice now : str)
    : campaign_table * campaign :=
  match zone_choices progress !! zone_idx with
  | None => (table, progress)
  | Some selected_zone =>
      mark_step_as_completed_ui table username selected_zone
        (Z.of_nat step_idx) progress choice now
  end.

(** The steps of a zone, by their ids. *)
Definition zone_step_ids (zone_id : str) : list str :=
  from_option (fun zone_data => map step_id (zone_steps zone_data)) []
    (assoc zone_id ZONES).

(** Memory and table agree on what a user has completed. *)
Definition in_step (table : campaign_table) (username : str)
    (progress : campaign) : Prop :=
  forall zone_id step_id,
    is_step_completed progress zone_id step_id = true <->
    exists row, table !! (username, zone_id, step_id) = Some row /\
                completed row = true.

(** Progress made through the menu: only zones of [ZONES], in each the
    steps from the first on in their order, and no step in a zone that
    is locked. *)
Definition orderly (progress : campaign) : Prop :=
  forall zone_id steps,
    progress !! zone_id = Some steps ->
    steps `prefix_of` zone_step_ids zone_id /\
    (steps <> [] -> is_zone_unlocked progress zone_id = true).


(** ** Syntax check: [CodeAnalyzer.validate_syntax] *)

(** What CPython reports with the [SyntaxError] of a source that does
    not parse: [e.lineno], which can be [None], and [e.msg]. *)
Class SyntaxReport := {
  lineno : str -> pyval;
  msg : str -> str
}.

(** [ast.parse] returns or raises [SyntaxError], as everywhere in this
    development; the clause [except Exception] is never entered. *)
Definition validate_syntax `{Runtime} `{SyntaxReport} (code : str)
    : bool * list str :=
  match ast_parse code with
  | Some _ => (true, [])
  | None =>
      (false,
       [u "Syntax Error on line " ++ py_str (lineno code) ++ u ": " ++
        msg code])
  end.

(** ** Arcade mode: one challenge *)

Record ArcadeChallenge := {
  arcade_id : str;
  arcade_title : str;
  arcade_description : str;
  function_name : str;
  arcade_test_cases : list test_case;
  arcade_expected_outputs : list pyval;
  template : str
}.

(** A test case [{'function': 'solution', 'args': args}]. *)
Definition solution_case (args : list pyval) : test_case :=
  TestCase (Some (u "solution")) args [].

Definition ints (ns : list Z) : pyval := VList (map VInt ns).

Definition quick_sum : ArcadeChallenge := {|
  arcade_id := u "arcade_001";
  arcade_title := u "Quick Sum";
  arcade_description :=
    u "Create a function that returns the sum of two integers";
  function_name := u "solution";
  arcade_test_cases :=
    [solution_case [VInt 1; VInt 2]; solution_case [VInt (-5); VInt 10];
     solution_case [VInt 0; VInt 0]];
  arcade_expected_outputs := [VInt 3; VInt 5; VInt 0];
  template := u "def solution(a: int, b: int) -> int:
    # Return the sum of a and b
    pass"
|}.

Definition even_numbers : ArcadeChallenge := {|
  arcade_id := u "arcade_002";
  arcade_title := u "Even Numbers";
  arcade_description :=
    u "Return a list of even numbers from the input list";
  function_name := u "solution";
  arcade_test_cases :=
    [solution_case [ints [1; 2; 3; 4; 5]%Z];
     solution_case [ints [1; 3; 5]%Z];
     solution_case [ints [2; 4; 6; 8]%Z]];
  arcade_expected_outputs :=
    [ints [2; 4]%Z; ints []%Z; ints [2; 4; 6; 8]%Z];
  template := u "def solution(numbers: List[int]) -> List[int]:
    # Return only the even numbers from the input list
    pass"
|}.

Definition string_reverser : ArcadeChallenge := {|
  arcade_id := u "arcade_003";
  arcade_title := u "String Reverser";
  arcade_description := u "Reverse the input string";
  function_name := u "solution";
  arcade_test_cases :=
    [solution_case [VStr (u "hello")]; solution_case [VStr (u "Python")];
     solution_case [VStr []]];
  arcade_expected_outputs :=
    [VStr (u "olleh"); VStr (u "nohtyP"); VStr []];
  template := u "def solution(s: str) -> str:
    # Return the reversed string
    pass"
|}.

Definition max_value : ArcadeChallenge := {|
  arcade_id := u "arcade_004";
  arcade_title := u "Max Value";
  arcade_description :=
    u "Find the maximum value in a list of integers";
  function_name := u "solution";
  arcade_test_cases :=
    [solution_case [ints [1; 5; 3; 9; 2]%Z];
     solution_case [ints [-1; -5; -3]%Z]; solution_case [ints [42]%Z]];
  arcade_expected_outputs := [VInt 9; VInt (-1); VInt 42];
  template := u "def solution(numbers: List[int]) -> int:
    # Return the maximum value in the list
    pass"
|}.

Definition word_counter : ArcadeChallenge := {|
  arcade_id := u "arcade_005";
  arcade_title := u "Word Counter";
  arcade_description := u "Count the number of words in a sentence";
  function_name := u "solution";
  arcade_test_cases :=
    [solution_case [VStr (u "Hello world")];
     solution_case [VStr (u "Python is awesome")];
     solution_case [VStr []]];
  arcade_expected_outputs := [VInt 2; VInt 3; VInt 0];
  template := u "def solution(sentence: str) -> int:
    # Return the number of words in the sentence
    pass"
|}.

Definition create_arcade_challenges : list ArcadeChallenge :=
  [quick_sum; even_numbers; string_reverser; max_value; word_counter].

(** [run_arcade_challenge] on the code [get_user_code] returned, with
    the two readings of the clock; what goes to the console is left
    out.  The time of a skipped challenge is the [int] 0. *)
Definition run_arcade_challenge `{Runtime} `{Host} `{SyntaxReport}
    (validator : ChallengeValidator) (challenge : ArcadeChallenge)
    (user_code : str) (start_time end_time : float)
    : M (bool * cell * list str) :=
  match user_code with
  | [] => mret (false, CInt 0, [u "Challenge skipped"])
  | _ :: _ =>
      let '(ok, syn_feedback) := validate_syntax user_code in
      if negb ok then
        mret (false, CReal (end_time - start_time), syn_feedback)
      else
        r ← validate_solution validator user_code
               (arcade_test_cases challenge)
               (arcade_expected_outputs challenge);
        mret (r.1, CReal (end_time - start_time), r.2)
  end.

(** A report to compute with. *)
Definition plain_report : SyntaxReport := {|
  lineno := fun _ => VInt 1;
  msg := fun _ => u "invalid syntax"
|}.


(** ** Progress records: [UserProgress] and [PyMaster._update_progress] *)

Record UserProgress := {
  user_id : str;
  progress_module : str;
  progress_concept : str;
  attempts : Z;
  correct_attempts : Z;
  last_attempt : option str;
  mastery_level : float
}.

(** [int(x)]: towards zero; [None] is the error raised for an infinity
    or a NaN. *)
Definition int_of_float (x : float) : option Z :=
  match Prim2SF x with
  | S754_zero _ => Some 0%Z
  | S754_finite negative m e =>
      let v := if (0 <=? e)%Z then (Z.pos m * 2 ^ e)%Z
               else (Z.pos m / 2 ^ (- e))%Z in
      Some (if negative then (- v)%Z else v)
  | _ => None
  end.

Definition get_mastery_percentage (self : UserProgress) : option Z :=
  int_of_float (mastery_level self * 100).

(** The record [_update_progress] hands to [save_progress], from the
    list [prog] that [get_user_progress] returned and the time
    [now]. *)
Definition _update_progress (prog : list UserProgress) (current_user : str)
    (challenge : Challenge) (passed : bool) (now : str) : UserProgress :=
  match prog with
  | p :: _ =>
      {| user_id := user_id p;
         progress_module := progress_module p;
         progress_concept := progress_concept p;
         attempts := attempts p + 1;
         correct_attempts :=
           if passed then (correct_attempts p + 1)%Z else correct_attempts p;
         last_attempt := Some now;
         mastery_level :=
           if passed then py_min 1 (mastery_level p + 0.1)
           else mastery_level p |}
  | [] =>
      {| user_id := current_user;
         progress_module := module challenge;
         progress_concept := concept challenge;
         attempts := 1;
         correct_attempts := if passed then 1%Z else 0%Z;
         last_attempt := Some now;
         mastery_level := if passed then 0.1%float else 0%float |}
  end.

(** The record of a user for a challenge after a run of attempts, given
    as outcome and time: each update starts from the record the one
    before it saved, which is what the table returns for the key
    [(user_id, module, concept)]. *)
Definition progress_after (current_user : str) (challenge : Challenge)
    (attempts_made : list (bool * str)) : option UserProgress :=
  foldl (fun saved attempt =>
           Some (_update_progress (option_list saved) current_user challenge
                   attempt.1 attempt.2))
    None attempts_made.

(** The percentage shown after a number of passed attempts. *)
Definition mastery_shown (passes : nat) : Z :=
  nth passes [0; 10; 20; 30; 40; 50; 60; 70; 80; 89; 99]%Z 100%Z.

(** The mastery level after a number of passed attempts. *)
Fixpoint mastery_climb (passes : nat) : float :=
  match passes with
  | O => 0%float
  | S n => py_min 1 (mastery_climb n + 0.1)
  end.

(** *** The challenges of [PyMaster._load_challenges]

    The three classes of challenge differ in the template and the
    solution they show, which are left out. *)

Definition ch1 : Challenge :=
  add_hint
    (add_test_case
       (add_test_case
          (Challenge_init (u "core_001") (u "Basic Function Implementation")
             (u "Implement a function that adds two numbers") 1
             (u "core_python") (u "functions"))
          (solution_case [VInt 2; VInt 3]) (VInt 5))
       (solution_case [VInt (-1); VInt 1]) (VInt 0))
    (u "Use the + operator").

Definition ch2 : Challenge :=
  add_test_case
    (add_test_case
       (Challenge_init (u "ds_001") (u "List Comprehension Practice")
          (u "Create a list of even numbers doubled") 3
          (u "data_structures") (u "list_comprehension"))
       (solution_case [ints [1; 2; 3; 4; 5]%Z]) (ints [4; 8]%Z))
    (solution_case [ints [1; 3; 5]%Z]) (ints []%Z).

Definition ch3 : Challenge :=
  add_test_case
    (Challenge_init (u "oop_001") (u "Class Implementation")
       (u "Create a class that processes input data") 5
       (u "object_oriented") (u "classes"))
    (TestCase (Some (u "Solution().process")) [VStr (u "test")] [])
    (VStr (u "Processed: test")).

Definition _load_challenges : list Challenge := [ch1; ch2; ch3].

(** * Theorems *)

(** ** The tree walk *)

Lemma node_size_pos (n : node) : (0 < node_size n)%nat.
Proof. destruct n; simpl; lia. Qed.

Lemma child_nodes_size (n : node) :
  S (list_sum (map node_size (child_nodes n))) = node_size n.
Proof. destruct n; reflexivity. Qed.

Lemma list_sum_elem (t : node) (todo : list node) :
  t ∈ todo -> (node_size t <= list_sum (map node_size todo))%nat.
Proof.
  induction 1 as [x l | x y l _ IH]; simpl; [lia | lia].
Qed.

(** With fuel for every node still to come, the queue yields every node
    below one of its trees. *)
Lemma walk_queue_complete (fuel : nat) :
  forall todo n t,
    (list_sum (map node_size todo) <= fuel)%nat ->
    t ∈ todo -> subnode n t -> n ∈ walk_queue fuel todo.
Proof.
  induction fuel as [| fuel IH]; intros todo n t Hfuel Ht Hsub.
  - pose proof (list_sum_elem _ _ Ht). pose proof (node_size_pos t). lia.
  - destruct todo as [| x todo']; [inversion Ht |]. simpl.
    assert (Hfuel' :
      (list_sum (map node_size (todo' ++ child_nodes x)) <= fuel)%nat).
    { rewrite map_app, list_sum_app. simpl in Hfuel.
      pose proof (child_nodes_size x). lia. }
    apply elem_of_cons in Ht as [-> | Ht].
    + inversion Hsub as [| fields t' Hin Hsub' Heq]; subst.
      * left.
      * right. apply (IH _ _ t' Hfuel'); [| exact Hsub'].
        apply elem_of_app. right. exact Hin.
    + right. apply (IH _ _ t Hfuel'); [| exact Hsub].
      apply elem_of_app. left. exact Ht.
Qed.

Lemma walk_complete (tree n : node) : subnode n tree -> n ∈ walk tree.
Proof.
  intros Hsub. unfold walk.
  apply (walk_queue_complete _ _ _ tree); [simpl; lia | left | exact Hsub].
Qed.

(** ** Screening *)

Section Screening.
Context `{R : Runtime}.

Lemma has_blocked_call_spec (code : str) :
  has_blocked_call code = true <->
  exists tok, tok ∈ blocked_calls /\ contains tok (lower code) = true.
Proof.
  unfold has_blocked_call. rewrite existsb_exists.
  split; intros (tok & Hin & Hc); exists tok; split; auto;
    by apply list_elem_of_In.
Qed.

Lemma import_denied_spec (n : node) :
  import_denied n = true <->
  exists x, x ∈ import_check n /\ x ∈ blocked_imports.
Proof.
  unfold import_denied, is_blocked_import. rewrite existsb_exists.
  split.
  - intros (x & Hin & Hx). exists x.
    apply list_elem_of_In, list_elem_of_filter in Hin as [_ Hin].
    split; [exact Hin | by apply bool_decide_eq_true in Hx].
  - intros (x & Hin & Hx). exists x. split.
    + apply list_elem_of_In, list_elem_of_filter. split; [| exact Hin].
      intros ->. revert Hx. clear. vm_compute. intros Hx.
      repeat (apply elem_of_cons in Hx as [Hx | Hx]; [discriminate |]).
      inversion Hx.
    + by apply bool_decide_eq_true.
Qed.

(** A tree with an import statement one of whose top-level names is on
    the deny-list is rejected. *)
Lemma denied_import_rejected (code : str) (tree n : node) (x : str) :
  ast_parse code = Some tree -> subnode n tree ->
  x ∈ import_check n -> x ∈ blocked_imports ->
  _is_safe_code code = false.
Proof.
  intros Hparse Hsub Hx Hdeny. unfold _is_safe_code. rewrite Hparse.
  assert (existsb import_denied (walk tree) = true) as ->; [| done].
  apply existsb_exists. exists n. split.
  - apply list_elem_of_In, walk_complete, Hsub.
  - apply import_denied_spec. eauto.
Qed.
End Screening.






(** An import statement is judged by the first dotted component of its
    names only. *)
Lemma import_check_first_component (names : list alias) :
  import_check (Import names) =
  map (fun a => first_component (alias_name a)) names.
Proof. reflexivity. Qed.

(** Whatever parser reads [import asyncio.subprocess] as the one import
    statement it is, the pre-screen lets that source through. *)
Lemma dotted_import_allowed `{R : Runtime} :
  ast_parse (u "import asyncio.subprocess") =
    Some (Node [Import [Alias (u "asyncio.subprocess")]]) ->
  _is_safe_code (u "import asyncio.subprocess") = true.
Proof. intros Hparse. unfold _is_safe_code. rewrite Hparse. reflexivity. Qed.

(** C10: the source [import asyncio.subprocess] parses to one import
    statement; the name it imports, [asyncio.subprocess], is on the
    deny-list in full; the name compared with the deny-list is its first
    component [asyncio]; and the pre-screen answers [True]. *)
Theorem C10_dotted_import_passes :
  u "asyncio.subprocess" ∈ blocked_imports /\
  @ast_parse cpython_fragment (u "import asyncio.subprocess") =
    Some (Node [Import [Alias (u "asyncio.subprocess")]]) /\
  import_check (Import [Alias (u "asyncio.subprocess")]) = [u "asyncio"] /\
  @_is_safe_code cpython_fragment (u "import asyncio.subprocess") = true.
Proof.
  split; [| split; [| split]]; try reflexivity.
  apply list_elem_of_In. vm_compute. tauto.
Qed.

(** ** The runner *)

Ltac unfold_M :=
  unfold mbind, mret, M_bind, M_ret, bind, ret, raise, lift in *.

Section Runner.
Context `{R : Runtime} `{H : Host}.

Lemma read_result_no_wait (out err : str) : read_result out err <> Blocks.
Proof. unfold read_result. repeat case_match; discriminate. Qed.

(** A rejected source costs nothing: the world is as it was. *)
Lemma execute_rejected self code tf args kwargs (w : world) :
  _is_safe_code code = false ->
  execute self code tf args kwargs w =
  (w, Returns (false, VNone, VStr unsafe_message)).
Proof. intros Hs. unfold execute. rewrite Hs. reflexivity. Qed.

(** The [try] always returns, with the verdict on the child. *)
Lemma run_wrapper_spec self (f : nat) (w : world) :
  run_wrapper self f w =
  (spawned w f, Returns (verdict self (child w f (timeout self)))).
Proof.
  unfold run_wrapper, try_except, subprocess_run, verdict, spawned.
  unfold_M. destruct (child w f (timeout self)) as [out err | | e]; simpl.
  - pose proof (read_result_no_wait out err) as Hw.
    destruct (read_result out err) as [r | [| ty msg] |]; done.
  - reflexivity.
  - destruct e; reflexivity.
Qed.

(** Once the wrapper is on disk, [execute] returns the verdict, after
    unlinking the file and releasing the semaphore. *)
Lemma execute_ran self code tf args kwargs (w w1 : world) (f : nat) :
  _is_safe_code code = true ->
  (acquire;; write_wrapper code tf args kwargs) w = (w1, Returns f) ->
  execute self code tf args kwargs w =
  (cleaned (spawned w1 f) f,
   Returns (verdict self (child w1 f (timeout self)))).
Proof.
  intros Hs Hpre. unfold execute, with_semaphore. rewrite Hs. simpl.
  revert Hpre. unfold_M. unfold acquire.
  destruct (sem_value w); [discriminate |]. intros Hpre.
  unfold try_finally at 1. rewrite Hpre.
  unfold try_finally. rewrite run_wrapper_spec. reflexivity.
Qed.

(** An exception in the block that writes the wrapper leaves [execute]
    with the semaphore released and no more. *)
Lemma execute_wrapper_raises self code tf args kwargs (w w1 : world) e :
  _is_safe_code code = true ->
  (acquire;; write_wrapper code tf args kwargs) w = (w1, Raises e) ->
  execute self code tf args kwargs w = ((release w1).1, Raises e).
Proof.
  intros Hs Hpre. unfold execute, with_semaphore. rewrite Hs. simpl.
  revert Hpre. unfold_M. unfold acquire.
  destruct (sem_value w); [discriminate |]. intros Hpre.
  unfold try_finally at 1. rewrite Hpre. reflexivity.
Qed.

(** Arguments that [json.dumps] refuses stop the block after the file
    has been created. *)
Lemma write_wrapper_not_serializable code tf args kwargs (w : world) :
  create_error w = None -> json_dumps (VTuple args) = None ->
  write_wrapper code tf args kwargs w =
  (World (sem_value w)
     (<[fresh (dom (temp_files w)) := []]> (temp_files w))
     (trace w ++ [EvCreate (fresh (dom (temp_files w)))]),
   Raises not_serializable).
Proof.
  intros Hc Hd. unfold write_wrapper, NamedTemporaryFile, _make_wrapper.
  unfold_M. rewrite Hc. unfold dumps at 1. simpl.
  unfold dumps. rewrite Hd. reflexivity.
Qed.
End Runner.

(** ** The semaphore and the temporary file *)

Section Resources.
Context `{R : Runtime} `{H : Host}.

Lemma quiet_bind {A B} (m : M A) (k : A -> M B) :
  quiet m -> (forall a, quiet (k a)) -> quiet (m ≫= k).
Proof.
  intros Hm Hk w. destruct (Hm w) as [Hs0 Hb0]. unfold_M.
  destruct (m w) as [w' [a | e |]]; simpl in *.
  - destruct (Hk a w') as [Hs Hb]. split; [congruence | exact Hb].
  - split; [exact Hs0 | discriminate].
  - done.
Qed.

Lemma quiet_try_finally {A} (m : M A) (fin : M unit) :
  quiet m -> quiet fin -> quiet (try_finally m fin).
Proof.
  intros Hm Hf w. destruct (Hm w) as [Hs0 Hb0]. unfold try_finally.
  destruct (m w) as [w' o]; simpl in *. destruct (Hf w') as [Hs1 Hb1].
  destruct o as [a | e |]; [| | done];
    destruct (fin w') as [w'' [[] | e' |]]; simpl in *;
    (split; [congruence | done]).
Qed.

(** Building the wrapper text touches nothing. *)
Lemma make_wrapper_pure code tf args kwargs (w : world) :
  exists o, _make_wrapper code tf args kwargs w = (w, o) /\ o <> Blocks.
Proof.
  unfold _make_wrapper, dumps. unfold_M.
  destruct (json_dumps (VStr _)); [| by eexists].
  destruct (json_dumps (VTuple _)); [| by eexists].
  destruct (json_dumps (VDict _)); by eexists.
Qed.

Lemma quiet_write_wrapper code tf args kwargs :
  quiet (write_wrapper code tf args kwargs).
Proof.
  intros w. unfold write_wrapper, NamedTemporaryFile, write. unfold_M.
  destruct (create_error w); [done |].
  match goal with |- context [_make_wrapper ?c ?t ?a ?k ?w0] =>
    destruct (make_wrapper_pure c t a k w0) as (o & -> & Ho)
  end.
  destruct o as [text | e |]; [| done | done].
  destruct (write_error _ text); done.
Qed.

Lemma quiet_run_wrapper self f : quiet (run_wrapper self f).
Proof. intros w. rewrite run_wrapper_spec. done. Qed.

Lemma quiet_unlink f : quiet (unlink_quietly f).
Proof. intros w. done. Qed.

Lemma with_semaphore_spec {A} (body : M A) (w : world) :
  quiet body ->
  sem_value (with_semaphore body w).1 = sem_value w /\
  ((with_semaphore body w).2 = Blocks ->
   sem_value w = O /\ (with_semaphore body w).1 = w).
Proof.
  intros Hq. unfold with_semaphore, acquire, try_finally, release.
  unfold_M. destruct (sem_value w) as [| n] eqn:Hsem; [done |].
  match goal with |- context [body ?w0] =>
    destruct (Hq w0) as [Hs Hb]; destruct (body w0) as [w' [a | e |]]
  end; simpl in *; [| | done]; (split; [congruence | discriminate]).
Qed.

(** On every path out of [execute] the semaphore holds what it held
    before the call, and the call waits for ever only when it finds
    the semaphore empty. *)
Lemma execute_semaphore self code tf args kwargs (w : world) :
  sem_value (execute self code tf args kwargs w).1 = sem_value w /\
  ((execute self code tf args kwargs w).2 = Blocks ->
   sem_value w = O /\ (execute self code tf args kwargs w).1 = w).
Proof.
  unfold execute. destruct (_is_safe_code code); simpl; [| done].
  apply with_semaphore_spec, quiet_bind.
  - apply quiet_write_wrapper.
  - intros f. apply quiet_try_finally;
      [apply quiet_run_wrapper | apply quiet_unlink].
Qed.

(** Where the wrapper reaches the disk and the unlink succeeds, the
    temporary files after the call are those before it. *)
Lemma execute_cleans self code tf args kwargs (w w1 : world) (f : nat) :
  _is_safe_code code = true ->
  (acquire;; write_wrapper code tf args kwargs) w = (w1, Returns f) ->
  unlink_error (spawned w1 f) f = false ->
  temp_files (execute self code tf args kwargs w).1 = temp_files w.
Proof.
  intros Hs Hpre Hun. rewrite (execute_ran _ _ _ _ _ _ _ _ Hs Hpre).
  unfold cleaned, unlink_quietly, release. simpl. rewrite Hun. simpl.
  revert Hpre. unfold acquire, write_wrapper, NamedTemporaryFile, write.
  unfold_M. destruct (sem_value w); [discriminate |].
  destruct (create_error _); [discriminate |].
  match goal with |- context [_make_wrapper ?c ?t ?a ?k ?w0] =>
    destruct (make_wrapper_pure c t a k w0) as (o & -> & Ho)
  end.
  destruct o as [text | e |]; [| discriminate | done].
  destruct (write_error _ text); [discriminate |].
  intros Hpre. simplify_eq. cbn [temp_files].
  rewrite insert_insert_eq. apply delete_insert_id.
  apply not_elem_of_dom, is_fresh.
Qed.

(** Where [json.dumps] refuses the arguments, the file created for the
    run stays on disk. *)
Lemma unserializable_args_leak self code tf args kwargs (w : world) :
  _is_safe_code code = true -> sem_value w <> O ->
  (forall w', create_error w' = None) ->
  json_dumps (VTuple args) = None ->
  let r := execute self code tf args kwargs w in
  r.2 = Raises not_serializable /\
  sem_value r.1 = sem_value w /\
  temp_files r.1 = <[fresh (dom (temp_files w)) := []]> (temp_files w) /\
  temp_files r.1 <> temp_files w.
Proof.
  intros Hs Hsem Hc Hd.
  destruct (sem_value w) as [| n] eqn:Hn; [done |].
  erewrite execute_wrapper_raises; [| exact Hs |].
  2: { unfold_M. unfold acquire. rewrite Hn.
       apply write_wrapper_not_serializable; [apply Hc | exact Hd]. }
  simpl. repeat split.
  intros Heq.
  apply (f_equal (fun m : gmap nat str => m !! fresh (dom (temp_files w))))
    in Heq.
  rewrite lookup_insert_eq in Heq.
  pose proof (is_fresh (dom (temp_files w))) as Hf.
  apply not_elem_of_dom in Hf. rewrite Hf in Heq. discriminate.
Qed.
End Resources.

(** C2, at an input the code mishandles: with the positional argument
    [b'\x01'], which [json.dumps] refuses, [execute] leaves by the
    [TypeError] raised inside the [with NamedTemporaryFile] block, before
    the [try] whose [finally] unlinks the file.  The semaphore is back
    at its value; the temporary file [0] created for the run is still
    on disk. *)
Theorem C2_unserializable_args_leak_file :
  let w := initial_world sample_config in
  let r := @execute cpython_fragment (scripted_host (fun _ => Exited [] []))
             (executor sample_validator) (u "pass") (Some (u "solution"))
             [VBytes [1]] [] w in
  @_is_safe_code cpython_fragment (u "pass") = true /\
  r.2 = Raises not_serializable /\
  sem_value r.1 = sem_value w /\
  temp_files w = ∅ /\
  temp_files r.1 = {[ 0%nat := [] ]} /\
  temp_files r.1 <> temp_files w.
Proof.
  intros w r.
  destruct (@unserializable_args_leak cpython_fragment
              (scripted_host (fun _ => Exited [] []))
              (executor sample_validator) (u "pass") (Some (u "solution"))
              [VBytes [1]] [] w) as (Ho & Hs & Hf & Hne);
    try reflexivity; [discriminate |].
  repeat split; try assumption; reflexivity.
Qed.

(** C3, at an input the code mishandles: [asyncio.subprocess] is on the
    deny-list, yet the source [import asyncio.subprocess] passes the
    pre-screen, and [execute] takes a semaphore unit, creates and writes
    a temporary file and spawns a child for it. *)
Theorem C3_dotted_import_spawns :
  let w := initial_world sample_config in
  let r := @execute cpython_fragment (scripted_host (fun _ => Exited [] []))
             (executor sample_validator) (u "import asyncio.subprocess")
             None [] [] w in
  u "asyncio.subprocess" ∈ blocked_imports /\
  @_is_safe_code cpython_fragment (u "import asyncio.subprocess") = true /\
  trace r.1 =
    [EvAcquire; EvCreate 0; EvWrite 0; EvSpawn 0; EvUnlink 0; EvRelease] /\
  r.2 = Returns (false, VNone, VStr (u "No output")).
Proof.
  intros w r. split; [| split; [| split]]; try reflexivity.
  apply list_elem_of_In. vm_compute. tauto.
Qed.

(** What does hold of denied imports: a source that parses and has an
    import statement one of whose top-level names is on the deny-list is
    rejected with the world untouched: no semaphore unit, no temporary
    file, no child. *)
Lemma denied_import_no_effects `{R : Runtime} `{H : Host} self code tf args
    kwargs (tree n : node) (x : str) (w : world) :
  ast_parse code = Some tree -> subnode n tree ->
  x ∈ import_check n -> x ∈ blocked_imports ->
  _is_safe_code code = false /\
  execute self code tf args kwargs w =
  (w, Returns (false, VNone, VStr unsafe_message)).
Proof.
  intros Hparse Hsub Hx Hdeny.
  pose proof (denied_import_rejected _ _ _ _ Hparse Hsub Hx Hdeny) as Hs.
  split; [exact Hs | by apply execute_rejected].
Qed.

(** C6, as stated, fails: a child that prints [hello] and nothing on
    standard error yields the message [Invalid output format], not
    [No output]. *)
Lemma C6_undecodable_line_message :
  let w := initial_world sample_config in
  let r := @execute cpython_fragment
             (scripted_host (fun _ => Exited (u "hello") []))
             (executor sample_validator) (u "pass") None [] [] w in
  @json_loads cpython_fragment (u "hello") = None /\
  r.2 = Returns (false, VNone, VStr (u "Invalid output format")) /\
  u "Invalid output format" <> u "No output".
Proof. intros w r. repeat split. discriminate. Qed.

(** C6, amended: when the child ends on its own, the failure message is
    the stripped standard error if that is not empty; otherwise it is
    [No output] when the stripped standard output is empty, and
    [Invalid output format] when its last line is not JSON. *)
Theorem C6_decode_failure_message `{R : Runtime} `{H : Host} self code tf
    args kwargs (w w1 : world) (f : nat) (out err : str) :
  _is_safe_code code = true ->
  (acquire;; write_wrapper code tf args kwargs) w = (w1, Returns f) ->
  child w1 f (timeout self) = Exited out err ->
  strip out = [] \/
    json_loads (strip (List.last (splitlines (strip out)) [])) = None ->
  execute self code tf args kwargs w =
  (cleaned (spawned w1 f) f,
   Returns (false, VNone,
            VStr (or_text (strip err)
                    match strip out with
                    | [] => u "No output"
                    | _ => u "Invalid output format"
                    end))).
Proof.
  intros Hs Hpre Hchild Hbad.
  rewrite (execute_ran _ _ _ _ _ _ _ _ Hs Hpre), Hchild.
  unfold verdict, read_result.
  destruct (strip out) as [| c rest] eqn:Hout; [reflexivity |].
  destruct Hbad as [Hbad | Hbad]; [discriminate |].
  by rewrite Hbad.
Qed.

Lemma C6_decode_failure_message_witness :
  @execute cpython_fragment
    (scripted_host (fun _ => Exited (u "Traceback") (u " boom ")))
    (executor sample_validator) (u "pass") None [] []
    (initial_world sample_config) =
  (World 5 ∅
     [EvAcquire; EvCreate 0; EvWrite 0; EvSpawn 0; EvUnlink 0; EvRelease],
   Returns (false, VNone, VStr (u "boom"))).
Proof.
  rewrite (@C6_decode_failure_message cpython_fragment
             (scripted_host (fun _ => Exited (u "Traceback") (u " boom ")))
             (executor sample_validator) (u "pass") None [] []
             (initial_world sample_config)
             ((acquire;; @write_wrapper
                 (scripted_host (fun _ => Exited (u "Traceback") (u " boom ")))
                 (u "pass") None [] []) (initial_world sample_config)).1
             0%nat (u "Traceback") (u " boom "));
    [reflexivity | reflexivity | reflexivity | reflexivity |].
  right. reflexivity.
Defined.

(** ** The validator *)

Section Validator.
Context `{R : Runtime} `{H : Host}.

(** The loop over a list of cases is the loop over its first part, then
    the loop over the rest from where the first stopped. *)
Lemma run_cases_app self code (pre post : list (test_case * pyval)) :
  forall (i passed : nat) (feedback : list str) (w : world),
    run_cases self code (pre ++ post) i passed feedback w =
    match run_cases self code pre i passed feedback w with
    | (w', Returns r) =>
        run_cases self code post (i + length pre) r.1 r.2 w'
    | (w', Raises e) => (w', Raises e)
    | (w', Blocks) => (w', Blocks)
    end.
Proof.
  induction pre as [| [tc exp] pre IH]; intros i passed feedback w.
  - simpl. by rewrite Nat.add_0_r.
  - simpl. unfold_M.
    destruct (execute _ _ _ _ _ w) as [w' [[[ok result] err] | e |]];
      [| reflexivity | reflexivity].
    rewrite <- Nat.add_succ_comm.
    destruct ok; simpl; [destruct (py_eq _ exp) |]; apply IH.
Qed.

(** The pass counter grows by at most one per case. *)
Lemma run_cases_passed self code (cases : list (test_case * pyval)) :
  forall (i passed : nat) (feedback : list str) (w w' : world) r,
    run_cases self code cases i passed feedback w = (w', Returns r) ->
    (r.1 <= passed + length cases)%nat.
Proof.
  induction cases as [| [tc exp] cases IH];
    intros i passed feedback w w' r Hrun; simpl in Hrun.
  - unfold_M. simplify_eq. simpl. lia.
  - revert Hrun. unfold_M.
    destruct (execute _ _ _ _ _ w) as [w1 [[[ok result] err] | e |]];
      [| discriminate | discriminate].
    destruct ok; simpl; [destruct (py_eq _ exp) |];
      intros Hrun; apply IH in Hrun; simpl; lia.
Qed.

(** Against a rejected source every case fails with the rejection
    message, and the world is left alone. *)
Lemma run_cases_rejected self code (cases : list (test_case * pyval)) :
  _is_safe_code code = false ->
  forall (i passed : nat) (feedback : list str) (w : world),
    run_cases self code cases i passed feedback w =
    (w, Returns (passed,
                 feedback ++
                 map (fun j => failed_line j (VStr unsafe_message))
                   (seq i (length cases)))).
Proof.
  intros Hs. induction cases as [| [tc exp] cases IH];
    intros i passed feedback w; simpl.
  - by rewrite app_nil_r.
  - unfold_M. rewrite (execute_rejected _ _ _ _ _ _ Hs). simpl.
    rewrite IH, <- app_assoc. reflexivity.
Qed.

(** A case whose child runs out of time fails with the time-limit
    message, and the loop goes on with the next case. *)
Lemma run_cases_timeout self code tc exp
    (post : list (test_case * pyval)) (i passed : nat)
    (feedback : list str) (w w1 : world) (f : nat) :
  _is_safe_code code = true ->
  (acquire;; write_wrapper code (tc_function tc) (tc_args tc)
     (tc_kwargs tc)) w = (w1, Returns f) ->
  child w1 f (timeout (executor self)) = TimedOut ->
  run_cases self code ((tc, exp) :: post) i passed feedback w =
  run_cases self code post (S i) passed
    (feedback ++
     [failed_line i (VStr (timeout_message (executor self)))])
    (cleaned (spawned w1 f) f).
Proof.
  intros Hs Hpre Hchild. simpl. unfold_M.
  rewrite (execute_ran _ _ _ _ _ _ _ _ Hs Hpre), Hchild. reflexivity.
Qed.
End Validator.

(** C8: with no test cases [validate_solution] returns [True] and the one
    line [No test cases defined], whatever the source, the expected
    outputs, the runtime and the host; the world is as it was, so nothing
    was screened or run. *)
Theorem C8_no_test_cases `{R : Runtime} `{H : Host} self (user_code : str)
    (expected_outputs : list pyval) (w : world) :
  validate_solution self user_code [] expected_outputs w =
  (w, Returns (true, [u "No test cases defined"])).
Proof. reflexivity. Qed.

(** C1, as stated, fails: against the rejected source [import os] and two
    test cases the report holds the summary line and then one rejection
    line for each test case. *)
Lemma C1_one_rejection_line_per_case :
  @_is_safe_code cpython_fragment (u "import os") = false /\
  @validate_solution cpython_fragment (scripted_host (fun _ => TimedOut))
    sample_validator (u "import os") [sample_case; sample_case]
    [VInt 5; VInt 5] (initial_world sample_config) =
  (initial_world sample_config,
   Returns (false,
            [summary_line 0 2;
             @failed_line cpython_fragment 1 (VStr unsafe_message);
             @failed_line cpython_fragment 2 (VStr unsafe_message)])).
Proof. split; reflexivity. Qed.

(** C1, amended: against a source the pre-screen rejects and a non-empty
    list of test cases, [validate_solution] returns [False]; its report
    is the summary line [0/N test cases passed] followed by one line per
    pair of test case and expected output, each carrying the rejection
    message; the world is as it was. *)
Theorem C1_rejected_source_fails_every_case `{R : Runtime} `{H : Host}
    self (user_code : str) (test_cases : list test_case)
    (expected_outputs : list pyval) (w : world) :
  _is_safe_code user_code = false -> test_cases <> [] ->
  validate_solution self user_code test_cases expected_outputs w =
  (w, Returns (false,
       ([9888; 65039] ++ u "  0/" ++ nat_str (length test_cases) ++
        u " test cases passed") ::
       map (fun i => failed_line i (VStr unsafe_message))
         (seq 1 (length (zip test_cases expected_outputs))))).
Proof.
  intros Hs Hne. destruct test_cases as [| tc tcs]; [done |].
  unfold validate_solution. unfold_M.
  rewrite (run_cases_rejected _ _ _ Hs). reflexivity.
Qed.

Lemma C1_rejected_source_fails_every_case_witness :
  @validate_solution cpython_fragment (scripted_host (fun _ => TimedOut))
    sample_validator (u "import os") [sample_case] [VInt 5]
    (initial_world sample_config) =
  (initial_world sample_config,
   Returns (false,
            [[9888; 65039] ++ u "  0/1 test cases passed";
             [10060] ++ u " Test 1: " ++ unsafe_message])).
Proof.
  rewrite (@C1_rejected_source_fails_every_case cpython_fragment
             (scripted_host (fun _ => TimedOut)) sample_validator
             (u "import os") [sample_case] [VInt 5]
             (initial_world sample_config));
    [reflexivity | reflexivity | discriminate].
Defined.

(** A validation in which some case runs out of time does not pass. *)
Lemma timeout_fails_validation `{R : Runtime} `{H : Host} self code
    (test_cases : list test_case) (expected_outputs : list pyval)
    (pre post : list (test_case * pyval)) tc exp (w wm w1 w' : world)
    (pm : nat) (fbm : list str) (f : nat) res :
  _is_safe_code code = true ->
  zip test_cases expected_outputs = pre ++ (tc, exp) :: post ->
  run_cases self code pre 1 0 [] w = (wm, Returns (pm, fbm)) ->
  (acquire;; write_wrapper code (tc_function tc) (tc_args tc)
     (tc_kwargs tc)) wm = (w1, Returns f) ->
  child w1 f (timeout (executor self)) = TimedOut ->
  validate_solution self code test_cases expected_outputs w =
    (w', Returns res) ->
  res.1 = false.
Proof.
  intros Hs Hzip Hpre Hw Hchild Hval.
  assert (Hlen : (length pre + S (length post) <= length test_cases)%nat).
  { rewrite <- (length_cons (tc, exp) post), <- length_app, <- Hzip.
    rewrite length_zip. lia. }
  destruct test_cases as [| tc0 tcs]; [simpl in Hlen; lia |].
  revert Hval. unfold validate_solution. rewrite Hzip. unfold_M.
  rewrite run_cases_app, Hpre. cbn [fst snd].
  rewrite (run_cases_timeout _ _ _ _ _ _ _ _ _ _ _ Hs Hw Hchild).
  destruct (run_cases _ _ post _ _ _ _) as [w2 [[p2 fb2] | e |]] eqn:Hpost;
    [| discriminate | discriminate].
  intros Hval. simplify_eq. simpl.
  apply run_cases_passed in Hpre, Hpost. simpl in *.
  apply Nat.eqb_neq. lia.
Qed.

(** C7: when the child of a test case runs out of time, [execute] returns
    the failure triple whose message names the time limit; the loop
    appends the failure line with that message for the case, leaves the
    pass counter as it was, and goes on with the later cases, from the
    world in which the file is unlinked and the semaphore released. *)
Theorem C7_timeout_fails_case_and_continues `{R : Runtime} `{H : Host}
    self code (pre post : list (test_case * pyval)) tc exp
    (i passed : nat) (feedback : list str) (w wm w1 : world)
    (pm : nat) (fbm : list str) (f : nat) :
  _is_safe_code code = true ->
  run_cases self code pre i passed feedback w = (wm, Returns (pm, fbm)) ->
  (acquire;; write_wrapper code (tc_function tc) (tc_args tc)
     (tc_kwargs tc)) wm = (w1, Returns f) ->
  child w1 f (timeout (executor self)) = TimedOut ->
  execute (executor self) code (tc_function tc) (tc_args tc) (tc_kwargs tc)
    wm =
    (cleaned (spawned w1 f) f,
     Returns (false, VNone,
              VStr (u "Execution timeout (" ++
                    int_repr (timeout (executor self)) ++
                    u "s exceeded)"))) /\
  run_cases self code (pre ++ (tc, exp) :: post) i passed feedback w =
    run_cases self code post (S (i + length pre)) pm
      (fbm ++
       [[10060] ++ u " Test " ++ nat_str (i + length pre) ++ u ": " ++
        u "Execution timeout (" ++ int_repr (timeout (executor self)) ++
        u "s exceeded)"])
      (cleaned (spawned w1 f) f).
Proof.
  intros Hs Hpre Hw Hchild. split.
  - rewrite (execute_ran _ _ _ _ _ _ _ _ Hs Hw), Hchild. reflexivity.
  - rewrite run_cases_app, Hpre. cbn [fst snd].
    apply (run_cases_timeout _ _ _ _ _ _ _ _ _ _ _ Hs Hw Hchild).
Qed.

(** A host whose first child runs out of time and whose second prints the
    record of a call that returned [5]. *)
Lemma C7_timeout_fails_case_and_continues_witness :
  let host := scripted_host (fun n => match n with
                                      | O => TimedOut
                                      | _ => Exited (success_record (u "5")) []
                                      end) in
  @validate_solution cpython_fragment host sample_validator (u "pass")
    [sample_case; sample_case] [VInt 5; VInt 5]
    (initial_world sample_config) =
  (World 5 ∅
     [EvAcquire; EvCreate 0; EvWrite 0; EvSpawn 0; EvUnlink 0; EvRelease;
      EvAcquire; EvCreate 0; EvWrite 0; EvSpawn 0; EvUnlink 0; EvRelease],
   Returns (false,
            [[9888; 65039] ++ u "  1/2 test cases passed";
             [10060] ++ u " Test 1: Execution timeout (5s exceeded)";
             [9989] ++ u " Test 2: Passed"])).
Proof.
  intros host. unfold validate_solution. unfold_M.
  pose proof (@C7_timeout_fails_case_and_continues cpython_fragment host
                sample_validator (u "pass") [] [(sample_case, VInt 5)]
                sample_case (VInt 5) 1 0 [] (initial_world sample_config)
                (initial_world sample_config)
                ((acquire;; @write_wrapper host (u "pass")
                    (Some (u "solution")) [VInt 2; VInt 3] [])
                   (initial_world sample_config)).1
                0%nat [] 0%nat eq_refl eq_refl eq_refl eq_refl) as [_ Hrun].
  simpl app in Hrun. simpl zip. rewrite Hrun. reflexivity.
Defined.

(** ** The literal value codec *)

Lemma read_digits_codes (d : Decimal.uint) (rest : str) :
  head_not_digit rest -> read_digits (uint_codes d ++ rest) = (d, rest).
Proof.
  intros Hrest. induction d; simpl; try by rewrite IHd.
  destruct rest as [| c r]; [reflexivity |]. simpl in *. by rewrite Hrest.
Qed.

Lemma uint_codes_head (d : Decimal.uint) :
  d <> Decimal.Nil ->
  exists c t, uint_codes d = c :: t /\ is_digit c = true.
Proof. destruct d; [done | ..]; intros _; simpl; eauto. Qed.

Lemma pos_to_uint_canonical (p : positive) :
  Decimal.unorm (Pos.to_uint p) = Pos.to_uint p.
Proof.
  rewrite <- (DecimalPos.Unsigned.to_of (Pos.to_uint p)).
  rewrite DecimalPos.Unsigned.of_to. reflexivity.
Qed.

Lemma to_int_canonical (n : Z) (d : Decimal.uint) :
  Z.to_int n = Decimal.Pos d \/ Z.to_int n = Decimal.Neg d ->
  Decimal.unorm d = d /\ d <> Decimal.Nil.
Proof.
  destruct n as [| p | p]; simpl; intros [E | E]; simplify_eq;
    try (split; [reflexivity | discriminate]);
    (split; [apply pos_to_uint_canonical | apply DecimalPos.Unsigned.to_uint_nonnil]).
Qed.

Lemma ends_token_not_digit (rest : str) :
  ends_token rest = true -> head_not_digit rest.
Proof.
  destruct rest as [| c r]; [done |]. simpl. unfold is_word.
  destruct (is_digit c); [| done]. rewrite orb_true_r. discriminate.
Qed.

Lemma read_number_codes (d : Decimal.uint) (rest : str) :
  Decimal.unorm d = d -> d <> Decimal.Nil -> ends_token rest = true ->
  read_number (uint_codes d ++ rest) = Some (d, rest).
Proof.
  intros Hn Hd Hrest. unfold read_number.
  rewrite read_digits_codes by by apply ends_token_not_digit.
  rewrite bool_decide_eq_false_2 by done.
  rewrite (bool_decide_eq_true_2 _ Hn). simpl. by rewrite Hrest.
Qed.

(** The tests on the first code point of a token. *)
Ltac decide_tests :=
  repeat (progress
    (repeat match goal with
            | |- context [?c =? ?k] =>
                destruct (N.eqb_spec c k); [lia || congruence |]
            end; simpl)).

Lemma is_digit_range (c : N) : is_digit c = true -> 48 <= c <= 57.
Proof. unfold is_digit. intros [?%N.leb_le ?%N.leb_le]%andb_prop. lia. Qed.

Lemma skip_blank_digit (c : N) (s : str) :
  is_digit c = true -> skip_blank (c :: s) = c :: s.
Proof. intros Hc%is_digit_range. simpl. by decide_tests. Qed.

Lemma read_value_int (fuel : nat) (n : Z) (rest : str) :
  ends_token rest = true ->
  read_value (S fuel) (int_repr n ++ rest) = Some (VInt n, rest).
Proof.
  intros Hrest. unfold int_repr.
  pose proof (DecimalZ.of_to n) as Hn.
  pose proof (to_int_canonical n) as Hc.
  destruct (Z.to_int n) as [d | d];
    destruct (Hc d) as [Hnorm Hnil]; auto;
    destruct (uint_codes_head d Hnil) as (c & t & Hd & Hdig);
    pose proof (is_digit_range c Hdig) as Hr.
  - pose proof (read_number_codes d rest Hnorm Hnil Hrest) as Hnum.
    rewrite Hd in *. simpl app in *. simpl read_value.
    decide_tests. rewrite Hdig, Hnum. simpl. by rewrite <- Hn.
  - pose proof (read_number_codes d rest Hnorm Hnil Hrest) as Hnum.
    rewrite Hd in *. simpl app in *. simpl read_value.
    decide_tests. rewrite Hnum. simpl. by rewrite <- Hn.
Qed.

Ltac decide_bounds :=
  repeat match goal with
         | |- context [?a <=? ?b] => destruct (N.leb_spec a b); try lia
         | |- context [?a <? ?b] => destruct (N.ltb_spec a b); try lia
         end.

Lemma hex_value_digit (d : N) : d < 16 -> hex_value (hex_digit d) = Some d.
Proof.
  intros Hd. unfold hex_digit, hex_value, is_digit.
  destruct (N.ltb_spec d 10); decide_bounds; simpl; f_equal; lia.
Qed.

Lemma read_hex_hex (k : nat) :
  forall (j : nat) (c acc : N) (rest : str),
    c < 16 ^ N.of_nat k ->
    read_hex (k + j) acc (hex k c ++ rest) =
    read_hex j (acc * 16 ^ N.of_nat k + c) rest.
Proof.
  induction k as [| k IH]; intros j c acc rest Hc.
  - simpl in *. f_equal. lia.
  - rewrite Nat2N.inj_succ, N.pow_succ_r' in Hc.
    simpl hex. rewrite <- app_assoc. simpl app.
    replace (S k + j)%nat with (k + S j)%nat by lia.
    rewrite IH by (apply N.Div0.div_lt_upper_bound; lia).
    simpl read_hex. rewrite hex_value_digit by (apply N.mod_lt; lia).
    simpl. f_equal.
    rewrite Nat2N.inj_succ, N.pow_succ_r'.
    pose proof (N.div_mod c 16). lia.
Qed.

Lemma read_hex_exact (k : nat) (c : N) (rest : str) :
  c < 16 ^ N.of_nat k -> read_hex k 0 (hex k c ++ rest) = Some (c, rest).
Proof.
  intros Hc. rewrite <- (Nat.add_0_r k) at 1.
  rewrite read_hex_hex by done. simpl. f_equal.
Qed.

Section Text.
Context `{R : Runtime}.

#[local] Opaque hex read_hex.

Lemma read_text_cons (fuel : nat) (q c : N) (s : str) :
  read_text (S fuel) q (c :: s) =
  if c =? q then Some ([], s)
  else if (c =? 10) || (c =? 13) then None
  else if c =? 92 then
    match s with
    | e :: s' =>
        r ← read_escape e s';
        t ← read_text fuel q r.2;
        Some (r.1 :: t.1, t.2)
    | [] => None
    end
  else t ← read_text fuel q s; Some (c :: t.1, t.2).
Proof. reflexivity. Qed.

Lemma repr_quote_cases (s : list N) : repr_quote s = 39 \/ repr_quote s = 34.
Proof. unfold repr_quote. case_match; auto. Qed.

Lemma repr_char_nonempty (q c : N) : (0 < length (repr_char q c))%nat.
Proof.
  unfold repr_char. repeat case_match; simpl; try lia;
    rewrite ?length_app; simpl; lia.
Qed.

Lemma length_repr_chars (q : N) (s : str) :
  (length s <= length (List.concat (map (repr_char q) s)))%nat.
Proof.
  induction s as [| c s IH]; simpl; [lia |].
  rewrite length_app. pose proof (repr_char_nonempty q c). lia.
Qed.

(** One code point, as [repr] writes it, read back. *)
Lemma read_text_repr_char (q c : N) (fuel : nat) (tail t r : str) :
  q = 39 \/ q = 34 -> c < 1114112 ->
  read_text fuel q tail = Some (t, r) ->
  read_text (S fuel) q (repr_char q c ++ tail) = Some (c :: t, r).
Proof.
  intros Hq Hc Htail. unfold repr_char.
  destruct ((c =? q) || (c =? 92)) eqn:Hesc.
  { apply orb_prop in Hesc as [->%N.eqb_eq | ->%N.eqb_eq];
      destruct Hq as [-> | ->]; simpl; by rewrite Htail. }
  apply orb_false_elim in Hesc as [Hcq%N.eqb_neq Hc92%N.eqb_neq].
  destruct (N.eqb_spec c 9) as [-> | H9].
  { destruct Hq as [-> | ->]; simpl; by rewrite Htail. }
  destruct (N.eqb_spec c 10) as [-> | H10].
  { destruct Hq as [-> | ->]; simpl; by rewrite Htail. }
  destruct (N.eqb_spec c 13) as [-> | H13].
  { destruct Hq as [-> | ->]; simpl; by rewrite Htail. }
  destruct (isprintable c).
  { simpl app. rewrite read_text_cons. decide_tests. by rewrite Htail. }
  destruct (N.ltb_spec c 256).
  { destruct Hq as [-> | ->]; simpl; unfold read_escape; simpl;
      rewrite read_hex_exact by (simpl; lia); simpl; by rewrite Htail. }
  destruct (N.ltb_spec c 65536).
  { destruct Hq as [-> | ->]; simpl; unfold read_escape; simpl;
      rewrite read_hex_exact by (simpl; lia); simpl; by rewrite Htail. }
  destruct Hq as [-> | ->]; simpl; unfold read_escape; simpl;
    rewrite read_hex_exact by (simpl; lia); simpl;
    (destruct (N.ltb_spec c 1114112); [| lia]); simpl; by rewrite Htail.
Qed.

(** The text [repr] writes between quotes, read back up to the closing
    quote. *)
Lemma read_text_repr (q : N) (s : str) :
  q = 39 \/ q = 34 -> Forall (fun c => c < 1114112) s ->
  forall (fuel : nat) (rest : str),
    (length s <= fuel)%nat ->
    read_text (S fuel) q (List.concat (map (repr_char q) s) ++ q :: rest) =
    Some (s, rest).
Proof.
  intros Hq Hs. induction Hs as [| c s Hc Hs IH]; intros fuel rest Hfuel.
  - simpl. by rewrite N.eqb_refl.
  - destruct fuel as [| fuel]; [simpl in Hfuel; lia |].
    simpl List.concat. rewrite <- app_assoc.
    apply read_text_repr_char; [done | done |].
    apply IH. simpl in Hfuel. lia.
Qed.

Lemma read_value_str (fuel : nat) (s rest : str) :
  Forall (fun c => c < 1114112) s ->
  read_value (S fuel) (str_repr s ++ rest) = Some (VStr s, rest).
Proof.
  intros Hs. unfold str_repr.
  pose proof (repr_quote_cases s) as Hq.
  set (q := repr_quote s) in *.
  set (body := List.concat (map (repr_char q) s)).
  assert (Hread : read_text (length (body ++ q :: rest)) q
                    (body ++ q :: rest) = Some (s, rest)).
  { rewrite length_app. simpl length. rewrite Nat.add_succ_r.
    apply read_text_repr; [done | done |].
    pose proof (length_repr_chars q s). unfold body. lia. }
  rewrite <- app_comm_cons, <- app_assoc. simpl app.
  destruct Hq as [Hq | Hq]; rewrite Hq in *; simpl; by rewrite Hread.
Qed.
#[local] Transparent hex read_hex.
End Text.

Lemma read_items_cons (fuel : nat) (s : str) :
  read_items (S fuel) s =
  match skip_blank s with
  | [] => None
  | c :: r =>
      if c =? 93 then Some ([], r)
      else
        v ← read_value fuel (c :: r);
        match skip_blank v.2 with
        | [] => None
        | c' :: r' =>
            if c' =? 44 then
              vs ← read_items fuel r'; Some (v.1 :: vs.1, vs.2)
            else if c' =? 93 then Some ([v.1], r')
            else None
        end
  end.
Proof. reflexivity. Qed.

(** The first code point of a decimal integer is a digit or the minus
    sign. *)
Lemma int_repr_head (n : Z) :
  exists c t, int_repr n = c :: t /\ (is_digit c = true \/ c = 45).
Proof.
  unfold int_repr. pose proof (to_int_canonical n) as Hc.
  destruct (Z.to_int n) as [d | d]; [| by eauto].
  destruct (Hc d) as [_ Hnil]; auto.
  destruct (uint_codes_head d Hnil) as (c & t & -> & Hdig). eauto.
Qed.

Lemma read_items_space (fuel : nat) (s : str) :
  read_items fuel (32 :: s) = read_items fuel s.
Proof. destruct fuel; reflexivity. Qed.

(** The items of a list display of integers, read back up to the closing
    bracket. *)
Lemma read_items_ints (ns : list Z) :
  forall (fuel : nat) (rest : str),
    (length ns <= fuel)%nat ->
    read_items (S fuel) (join (u ", ") (map int_repr ns) ++ 93 :: rest) =
    Some (map VInt ns, rest).
Proof.
  induction ns as [| n ns IH]; intros fuel rest Hfuel.
  - reflexivity.
  - rewrite read_items_cons.
    destruct (int_repr_head n) as (c & t & Hn & Hc).
    assert (Hr : c = 45 \/ 48 <= c <= 57).
    { destruct Hc as [Hc%is_digit_range | ->]; auto. }
    destruct fuel as [| fuel]; [simpl in Hfuel; lia |].
    remember (S fuel) as fuel1 eqn:Hfuel1.
    destruct ns as [| m ns].
    + simpl join. simpl map. rewrite Hn. simpl app.
      assert (Hblank : skip_blank (c :: t ++ 93 :: rest) = c :: t ++ 93 :: rest).
      { simpl. by decide_tests. }
      rewrite Hblank. decide_tests.
      change (c :: t ++ 93 :: rest) with ((c :: t) ++ 93 :: rest).
      rewrite <- Hn, Hfuel1, read_value_int by reflexivity. reflexivity.
    + change (join (u ", ") (map int_repr (n :: m :: ns)))
        with (int_repr n ++ u ", " ++ join (u ", ") (map int_repr (m :: ns))).
      rewrite <- !app_assoc. rewrite Hn. simpl app.
      match goal with |- context [skip_blank (c :: ?s)] =>
        assert (Hblank : skip_blank (c :: s) = c :: s)
          by (simpl; by decide_tests);
        rewrite Hblank; decide_tests;
        change (c :: s) with ((c :: t) ++ 44 :: 32 ::
          join (u ", ") (map int_repr (m :: ns)) ++ 93 :: rest)
      end.
      rewrite <- Hn. rewrite Hfuel1 at 1.
      rewrite read_value_int by reflexivity.
      simpl. rewrite read_items_space, Hfuel1.
      rewrite IH by (simpl in *; lia). reflexivity.
Qed.

Lemma length_int_repr (n : Z) : (0 < length (int_repr n))%nat.
Proof. destruct (int_repr_head n) as (c & t & -> & _). simpl. lia. Qed.

Lemma length_join_ints (ns : list Z) :
  (length ns <= length (join (u ", ") (map int_repr ns)))%nat.
Proof.
  induction ns as [| n [| m ns] IH]; [simpl; lia | |].
  - pose proof (length_int_repr n). simpl in *. lia.
  - change (join (u ", ") (map int_repr (n :: m :: ns)))
      with (int_repr n ++ u ", " ++ join (u ", ") (map int_repr (m :: ns))).
    rewrite !length_app. pose proof (length_int_repr n). simpl in *. lia.
Qed.

Lemma read_value_list (fuel : nat) (s : str) :
  read_value (S fuel) (91 :: s) =
  r ← read_items fuel s; Some (VList r.1, r.2).
Proof. reflexivity. Qed.

Section RoundTrip.
Context `{R : Runtime}.

Lemma literal_eval_int (n : Z) :
  literal_eval_fragment (py_repr (VInt n)) = Some (VInt n).
Proof.
  unfold literal_eval_fragment. simpl py_repr.
  destruct (int_repr_head n) as (c & t & Hn & Hc).
  assert (Hr : c = 45 \/ 48 <= c <= 57).
  { destruct Hc as [Hc%is_digit_range | ->]; auto. }
  assert (Hblank : skip_blank (int_repr n) = int_repr n).
  { rewrite Hn. simpl. by decide_tests. }
  rewrite Hblank. rewrite <- (app_nil_r (int_repr n)) at 2.
  rewrite read_value_int by reflexivity. reflexivity.
Qed.

Lemma literal_eval_str (s : str) :
  Forall (fun c => c < 1114112) s ->
  literal_eval_fragment (py_repr (VStr s)) = Some (VStr s).
Proof.
  intros Hs. unfold literal_eval_fragment. simpl py_repr.
  assert (Hblank : skip_blank (str_repr s) = str_repr s).
  { unfold str_repr. destruct (repr_quote_cases s) as [-> | ->]; reflexivity. }
  rewrite Hblank. rewrite <- (app_nil_r (str_repr s)) at 2.
  rewrite read_value_str by done. reflexivity.
Qed.

Lemma literal_eval_int_list (ns : list Z) :
  literal_eval_fragment (py_repr (VList (map VInt ns))) =
  Some (VList (map VInt ns)).
Proof.
  unfold literal_eval_fragment.
  assert (Hrepr : py_repr (VList (map VInt ns)) =
                  91 :: join (u ", ") (map int_repr ns) ++ [93]).
  { cbn [py_repr]. by rewrite map_map. }
  rewrite Hrepr. set (body := join (u ", ") (map int_repr ns)).
  change (skip_blank (91 :: body ++ [93])) with (91 :: body ++ [93]).
  rewrite read_value_list.
  simpl length. rewrite length_app. simpl length. rewrite Nat.add_1_r.
  subst body. rewrite read_items_ints; [reflexivity |].
  pose proof (length_join_ints ns). lia.
Qed.
End RoundTrip.



(** In the validator, under the fragment runtime: the result text of a
    call that returned an integer, a string or a list of integers decodes
    to that value, which compares equal to itself. *)
Lemma decode_result_repr (v : pyval) :
  (exists n, v = VInt n) \/
  (exists s, v = VStr s /\ Forall (fun c => c < 1114112) s) \/
  (exists ns, v = VList (map VInt ns)) ->
  @decode_result cpython_fragment (VStr (@py_repr cpython_fragment v)) = v.
Proof.
  unfold decode_result. change (@literal_eval cpython_fragment)
    with literal_eval_fragment.
  intros [(n & ->) | [(s & -> & Hs) | (ns & ->)]].
  - by rewrite literal_eval_int.
  - by rewrite literal_eval_str.
  - by rewrite literal_eval_int_list.
Qed.


(** ** More on the runner *)

Section RunnerMore.
Context `{R : Runtime} `{H : Host}.

(** What the block before the [try] leaves behind when it succeeds. *)
Lemma prelude_returns code tf args kwargs (w w1 : world) (f : nat) :
  (acquire;; write_wrapper code tf args kwargs) w = (w1, Returns f) ->
  f = fresh (dom (temp_files w)) /\
  sem_value w = S (sem_value w1) /\
  trace w1 = trace w ++ [EvAcquire; EvCreate f; EvWrite f] /\
  exists text,
    _make_wrapper code tf args kwargs w1 = (w1, Returns text) /\
    temp_files w1 = <[f := text]> (temp_files w).
Proof.
  unfold acquire, write_wrapper, NamedTemporaryFile, write. unfold_M.
  destruct (sem_value w) as [| n] eqn:Hsem; [discriminate |].
  destruct (create_error _); [discriminate |].
  match goal with |- context [_make_wrapper ?c ?t ?a ?k ?w0] =>
    destruct (make_wrapper_pure c t a k w0) as (o & Hmk & Ho); rewrite Hmk
  end.
  destruct o as [text | e |]; [| discriminate | done].
  destruct (write_error _ text); [discriminate |].
  intros Hpre. simplify_eq. cbn [temp_files trace sem_value].
  repeat split.
  - by rewrite <- !app_assoc.
  - exists text. split; [| by rewrite insert_insert_eq].
    match goal with |- _make_wrapper ?c ?t ?a ?k ?w0 = _ =>
      destruct (make_wrapper_pure c t a k w0) as (o & Hmk' & _); rewrite Hmk'
    end.
    f_equal. revert Hmk Hmk'. unfold _make_wrapper, dumps. unfold_M.
    repeat case_match; intros; simplify_eq; done.
Qed.
End RunnerMore.

Section RunnerCases.
Context `{R : Runtime} `{H : Host}.

(** The three ways through [execute] for a source that passed the
    pre-screen, told by how the block before the [try] ends. *)
Lemma execute_cases self code tf args kwargs (w : world) :
  _is_safe_code code = true ->
  match (acquire;; write_wrapper code tf args kwargs) w with
  | (w1, Returns f) =>
      execute self code tf args kwargs w =
      (cleaned (spawned w1 f) f,
       Returns (verdict self (child w1 f (timeout self))))
  | (w1, Raises e) =>
      execute self code tf args kwargs w = ((release w1).1, Raises e)
  | (w1, Blocks) =>
      execute self code tf args kwargs w = (w, Blocks) /\ sem_value w = O
  end.
Proof.
  intros Hs.
  destruct ((acquire;; write_wrapper code tf args kwargs) w)
    as [w1 [f | e |]] eqn:Hpre.
  - by apply execute_ran.
  - by apply execute_wrapper_raises.
  - pose proof (execute_semaphore self code tf args kwargs w) as [_ Hb].
    revert Hpre. unfold execute, with_semaphore. rewrite Hs. simpl.
    unfold_M. unfold acquire.
    destruct (sem_value w) as [| n] eqn:Hsem; [intros; by simplify_eq |].
    intros Hpre.
    destruct (quiet_write_wrapper code tf args kwargs
                (World n (temp_files w) (trace w ++ [EvAcquire]))) as [_ Hq].
    rewrite Hpre in Hq. done.
Qed.

Lemma spawn_count_app (w : world) (evs : list event) (s : nat) tf :
  spawn_count (World s tf (trace w ++ evs)) =
  (spawn_count w + length (List.filter is_spawn evs))%nat.
Proof. unfold spawn_count. simpl. by rewrite List.filter_app, length_app. Qed.

Lemma cleaned_spec (w : world) (f : nat) :
  sem_value (cleaned w f) = S (sem_value w) /\
  trace (cleaned w f) = trace w ++ [EvUnlink f; EvRelease] /\
  temp_files (cleaned w f) =
    if unlink_error w f then temp_files w else delete f (temp_files w).
Proof.
  unfold cleaned, release, unlink_quietly. simpl.
  by rewrite <- app_assoc.
Qed.
End RunnerCases.

Section RunnerExtras.
Context `{R : Runtime} `{H : Host}.

(** What the block before the [try] leaves behind when it raises: the
    file may have been created, nothing more. *)
Lemma prelude_raises code tf args kwargs (w w1 : world) (e : exn) :
  (acquire;; write_wrapper code tf args kwargs) w = (w1, Raises e) ->
  sem_value w = S (sem_value w1) /\
  (trace w1 = trace w ++ [EvAcquire] /\ temp_files w1 = temp_files w \/
   trace w1 = trace w ++ [EvAcquire; EvCreate (fresh (dom (temp_files w)))] /\
   temp_files w1 = <[fresh (dom (temp_files w)) := []]> (temp_files w)).
Proof.
  unfold acquire, write_wrapper, NamedTemporaryFile, write. unfold_M.
  destruct (sem_value w) as [| n] eqn:Hsem; [discriminate |].
  destruct (create_error _).
  { intros Hpre. simplify_eq. simpl. auto. }
  match goal with |- context [_make_wrapper ?c ?t ?a ?k ?w0] =>
    destruct (make_wrapper_pure c t a k w0) as (o & Hmk & Ho); rewrite Hmk
  end.
  destruct o as [text | e' |]; [| | done].
  - destruct (write_error _ text); [| discriminate].
    intros Hpre. simplify_eq. simpl. rewrite <- app_assoc. auto.
  - intros Hpre. simplify_eq. simpl. rewrite <- app_assoc. auto.
Qed.
End RunnerExtras.

(** X1: on every way out of [execute] - return or exception - the
    semaphore holds what it held before the call; the call waits for ever
    exactly when the source passes the pre-screen and the semaphore is
    empty, and then nothing has been touched. *)
Theorem X1_execute_restores_semaphore `{R : Runtime} `{H : Host} self code
    tf args kwargs (w : world) :
  sem_value (execute self code tf args kwargs w).1 = sem_value w /\
  ((execute self code tf args kwargs w).2 = Blocks <->
   _is_safe_code code = true /\ sem_value w = O) /\
  ((execute self code tf args kwargs w).2 = Blocks ->
   (execute self code tf args kwargs w).1 = w).
Proof.
  pose proof (execute_semaphore self code tf args kwargs w) as [Hs Hb].
  split; [exact Hs |]. split; [| intros Hbl; by apply Hb].
  split.
  - intros Hbl. split; [| by apply Hb].
    destruct (_is_safe_code code) eqn:Hsafe; [done |].
    by rewrite (execute_rejected _ _ _ _ _ _ Hsafe) in Hbl.
  - intros [Hsafe Hz]. unfold execute, with_semaphore, acquire.
    rewrite Hsafe. unfold_M. simpl. by rewrite Hz.
Qed.

(** X2: when the wrapper has been written and the file can be unlinked,
    the temporary files on disk after [execute] are exactly those before
    it, however the child ended. *)
Theorem X2_execute_removes_temp_file `{R : Runtime} `{H : Host} self code
    tf args kwargs (w w1 : world) (f : nat) :
  _is_safe_code code = true ->
  (acquire;; write_wrapper code tf args kwargs) w = (w1, Returns f) ->
  unlink_error (spawned w1 f) f = false ->
  temp_files (execute self code tf args kwargs w).1 = temp_files w.
Proof. apply execute_cleans. Qed.

Lemma X2_execute_removes_temp_file_witness :
  temp_files
    (@execute cpython_fragment (scripted_host (fun _ => TimedOut))
       (executor sample_validator) (u "pass") None [] []
       (World 2 {[ 0%nat := u "old" ]} [])).1 =
  temp_files (World 2 {[ 0%nat := u "old" ]} []).
Proof.
  apply (@X2_execute_removes_temp_file cpython_fragment
           (scripted_host (fun _ => TimedOut)) (executor sample_validator)
           (u "pass") None [] [] (World 2 {[ 0%nat := u "old" ]} [])
           ((acquire;; @write_wrapper (scripted_host (fun _ => TimedOut))
               (u "pass") None [] []) (World 2 {[ 0%nat := u "old" ]} [])).1
           1%nat); reflexivity.
Defined.

(** X3: a call of [execute] that returns on a source that passed the
    pre-screen has added to the trace exactly one bracket of events
    - acquire, create, write, spawn, unlink, release - on a file name
    that was not in use: one child per call, and none left running. *)
Theorem X3_execute_one_child_per_call `{R : Runtime} `{H : Host} self code
    tf args kwargs (w w' : world) r :
  _is_safe_code code = true ->
  execute self code tf args kwargs w = (w', Returns r) ->
  (fresh (dom (temp_files w)) ∉ dom (temp_files w)) /\
  trace w' = trace w ++ run_events (fresh (dom (temp_files w))) /\
  spawn_count w' = S (spawn_count w) /\
  sem_value w' = sem_value w.
Proof.
  intros Hs Hex. split; [apply is_fresh |].
  pose proof (execute_cases self code tf args kwargs w Hs) as Hc.
  destruct ((acquire;; write_wrapper code tf args kwargs) w)
    as [w1 [f | e |]] eqn:Hpre.
  - rewrite Hc in Hex. simplify_eq.
    apply prelude_returns in Hpre as (-> & Hsem & Htr & _).
    destruct (cleaned_spec (spawned w1 (fresh (dom (temp_files w))))
                (fresh (dom (temp_files w)))) as (Hs' & Ht' & _).
    assert (Htrace : trace (cleaned (spawned w1 (fresh (dom (temp_files w))))
                      (fresh (dom (temp_files w)))) =
                     trace w ++ run_events (fresh (dom (temp_files w)))).
    { rewrite Ht'. simpl. rewrite Htr, <- !app_assoc. reflexivity. }
    split; [exact Htrace |]. split; [| simpl in *; lia].
    unfold spawn_count. rewrite Htrace, List.filter_app, length_app.
    simpl. lia.
  - rewrite Hc in Hex. discriminate.
  - destruct Hc as [Hc _]. rewrite Hc in Hex. discriminate.
Qed.

Lemma X3_execute_one_child_per_call_witness :
  trace
    (@execute cpython_fragment (scripted_host (fun _ => TimedOut))
       (executor sample_validator) (u "pass") None [] []
       (World 2 {[ 0%nat := u "old" ]} [])).1 =
  run_events 1.
Proof.
  destruct (@X3_execute_one_child_per_call cpython_fragment
              (scripted_host (fun _ => TimedOut)) (executor sample_validator)
              (u "pass") None [] [] (World 2 {[ 0%nat := u "old" ]} [])
              _ _ eq_refl eq_refl) as (_ & Htr & _).
  exact Htr.
Defined.



(** X5: [execute] reports success only for a child that ended on its own
    and whose last output line decodes to an object with a true
    [success]; the result is that object's [result] (or [None]) and the
    error text is empty.  A timeout, a failure to spawn, empty output or
    an undecodable line never count as success. *)
Theorem X5_execute_success_is_sound `{R : Runtime} `{H : Host} self code tf
    args kwargs (w w' : world) (result err : pyval) :
  execute self code tf args kwargs w = (w', Returns (true, result, err)) ->
  _is_safe_code code = true /\
  exists w1 f out errtext payload,
    (acquire;; write_wrapper code tf args kwargs) w = (w1, Returns f) /\
    child w1 f (timeout self) = Exited out errtext /\
    strip out <> [] /\
    json_loads (strip (List.last (splitlines (strip out)) [])) =
      Some (VDict payload) /\
    truthy (default VNone (dict_get (u "success") payload)) = true /\
    result = default VNone (dict_get (u "result") payload) /\
    err = VStr [].
Proof.
  intros Hex.
  destruct (_is_safe_code code) eqn:Hs;
    [| by rewrite (execute_rejected _ _ _ _ _ _ Hs) in Hex].
  split; [reflexivity |].
  pose proof (execute_cases self code tf args kwargs w Hs) as Hc.
  destruct ((acquire;; write_wrapper code tf args kwargs) w)
    as [w1 [f | e' |]] eqn:Hpre.
  - rewrite Hc in Hex. injection Hex as _ Hv.
    exists w1, f. revert Hv. unfold verdict.
    destruct (child w1 f (timeout self)) as [out errtext | | e];
      [| discriminate | destruct e; discriminate].
    unfold read_result.
    destruct (strip out) as [| c rest] eqn:Hout; [discriminate |].
    destruct (json_loads _) as [[| | | | | | | payload] |] eqn:Hjson;
      try discriminate.
    destruct (truthy _) eqn:Ht; [| discriminate].
    intros Hv. simplify_eq.
    exists out, errtext, payload. rewrite Hout. repeat split; done.
  - rewrite Hc in Hex. discriminate.
  - destruct Hc as [Hc _]. rewrite Hc in Hex. discriminate.
Qed.

Lemma X5_execute_success_is_sound_witness :
  @_is_safe_code cpython_fragment (u "pass") = true.
Proof.
  destruct (@X5_execute_success_is_sound cpython_fragment
              (scripted_host (fun _ => Exited (success_record (u "5")) []))
              (executor sample_validator) (u "pass") None [] []
              (initial_world sample_config) _ (VStr (u "5")) (VStr [])
              eq_refl) as [Hs _].
  exact Hs.
Defined.

(** ** More on the validator *)

Section ValidatorMore.
Context `{R : Runtime} `{H : Host}.

(** The loop gives the semaphore back as it found it, however it ends. *)
Lemma run_cases_semaphore self code (cases : list (test_case * pyval)) :
  forall (i passed : nat) (feedback : list str) (w : world),
    sem_value (run_cases self code cases i passed feedback w).1 =
    sem_value w.
Proof.
  induction cases as [| [tc exp] cases IH]; intros i passed feedback w;
    [reflexivity |].
  simpl. unfold_M.
  pose proof (execute_semaphore (executor self) code (tc_function tc)
                (tc_args tc) (tc_kwargs tc) w) as [Hs _].
  destruct (execute _ _ _ _ _ w) as [w1 [[[ok result] err] | e |]];
    simpl in *; [| done | done].
  destruct ok; simpl; [destruct (py_eq _ exp) |]; by rewrite IH.
Qed.

(** What the loop adds: one line per case, at most one pass per case,
    and a pass for every case only with every line a pass line. *)
Lemma run_cases_report self code (cases : list (test_case * pyval)) :
  forall (i passed : nat) (feedback : list str) (w w' : world) r,
    run_cases self code cases i passed feedback w = (w', Returns r) ->
    length r.2 = (length feedback + length cases)%nat /\
    (passed <= r.1 <= passed + length cases)%nat /\
    (r.1 = (passed + length cases)%nat ->
     r.2 = feedback ++ map passed_line (seq i (length cases))).
Proof.
  induction cases as [| [tc exp] cases IH];
    intros i passed feedback w w' r Hrun; simpl in Hrun.
  - unfold_M. simplify_eq. simpl. rewrite app_nil_r. auto with lia.
  - revert Hrun. unfold_M.
    destruct (execute _ _ _ _ _ w) as [w1 [[[ok result] err] | e |]];
      [| discriminate | discriminate].
    destruct ok; simpl; [destruct (py_eq _ exp) |];
      intros Hrun; apply IH in Hrun as (Hlen & Hp & Hall);
      rewrite length_app in Hlen; simpl in Hlen;
      (split; [lia |]); (split; [lia |]); intros Heq;
      try (exfalso; lia).
    rewrite Hall by lia. by rewrite <- app_assoc.
Qed.

Lemma zip_surplus {A B} (l : list A) (k extra : list B) :
  (length l <= length k)%nat -> zip l (k ++ extra) = zip l k.
Proof.
  revert k. induction l as [| a l IH]; intros [| b k] Hlen; simpl in *;
    try reflexivity; try lia.
  f_equal. apply IH. lia.
Qed.
End ValidatorMore.

(** X6: [validate_solution] gives the semaphore back as it found it,
    whether it returns a report, is left by an exception, or found the
    semaphore empty. *)
Theorem X6_validate_restores_semaphore `{R : Runtime} `{H : Host} self
    (user_code : str) (test_cases : list test_case)
    (expected_outputs : list pyval) (w : world) :
  sem_value
    (validate_solution self user_code test_cases expected_outputs w).1 =
  sem_value w.
Proof.
  unfold validate_solution. destruct test_cases as [| tc tcs]; [done |].
  unfold_M.
  pose proof (run_cases_semaphore self user_code
                (zip (tc :: tcs) expected_outputs) 1 0 [] w) as Hs.
  destruct (run_cases _ _ _ _ _ _ _) as [w1 [[p fb] | e |]]; exact Hs.
Qed.

(** X7: a report on a non-empty list of test cases has the summary line
    and then one line for each pair of test case and expected output:
    as many as the shorter of the two lists is long. *)
Theorem X7_report_length `{R : Runtime} `{H : Host} self (user_code : str)
    (test_cases : list test_case) (expected_outputs : list pyval)
    (w w' : world) (all_passed : bool) (feedback : list str) :
  test_cases <> [] ->
  validate_solution self user_code test_cases expected_outputs w =
    (w', Returns (all_passed, feedback)) ->
  length feedback =
  S (Nat.min (length test_cases) (length expected_outputs)).
Proof.
  intros Hne. unfold validate_solution.
  destruct test_cases as [| tc tcs]; [done |]. unfold_M.
  destruct (run_cases _ _ _ _ _ _ _) as [w1 [[p fb] | e |]] eqn:Hrun;
    [| discriminate | discriminate].
  intros Hval. simplify_eq.
  apply run_cases_report in Hrun as (Hlen & _).
  rewrite length_zip in Hlen. simpl in *. by rewrite Hlen.
Qed.

Lemma X7_report_length_witness :
  length (validation_feedback
            (@validate_solution cpython_fragment
               (scripted_host (fun _ => TimedOut)) sample_validator
               (u "pass") [sample_case; sample_case] [VInt 5]
               (initial_world sample_config))) = 2%nat.
Proof.
  destruct (@validate_solution cpython_fragment
              (scripted_host (fun _ => TimedOut)) sample_validator
              (u "pass") [sample_case; sample_case] [VInt 5]
              (initial_world sample_config))
    as [w' [[b fb] | e |]] eqn:Hval;
    [| vm_compute in Hval; discriminate | vm_compute in Hval; discriminate].
  apply (@X7_report_length cpython_fragment
           (scripted_host (fun _ => TimedOut)) sample_validator (u "pass")
           [sample_case; sample_case] [VInt 5]
           (initial_world sample_config) w' b fb); [discriminate | exact Hval].
Defined.

(** X8: [validate_solution] answers [True] only in two ways: there are
    no test cases at all, or every test case has an expected output and
    the report is the [All N test cases passed!] line followed by a
    [Passed] line for each of the [N] test cases.  With fewer expected
    outputs than test cases the answer is never [True]. *)
Theorem X8_all_passed_means_every_case `{R : Runtime} `{H : Host} self
    (user_code : str) (test_cases : list test_case)
    (expected_outputs : list pyval) (w w' : world) (feedback : list str)
    (Hval : validate_solution self user_code test_cases expected_outputs w =
            (w', Returns (true, feedback))) :
  test_cases = [] /\ feedback = [u "No test cases defined"] \/
  (length test_cases <= length expected_outputs)%nat /\
  feedback =
    all_passed_line (length test_cases) ::
    map passed_line (seq 1 (length test_cases)).
Proof.
  revert Hval. unfold validate_solution.
  destruct test_cases as [| tc tcs].
  { unfold_M. intros Hval. simplify_eq. by left. }
  right. revert Hval. unfold_M.
  destruct (run_cases _ _ _ _ _ _ _) as [w1 [[p fb] | e |]] eqn:Hrun;
    [| discriminate | discriminate].
  intros Hval. injection Hval as _ Hp Hfb. apply Nat.eqb_eq in Hp. subst p.
  apply run_cases_report in Hrun as (_ & Hbound & Hall).
  rewrite length_zip in Hbound, Hall. cbn [fst snd] in *.
  cbn [length] in *. remember (S (length tcs)) as n eqn:Hn.
  assert (Hmin : Nat.min n (length expected_outputs) = n) by lia.
  split; [lia |]. rewrite Hmin in Hall.
  rewrite <- Hfb, Hall by reflexivity.
  unfold summary_line. by rewrite Nat.eqb_refl.
Qed.

Lemma X8_all_passed_means_every_case_witness :
  validation_feedback
    (@validate_solution cpython_fragment
       (scripted_host (fun _ => Exited (success_record (u "5")) []))
       sample_validator (u "pass") [sample_case] [VInt 5]
       (initial_world sample_config)) =
  [all_passed_line 1; passed_line 1].
Proof.
  destruct (@validate_solution cpython_fragment
              (scripted_host (fun _ => Exited (success_record (u "5")) []))
              sample_validator (u "pass") [sample_case] [VInt 5]
              (initial_world sample_config))
    as [w' [[[] fb] | e |]] eqn:Hval;
    [| vm_compute in Hval; discriminate ..].
  destruct (@X8_all_passed_means_every_case cpython_fragment
              (scripted_host (fun _ => Exited (success_record (u "5")) []))
              sample_validator (u "pass") [sample_case] [VInt 5]
              (initial_world sample_config) w' fb Hval)
    as [[Hnil _] | [_ Hfb]]; [discriminate | exact Hfb].
Defined.

(** X9: an exception that leaves [execute] on some test case leaves
    [validate_solution] too: there is no report, and the later test
    cases are not run. *)
Theorem X9_exception_ends_validation `{R : Runtime} `{H : Host} self
    (user_code : str) (test_cases : list test_case)
    (expected_outputs : list pyval) (pre post : list (test_case * pyval))
    tc exp (w wm we : world) r (e : exn) :
  zip test_cases expected_outputs = pre ++ (tc, exp) :: post ->
  run_cases self user_code pre 1 0 [] w = (wm, Returns r) ->
  execute (executor self) user_code (tc_function tc) (tc_args tc)
    (tc_kwargs tc) wm = (we, Raises e) ->
  validate_solution self user_code test_cases expected_outputs w =
  (we, Raises e).
Proof.
  intros Hzip Hpre Hex. unfold validate_solution.
  destruct test_cases as [| tc0 tcs]; [by destruct pre |].
  rewrite Hzip. unfold_M. rewrite run_cases_app, Hpre.
  simpl. unfold_M. by rewrite Hex.
Qed.

Lemma X9_exception_ends_validation_witness :
  (@validate_solution cpython_fragment
     (scripted_host (fun _ => Exited (success_record (u "5")) []))
     sample_validator (u "pass")
     [sample_case; TestCase (Some (u "solution")) [VBytes [1]] [];
      sample_case]
     [VInt 5; VInt 5; VInt 5] (initial_world sample_config)).2 =
  Raises not_serializable.
Proof.
  set (host := scripted_host (fun _ => Exited (success_record (u "5")) [])).
  set (bad := TestCase (Some (u "solution")) [VBytes [1]] []).
  set (wm := (@run_cases cpython_fragment host sample_validator (u "pass")
                [(sample_case, VInt 5)] 1 0 []
                (initial_world sample_config)).1).
  set (we := (@execute cpython_fragment host (executor sample_validator)
                (u "pass") (tc_function bad) (tc_args bad) (tc_kwargs bad)
                wm).1).
  rewrite (@X9_exception_ends_validation cpython_fragment host
             sample_validator (u "pass") [sample_case; bad; sample_case]
             [VInt 5; VInt 5; VInt 5] [(sample_case, VInt 5)]
             [(sample_case, VInt 5)] bad (VInt 5)
             (initial_world sample_config) wm we
             (1%nat, [passed_line 1]) not_serializable);
    [reflexivity | reflexivity | vm_compute; reflexivity
    | vm_compute; reflexivity].
Defined.

(** X10: a validation in which the child of some test case runs out of
    time never answers [True]. *)
Theorem X10_timeout_never_passes `{R : Runtime} `{H : Host} self code
    (test_cases : list test_case) (expected_outputs : list pyval)
    (pre post : list (test_case * pyval)) tc exp (w wm w1 w' : world)
    (pm : nat) (fbm : list str) (f : nat) res :
  _is_safe_code code = true ->
  zip test_cases expected_outputs = pre ++ (tc, exp) :: post ->
  run_cases self code pre 1 0 [] w = (wm, Returns (pm, fbm)) ->
  (acquire;; write_wrapper code (tc_function tc) (tc_args tc)
     (tc_kwargs tc)) wm = (w1, Returns f) ->
  child w1 f (timeout (executor self)) = TimedOut ->
  validate_solution self code test_cases expected_outputs w =
    (w', Returns res) ->
  res.1 = false.
Proof. apply timeout_fails_validation. Qed.

Lemma X10_timeout_never_passes_witness :
  match (@validate_solution cpython_fragment
           (scripted_host (fun n => match n with
                                    | O => TimedOut
                                    | _ => Exited (success_record (u "5")) []
                                    end))
           sample_validator (u "pass") [sample_case; sample_case]
           [VInt 5; VInt 5] (initial_world sample_config)).2 with
  | Returns res => res.1 = false
  | _ => False
  end.
Proof.
  set (host := scripted_host (fun n => match n with
                                       | O => TimedOut
                                       | _ => Exited (success_record (u "5")) []
                                       end)).
  destruct (@validate_solution cpython_fragment host sample_validator
              (u "pass") [sample_case; sample_case] [VInt 5; VInt 5]
              (initial_world sample_config))
    as [w' [res | e |]] eqn:Hval;
    [| vm_compute in Hval; discriminate ..].
  apply (@X10_timeout_never_passes cpython_fragment host sample_validator
           (u "pass") [sample_case; sample_case] [VInt 5; VInt 5] []
           [(sample_case, VInt 5)] sample_case (VInt 5)
           (initial_world sample_config) (initial_world sample_config)
           ((acquire;; @write_wrapper host (u "pass") (Some (u "solution"))
               [VInt 2; VInt 3] []) (initial_world sample_config)).1
           w' 0%nat [] 0%nat res);
    [reflexivity | reflexivity | reflexivity | reflexivity | reflexivity
    | exact Hval].
Defined.

(** X11: expected outputs beyond the last test case are never looked
    at: a validation with surplus expected outputs is the validation
    without them. *)
Theorem X11_surplus_expected_ignored `{R : Runtime} `{H : Host} self
    (user_code : str) (test_cases : list test_case)
    (expected_outputs extra : list pyval) (w : world) :
  (length test_cases <= length expected_outputs)%nat ->
  validate_solution self user_code test_cases (expected_outputs ++ extra) w =
  validate_solution self user_code test_cases expected_outputs w.
Proof.
  intros Hlen. unfold validate_solution. by rewrite zip_surplus.
Qed.

Lemma X11_surplus_expected_ignored_witness :
  @validate_solution cpython_fragment (scripted_host (fun _ => TimedOut))
    sample_validator (u "pass") [sample_case] ([VInt 5] ++ [VInt 7; VNone])
    (initial_world sample_config) =
  @validate_solution cpython_fragment (scripted_host (fun _ => TimedOut))
    sample_validator (u "pass") [sample_case] [VInt 5]
    (initial_world sample_config).
Proof.
  apply (@X11_surplus_expected_ignored cpython_fragment
           (scripted_host (fun _ => TimedOut))). simpl. lia.
Defined.

(** ** More on screening *)

(** The queue yields nothing but nodes below one of its trees. *)
Lemma walk_queue_sound (fuel : nat) :
  forall todo n,
    n ∈ walk_queue fuel todo -> exists t, t ∈ todo /\ subnode n t.
Proof.
  induction fuel as [| fuel IH]; intros todo n Hin.
  - destruct todo; inversion Hin.
  - destruct todo as [| x todo']; [inversion Hin |]. simpl in Hin.
    apply elem_of_cons in Hin as [-> | Hin].
    + exists x. split; [left | constructor].
    + apply IH in Hin as (t & Ht & Hsub).
      apply elem_of_app in Ht as [Ht | Ht].
      * exists t. split; [by right | exact Hsub].
      * exists x. split; [left |].
        destruct x as [| | fields]; simpl in Ht; try by inversion Ht.
        by apply (subnode_field n fields t).
Qed.

Lemma walk_sound (tree n : node) : n ∈ walk tree -> subnode n tree.
Proof.
  intros Hin. apply walk_queue_sound in Hin as (t & Ht & Hsub).
  apply list_elem_of_singleton in Ht. by subst.
Qed.

(** A source that parses and passes the pre-screen holds no denied
    import and no denied token. *)
Lemma safe_code_clean `{R : Runtime} (code : str) (tree : node) :
  ast_parse code = Some tree -> _is_safe_code code = true ->
  (forall n x, subnode n tree -> x ∈ import_check n ->
               x ∉ blocked_imports) /\
  (forall tok, tok ∈ blocked_calls -> contains tok (lower code) = false).
Proof.
  unfold _is_safe_code. intros -> Hsafe.
  destruct (existsb import_denied (walk tree)) eqn:Himp; [discriminate |].
  destruct (has_blocked_call code) eqn:Htok; [discriminate |].
  split.
  - intros n x Hsub Hx Hdeny.
    assert (existsb import_denied (walk tree) = true); [| congruence].
    apply existsb_exists. exists n.
    split; [apply list_elem_of_In, walk_complete, Hsub |].
    apply import_denied_spec. eauto.
  - intros tok Htk. destruct (contains tok (lower code)) eqn:Hc; [| done].
    assert (has_blocked_call code = true); [| congruence].
    apply has_blocked_call_spec. eauto.
Qed.


(** X13: a source that parses and has, at any depth, an import statement
    naming a module or imported name whose first dotted component is on
    the deny-list is rejected by [execute] with nothing touched: no
    semaphore unit taken, no temporary file, no child. *)
Theorem X13_denied_import_costs_nothing `{R : Runtime} `{H : Host} self code
    tf args kwargs (tree n : node) (x : str) (w : world) :
  ast_parse code = Some tree -> subnode n tree ->
  x ∈ import_check n -> x ∈ blocked_imports ->
  execute self code tf args kwargs w =
  (w, Returns (false, VNone, VStr unsafe_message)).
Proof.
  intros Hparse Hsub Hx Hdeny.
  by apply (denied_import_no_effects self code tf args kwargs tree n x w).
Qed.

Lemma X13_denied_import_costs_nothing_witness :
  @execute cpython_fragment (scripted_host (fun _ => TimedOut))
    (executor sample_validator) (u "pass
from os.path import join") None [] [] (initial_world sample_config) =
  (initial_world sample_config,
   Returns (false, VNone, VStr unsafe_message)).
Proof.
  apply (@X13_denied_import_costs_nothing cpython_fragment
           (scripted_host (fun _ => TimedOut)) (executor sample_validator)
           _ None [] []
           (Node [Node [];
                  ImportFrom (Some (u "os.path")) [Alias (u "join")] 0])
           (ImportFrom (Some (u "os.path")) [Alias (u "join")] 0) (u "os")).
  - reflexivity.
  - apply (subnode_field _ _ (ImportFrom (Some (u "os.path"))
                                [Alias (u "join")] 0));
      [right; left | constructor].
  - right. left.
  - left.
Defined.


(** ** The result record: from [json.dumps] in the child to [json.loads]
    in [execute] *)

Lemma hex_digit_plain (d : N) : d < 16 -> plain (hex_digit d).
Proof.
  intros Hd. unfold hex_digit, plain.
  destruct (N.ltb_spec d 10); lia.
Qed.

Lemma hex_plain (k : nat) : forall c, Forall plain (hex k c).
Proof.
  induction k as [| k IH]; intros c; simpl; [constructor |].
  apply Forall_app. split; [apply IH |].
  constructor; [| constructor].
  apply hex_digit_plain, N.mod_lt. lia.
Qed.

Lemma surrogate_high (n : N) :
  N.lor 55296 (N.land (N.shiftr n 10) 1023) = 55296 + (n / 1024) mod 1024.
Proof.
  rewrite N.shiftr_div_pow2.
  change 1023 with (N.ones 10). rewrite N.land_ones.
  change (2 ^ 10) with 1024.
  rewrite <- N.lxor_lor, <- N.add_nocarry_lxor; try reflexivity.
  all: rewrite <- (N.land_ones _ 10), N.land_assoc, (N.land_comm 55296);
    rewrite <- N.land_assoc; change (N.land (N.ones 10) 55296) with 0;
    apply N.land_0_r.
Qed.

Lemma surrogate_low (n : N) :
  N.lor 56320 (N.land n 1023) = 56320 + n mod 1024.
Proof.
  change 1023 with (N.ones 10). rewrite N.land_ones.
  change (2 ^ 10) with 1024.
  rewrite <- N.lxor_lor, <- N.add_nocarry_lxor; try reflexivity.
  all: rewrite <- (N.land_ones _ 10), (N.land_comm 56320);
    rewrite <- N.land_assoc; change (N.land (N.ones 10) 56320) with 0;
    apply N.land_0_r.
Qed.

Lemma json_char_plain (c : N) : Forall plain (json_char c).
Proof.
  assert (forall l, Forall (fun c => (32 <=? c) && (c <=? 126) = true) l ->
                    Forall plain l) as Hdec.
  { intros l Hl. eapply Forall_impl; [exact Hl |]. intros x Hx.
    apply andb_true_iff in Hx as [?%N.leb_le ?%N.leb_le]. by split. }
  unfold json_char.
  repeat (case_match; [apply Hdec; by repeat constructor |]).
  case_match.
  - apply Forall_app. split; [apply Hdec; by repeat constructor |].
    apply hex_plain.
  - apply Forall_app. split; [apply Hdec; by repeat constructor |].
    apply Forall_app. split; [apply hex_plain |].
    apply Forall_app. split; [apply Hdec; by repeat constructor |].
    apply hex_plain.
Qed.

Lemma json_char_nonempty (c : N) : (0 < length (json_char c))%nat.
Proof.
  unfold json_char. repeat case_match; simpl; try lia;
    rewrite ?length_app; simpl; lia.
Qed.

Section Wire.

#[local] Opaque hex read_hex.

(** [json.loads] reads back what [json.dumps] wrote for one code
    point. *)
Lemma json_text_char (c : N) (fuel : nat) (tail : str) :
  json_safe c ->
  json_text (S fuel) (json_char c ++ tail) =
  t ← json_text fuel tail; Some (c :: t.1, t.2).
Proof.
  intros [Hc Hs]. unfold json_char.
  destruct (N.eqb_spec c 34) as [-> | H34]; [reflexivity |].
  destruct (N.eqb_spec c 92) as [-> | H92]; [reflexivity |].
  destruct (N.eqb_spec c 10) as [-> | H10]; [reflexivity |].
  destruct (N.eqb_spec c 13) as [-> | H13]; [reflexivity |].
  destruct (N.eqb_spec c 9) as [-> | H9]; [reflexivity |].
  destruct (N.eqb_spec c 12) as [-> | H12]; [reflexivity |].
  destruct (N.eqb_spec c 8) as [-> | H8]; [reflexivity |].
  destruct ((32 <=? c) && (c <=? 126)) eqn:Hp.
  { apply andb_true_iff in Hp as [?%N.leb_le ?%N.leb_le]. simpl.
    destruct (N.eqb_spec c 34); [done |].
    destruct (N.ltb_spec c 32); [lia |].
    destruct (N.eqb_spec c 92); [done |]. reflexivity. }
  change (u "\u") with [92; 117].
  destruct (N.ltb_spec c 65536) as [Hlow | Hhigh].
  - simpl. unfold json_escape. simpl.
    rewrite read_hex_exact by (simpl; lia). simpl.
    destruct ((55296 <=? c) && (c <=? 56319)) eqn:Hsur; [| reflexivity].
    apply andb_true_iff in Hsur as [?%N.leb_le ?%N.leb_le]. lia.
  - rewrite surrogate_high, surrogate_low.
    assert (c - 65536 < 1048576) as Hn by lia.
    remember (c - 65536) as n eqn:En.
    assert ((n / 1024) mod 1024 = n / 1024) as ->.
    { apply N.mod_small, N.Div0.div_lt_upper_bound. lia. }
    assert (n / 1024 < 1024) as Hq
      by (apply N.Div0.div_lt_upper_bound; lia).
    assert (n mod 1024 < 1024) as Hr by (apply N.mod_lt; lia).
    pose proof (N.div_mod n 1024 ltac:(lia)) as Hdm.
    remember (n / 1024) as q eqn:Eq. remember (n mod 1024) as r eqn:Er.
    simpl. unfold json_escape. simpl.
    rewrite <- !app_assoc.
    rewrite read_hex_exact by (simpl; lia). simpl.
    destruct ((55296 <=? 55296 + q) && (55296 + q <=? 56319)) eqn:Hhi;
      [| exfalso;
         apply andb_false_iff in Hhi as [?%N.leb_gt | ?%N.leb_gt]; lia].
    rewrite read_hex_exact by (simpl; lia). simpl.
    destruct ((56320 <=? 56320 + r) && (56320 + r <=? 57343)) eqn:Hlo;
      [| exfalso;
         apply andb_false_iff in Hlo as [?%N.leb_gt | ?%N.leb_gt]; lia].
    simpl.
    replace (65536 + (55296 + q - 55296) * 1024 + (56320 + r - 56320))
      with c by lia.
    reflexivity.
Qed.

(** ... and for a whole string, up to its closing quote. *)
Lemma json_text_string (s : str) :
  forall (fuel : nat) (tail : str),
    Forall json_safe s ->
    (length (List.concat (map json_char s)) < fuel)%nat ->
    json_text fuel (List.concat (map json_char s) ++ 34 :: tail) =
    Some (s, tail).
Proof.
  induction s as [| c s IH]; intros fuel tail Hs Hfuel.
  - destruct fuel; [simpl in Hfuel; lia | reflexivity].
  - apply Forall_cons in Hs as [Hc Hs].
    simpl in Hfuel. rewrite length_app in Hfuel.
    pose proof (json_char_nonempty c).
    destruct fuel as [| fuel]; [lia |].
    simpl List.concat. rewrite <- app_assoc.
    rewrite json_text_char by done.
    rewrite IH by (done || lia). reflexivity.
Qed.

End Wire.

Section Record.

#[local] Opaque json_text.

(** A quoted string is read as the text it was written from. *)
Lemma json_text_quoted (s tail : str) :
  Forall json_safe s ->
  json_text (length (List.concat (map json_char s) ++ 34 :: tail))
    (List.concat (map json_char s) ++ 34 :: tail) = Some (s, tail).
Proof.
  intros Hs. apply json_text_string; [done |].
  rewrite length_app. simpl. lia.
Qed.

Lemma json_value_string (fuel : nat) (s tail : str) :
  Forall json_safe s ->
  json_value (S fuel) (34 :: List.concat (map json_char s) ++ 34 :: tail) =
  Some (VStr s, tail).
Proof.
  intros Hs. remember (List.concat (map json_char s) ++ 34 :: tail) as text.
  simpl. subst text. by rewrite json_text_quoted.
Qed.

Lemma json_members_cons (fuel : nat) (k rest : str)
    (acc : list (str * pyval)) :
  Forall json_safe k ->
  json_members (S fuel)
    (34 :: List.concat (map json_char k) ++ 34 :: 58 :: rest) acc =
  v ← json_value fuel rest;
  match skip_json_space v.2 with
  | 44 :: r => json_members fuel r (dict_set k v.1 acc)
  | 125 :: r => Some (dict_set k v.1 acc, r)
  | _ => None
  end.
Proof.
  intros Hk.
  remember (List.concat (map json_char k) ++ 34 :: 58 :: rest) as text.
  simpl. subst text. rewrite json_text_quoted by done. reflexivity.
Qed.

Lemma json_value_object (fuel : nat) (s : str) :
  json_value (S fuel) (123 :: 34 :: s) =
  r ← json_members fuel (34 :: s) []; Some (VDict r.1, r.2).
Proof. reflexivity. Qed.

Lemma json_value_space (fuel : nat) (s : str) :
  json_value (S fuel) (32 :: s) = json_value (S fuel) s.
Proof. reflexivity. Qed.

Lemma json_members_space (fuel : nat) (s : str) acc :
  json_members (S fuel) (32 :: s) acc = json_members (S fuel) s acc.
Proof. reflexivity. Qed.

Lemma json_value_true (fuel : nat) (tail : str) :
  json_value (S fuel) (u "true" ++ tail) = Some (VBool true, tail).
Proof. reflexivity. Qed.

Lemma json_safe_ascii (s : string) :
  forallb (fun c => c <? 128) (u s) = true -> Forall json_safe (u s).
Proof.
  intros Hs. apply Forall_forall. intros c Hc.
  apply list_elem_of_In in Hc.
  pose proof (proj1 (forallb_forall _ _) Hs c Hc) as Hlt.
  apply N.ltb_lt in Hlt. unfold json_safe. lia.
Qed.

Lemma json_loads_record (r : str) :
  Forall json_safe r ->
  json_loads_fragment
    (tpl "{`success`: true, `result`: " ++ json_string r ++ [125]) =
  Some (VDict (success_payload r)).
Proof.
  intros Hr. unfold json_loads_fragment, json_string.
  set (body := List.concat (map json_char r)).
  replace (tpl "{`success`: true, `result`: " ++ (34 :: body ++ [34]) ++ [125])
    with (123 :: 34 :: List.concat (map json_char (u "success")) ++
          34 :: 58 :: 32 :: u "true" ++ 44 :: 32 ::
          34 :: List.concat (map json_char (u "result")) ++
          34 :: 58 :: 32 :: 34 :: body ++ 34 :: [125])
    by (simpl; by rewrite <- app_assoc).
  match goal with
  | |- context [length ?l] =>
      assert (exists f, length l = S (S (S f))) as [f ->]
        by (simpl; eauto)
  end.
  rewrite json_value_object, json_members_cons
    by (by apply json_safe_ascii).
  rewrite json_value_space, json_value_true. cbn [mbind option_bind fst snd].
  change (skip_json_space (44 :: 32 :: ?t)) with (44 :: 32 :: t).
  cbv iota beta.
  rewrite json_members_space, json_members_cons
    by (by apply json_safe_ascii).
  rewrite json_value_space.
  change (body ++ [34; 125]) with (body ++ 34 :: [125]).
  unfold body. rewrite json_value_string by done.
  reflexivity.
Qed.

End Record.

(** ** The last line of the child's output *)

Lemma success_record_line (r : str) :
  success_record r = record_line r ++ [10].
Proof.
  unfold success_record, record_line.
  change (tpl "}
") with ([125] ++ [10]).
  by rewrite !app_assoc.
Qed.

Ltac decide_eqs :=
  repeat match goal with
         | |- context [?a =? ?b] => destruct (N.eqb_spec a b); try lia
         end.

Lemma linebreak_isspace (c : N) : is_linebreak c = true -> isspace c = true.
Proof.
  unfold is_linebreak, isspace.
  decide_bounds; decide_eqs; simpl; congruence.
Qed.

Lemma plain_no_linebreak (c : N) : plain c -> is_linebreak c = false.
Proof.
  unfold plain, is_linebreak. intros [Hlo Hhi].
  decide_bounds; decide_eqs; reflexivity.
Qed.

(** [lstrip] leaves a suffix that does not start with white space. *)
Lemma lstrip_suffix (s : str) :
  exists blank,
    s = blank ++ lstrip s /\ Forall (fun c => isspace c = true) blank /\
    match lstrip s with c :: _ => isspace c = false | [] => True end.
Proof.
  induction s as [| c s (blank & Hs & Hb & Hh)]; simpl.
  - by exists [].
  - destruct (isspace c) eqn:Hc.
    + exists (c :: blank). split; [simpl; congruence |].
      split; [by constructor | done].
    + exists []. by repeat split.
Qed.

Lemma lstrip_app_head (blank s : str) :
  Forall (fun c => isspace c = true) blank -> lstrip (blank ++ s) = lstrip s.
Proof.
  induction 1 as [| c blank Hc _ IH]; simpl; [done |]. by rewrite Hc.
Qed.

Lemma lstrip_solid (s : str) :
  match s with c :: _ => isspace c = false | [] => True end -> lstrip s = s.
Proof. destruct s as [| c s]; simpl; [done |]. by intros ->. Qed.

Lemma lstrip_app_solid (s1 s2 : str) :
  match s2 with c :: _ => isspace c = false | [] => False end ->
  lstrip (s1 ++ s2) = lstrip s1 ++ s2.
Proof.
  intros Hs2. induction s1 as [| c s1 IH]; simpl.
  - destruct s2 as [| d s2]; [done |]. simpl. by rewrite Hs2.
  - by destruct (isspace c).
Qed.

Lemma rstrip_line (s : str) (b : N) :
  isspace b = false -> rstrip (s ++ [b; 10]) = s ++ [b].
Proof.
  intros Hb. unfold rstrip. rewrite rev_app_distr. simpl. rewrite Hb.
  simpl. by rewrite rev_involutive.
Qed.

Lemma rstrip_solid (s : str) (b : N) :
  isspace b = false -> rstrip (s ++ [b]) = s ++ [b].
Proof.
  intros Hb. unfold rstrip. rewrite rev_app_distr. simpl. rewrite Hb.
  simpl. by rewrite rev_involutive.
Qed.

Lemma lstrip_ends_line (noise : str) :
  ends_line noise -> ends_line (lstrip noise).
Proof.
  intros [-> | (text & c & -> & Hc)]; [by left |].
  apply linebreak_isspace in Hc as Hsp.
  induction text as [| d text IH]; simpl.
  - rewrite Hsp. by left.
  - destruct (isspace d); [exact IH |].
    right. by exists (d :: text), c.
Qed.

(** One step of [splitlines]. *)
Lemma splitlines_from_cons (cur : str) (c : N) (s : str) :
  splitlines_from cur (c :: s) =
  if is_linebreak c then
    match s with
    | d :: s' =>
        if (c =? 13) && (d =? 10) then rev cur :: splitlines_from [] s'
        else rev cur :: splitlines_from [] s
    | [] => rev cur :: splitlines_from [] s
    end
  else splitlines_from (c :: cur) s.
Proof.
  simpl. destruct (is_linebreak c); [| reflexivity].
  destruct (N.eqb_spec c 13) as [-> | Hc].
  - destruct s as [| d s']; [reflexivity |].
    destruct (N.eqb_spec d 10) as [-> | Hd]; [reflexivity |].
    destruct d as [| p]; [reflexivity |].
    do 4 (try destruct p as [p | p |]); try reflexivity; done.
  - destruct c as [| p]; [by destruct s |].
    do 4 (try destruct p as [p | p |]); try (by destruct s); done.
Qed.

Lemma splitlines_from_solid (line : str) :
  Forall (fun c => is_linebreak c = false) line -> line <> [] ->
  forall cur, splitlines_from cur line = [rev cur ++ line].
Proof.
  induction 1 as [| c line Hc Hline IH]; [done |]. intros _ cur.
  rewrite splitlines_from_cons, Hc.
  destruct line as [| d line].
  - reflexivity.
  - rewrite IH by done. simpl. by rewrite <- app_assoc.
Qed.

(** The last line of output that ends with a line holding no line
    boundary. *)
Lemma last_splitlines (line : str) :
  Forall (fun c => is_linebreak c = false) line -> line <> [] ->
  forall (x cur : str),
    ends_line x -> (x = [] -> cur = []) ->
    List.last (splitlines_from cur (x ++ line)) [] = line.
Proof.
  intros Hline Hne x.
  induction x as [x IH] using (induction_ltof1 _ (@length N)).
  unfold ltof in IH. intros cur Hx Hcur.
  destruct x as [| c x].
  - rewrite (Hcur eq_refl). simpl. by rewrite splitlines_from_solid.
  - assert (ends_line x /\ (x = [] -> is_linebreak c = true))
      as [Hx' Hlast].
    { destruct Hx as [? | (text & e & Htext & He)]; [done |].
      destruct text as [| t text]; simpl in Htext; simplify_eq.
      - split; [by left | done].
      - split; [right; by exists text, e |].
        intros Hnil. by destruct text. }
    assert (forall y cur', ends_line y -> (length y < length (c :: x))%nat ->
              (y = [] -> cur' = []) ->
              forall first,
                List.last (first :: splitlines_from cur' (y ++ line)) [] =
                line) as Hstep.
    { intros y cur' Hy Hlen Hcur' first.
      pose proof (IH y Hlen cur' Hy Hcur') as Hl.
      destruct (splitlines_from cur' (y ++ line)) as [| l ls].
      - simpl in Hl. congruence.
      - exact Hl. }
    simpl app. rewrite splitlines_from_cons.
    destruct (is_linebreak c) eqn:Hc.
    + destruct (x ++ line) as [| d s'] eqn:Hxs.
      { apply app_eq_nil in Hxs as [_ ?]. done. }
      destruct ((c =? 13) && (d =? 10)) eqn:Hcrlf.
      * apply andb_true_iff in Hcrlf as [_ Hd%N.eqb_eq]. subst d.
        destruct x as [| d x].
        { simpl in Hxs. subst line.
          apply Forall_cons in Hline as [Hbrk _]. done. }
        simpl in Hxs. simplify_eq.
        apply Hstep; [| simpl; lia | done].
        destruct Hx' as [? | (text & e & Htext & He)]; [done |].
        destruct text as [| t text]; simpl in Htext; simplify_eq.
        -- by left.
        -- right. by exists text, e.
      * rewrite <- Hxs. apply Hstep; [done | simpl; lia | done].
    + apply IH; [simpl; lia | done |].
      intros Hnil. apply Hlast in Hnil. congruence.
Qed.

Lemma record_line_plain (r : str) : Forall plain (record_line r).
Proof.
  unfold record_line, json_string.
  apply Forall_app. split.
  { apply Forall_forall. intros c Hc. apply list_elem_of_In in Hc.
    vm_compute in Hc. unfold plain. intuition (subst; lia). }
  apply Forall_app. split; [| constructor; [unfold plain; lia | constructor]].
  constructor; [unfold plain; lia |].
  apply Forall_app. split; [| constructor; [unfold plain; lia | constructor]].
  induction r as [| c r IH]; simpl; [constructor |].
  apply Forall_app. split; [apply json_char_plain | exact IH].
Qed.

Lemma record_line_frame (r : str) :
  exists mid, record_line r = 123 :: mid ++ [125].
Proof.
  exists (tpl "`success`: true, `result`: " ++ json_string r).
  unfold record_line. by rewrite <- app_assoc.
Qed.

(** [execute] reads the record back from the last line of the child's
    output, whatever whole lines the child printed before it. *)
Lemma read_result_record (noise r err : str) :
  ends_line noise -> Forall json_safe r ->
  @read_result cpython_fragment (noise ++ success_record r) err =
  Returns (true, VStr r, VStr []).
Proof.
  intros Hnoise Hr. unfold read_result.
  assert (strip (noise ++ success_record r) = lstrip noise ++ record_line r)
    as ->.
  { rewrite success_record_line.
    destruct (record_line_frame r) as [mid ->].
    unfold strip. simpl app. rewrite <- app_assoc. simpl app.
    rewrite lstrip_app_solid by reflexivity.
    change (123 :: mid ++ [125; 10]) with ((123 :: mid) ++ [125; 10]).
    rewrite app_assoc, rstrip_line by reflexivity.
    rewrite <- app_assoc. reflexivity. }
  pose proof (record_line_plain r) as Hplain.
  assert (Forall (fun c => is_linebreak c = false) (record_line r)) as Hsolid.
  { eapply Forall_impl; [exact Hplain |]. apply plain_no_linebreak. }
  assert (record_line r <> []) as Hne.
  { destruct (record_line_frame r) as [mid ->]. done. }
  assert (strip (List.last (splitlines (lstrip noise ++ record_line r)) []) =
          record_line r) as Hlast.
  { unfold splitlines.
    rewrite last_splitlines by (done || by apply lstrip_ends_line).
    destruct (record_line_frame r) as [mid ->].
    unfold strip. rewrite lstrip_solid by reflexivity.
    change (123 :: mid ++ [125]) with ((123 :: mid) ++ [125]).
    by rewrite rstrip_solid. }
  destruct (lstrip noise ++ record_line r) as [| c s] eqn:Hout.
  { apply app_eq_nil in Hout as [_ ?]. done. }
  rewrite Hlast.
  change (@json_loads cpython_fragment) with json_loads_fragment.
  unfold record_line. rewrite json_loads_record by done.
  reflexivity.
Qed.

(** ** What [repr] prints goes through the record unchanged *)

Lemma narrow_json_safe (s : str) : Forall narrow s -> Forall json_safe s.
Proof.
  intros Hs. eapply Forall_impl; [exact Hs |].
  unfold narrow, json_safe. intros c Hc. lia.
Qed.

Lemma plain_narrow (s : str) : Forall plain s -> Forall narrow s.
Proof.
  intros Hs. eapply Forall_impl; [exact Hs |].
  unfold narrow, plain. intros c Hc. lia.
Qed.

Lemma uint_codes_narrow (d : Decimal.uint) : Forall narrow (uint_codes d).
Proof.
  induction d; simpl; constructor; try done; unfold narrow; lia.
Qed.

Lemma int_repr_narrow (n : Z) : Forall narrow (int_repr n).
Proof.
  unfold int_repr. destruct (Z.to_int n).
  - apply uint_codes_narrow.
  - constructor; [unfold narrow; lia | apply uint_codes_narrow].
Qed.

Lemma repr_char_narrow (q c : N) :
  q < 256 -> Forall narrow (@repr_char cpython_fragment q c).
Proof.
  intros Hq. unfold repr_char.
  assert (forall l, forallb (fun c => c <? 256) l = true -> Forall narrow l)
    as Hdec.
  { intros l Hl. apply Forall_forall. intros x Hx.
    apply list_elem_of_In in Hx.
    apply N.ltb_lt. apply (proj1 (forallb_forall _ _) Hl x Hx). }
  destruct ((c =? q) || (c =? 92)) eqn:Hesc.
  { apply orb_true_iff in Hesc as [->%N.eqb_eq | ->%N.eqb_eq];
      repeat constructor; unfold narrow; lia. }
  repeat (case_match; [by apply Hdec |]).
  destruct (isprintable c) eqn:Hp.
  { constructor; [| constructor]. unfold narrow.
    unfold isprintable, ascii_printable in Hp. simpl in Hp.
    unfold latin1_printable in Hp.
    destruct (N.ltb_spec c 128); [lia |].
    apply andb_true_iff in Hp as [Hp _].
    apply andb_true_iff in Hp as [_ Hp%N.leb_le]. lia. }
  repeat case_match;
    (apply Forall_app; split; [by apply Hdec | apply plain_narrow, hex_plain]).
Qed.

Lemma str_repr_narrow (s : str) : Forall narrow (@str_repr cpython_fragment s).
Proof.
  unfold str_repr.
  assert (repr_quote s < 256) as Hq.
  { destruct (repr_quote_cases s) as [-> | ->]; lia. }
  revert Hq. generalize (repr_quote s). intros q Hq.
  constructor; [exact Hq |].
  apply Forall_app. split; [| by repeat constructor].
  induction s as [| c s IH]; simpl; [constructor |].
  apply Forall_app. split; [| exact IH].
  by apply repr_char_narrow.
Qed.

Lemma join_ints_narrow (ns : list Z) :
  Forall narrow (join (u ", ") (map int_repr ns)).
Proof.
  induction ns as [| n ns IH]; [constructor |].
  destruct ns as [| m ns]; simpl in *; [apply int_repr_narrow |].
  apply Forall_app. split; [apply int_repr_narrow |].
  constructor; [unfold narrow; simpl; lia |].
  constructor; [unfold narrow; simpl; lia |]. exact IH.
Qed.

Lemma literal_result_decodes (v : pyval) :
  literal_result v ->
  @decode_result cpython_fragment (VStr (@py_repr cpython_fragment v)) = v.
Proof.
  intros Hv. apply decode_result_repr.
  destruct Hv as [? | [(s & -> & Hs) | ?]]; [by left | | by right; right].
  right. left. exists s. split; [done |].
  eapply Forall_impl; [exact Hs |]. unfold narrow. intros c Hc. lia.
Qed.

Lemma literal_result_safe (v : pyval) :
  literal_result v -> Forall json_safe (@py_repr cpython_fragment v).
Proof.
  intros [(n & ->) | [(s & -> & Hs) | (ns & ->)]]; apply narrow_json_safe.
  - apply int_repr_narrow.
  - apply str_repr_narrow.
  - simpl. constructor; [unfold narrow; simpl; lia |].
    apply Forall_app. split; [| repeat constructor; unfold narrow; simpl; lia].
    rewrite map_map. apply join_ints_narrow.
Qed.

(** What [execute] returns for a child that ends on the success
    record. *)
Lemma execute_record `{H : Host} self code tf args kwargs
    (w w1 : world) (f : nat) (noise r errtext : str) :
  @_is_safe_code cpython_fragment code = true ->
  (acquire;; write_wrapper code tf args kwargs) w = (w1, Returns f) ->
  child w1 f (timeout self) = Exited (noise ++ success_record r) errtext ->
  ends_line noise -> Forall json_safe r ->
  @execute cpython_fragment H self code tf args kwargs w =
  (cleaned (spawned w1 f) f, Returns (true, VStr r, VStr [])).
Proof.
  intros Hs Hpre Hchild Hnoise Hr.
  rewrite (execute_ran _ _ _ _ _ _ _ _ Hs Hpre), Hchild.
  unfold verdict. by rewrite read_result_record.
Qed.






(** ** Challenges *)

Lemma zip_snoc {A B} (l : list A) (k : list B) (a : A) (b : B) :
  length l = length k -> zip (l ++ [a]) (k ++ [b]) = zip l k ++ [(a, b)].
Proof.
  revert k. induction l as [| x l IH]; intros [| y k] Hlen;
    simpl in *; try discriminate; [reflexivity |].
  f_equal. apply IH. lia.
Qed.

Lemma calls_snoc (self : Challenge) (calls : list challenge_call) c :
  foldl call self (calls ++ [c]) = call (foldl call self calls) c.
Proof. by rewrite foldl_app. Qed.

(** X16: however [add_test_case] and [add_hint] are called on a new
    challenge, its two lists stay in step: as many expected outputs as
    test cases, paired by [zip] exactly as they were added and in that
    order; the hints are the hints added, in order, and the other
    attributes are those the challenge was created with. *)
Theorem X16_challenge_lists_in_step (cid ttl descr : str) (diff : Z)
    (mdl cpt : str) (calls : list challenge_call) :
  let ch := foldl call (Challenge_init cid ttl descr diff mdl cpt) calls in
  length (test_cases ch) = length (expected_outputs ch) /\
  zip (test_cases ch) (expected_outputs ch) = added_cases calls /\
  hints ch = added_hints calls /\
  (challenge_id ch, title ch, description ch, difficulty ch, module ch,
   concept ch) = (cid, ttl, descr, diff, mdl, cpt).
Proof.
  induction calls as [| c calls IH] using rev_ind; [done |].
  simpl in *. rewrite calls_snoc.
  destruct IH as (Hlen & Hzip & Hhints & Hattrs).
  unfold added_cases, added_hints in *. rewrite !omap_app.
  destruct c as [hint | tc exp]; simpl.
  - rewrite !app_nil_r. repeat split; try done. by rewrite Hhints.
  - rewrite !length_app, zip_snoc, Hzip, app_nil_r by done. simpl.
    repeat split; try done. lia.
Qed.

(** ** The style check *)

Lemma rstrip_nil : rstrip [] = [].
Proof. reflexivity. Qed.

Lemma length_lstrip (s : str) : (length (lstrip s) <= length s)%nat.
Proof.
  induction s as [| c s IH]; simpl; [lia |].
  destruct (isspace c); simpl; lia.
Qed.

(** [l.rstrip() != l] holds exactly of a line that ends in white
    space. *)
Lemma has_trailing_spec (l : str) :
  has_trailing l = false <->
  forall body c, l = body ++ [c] -> isspace c = false.
Proof.
  unfold has_trailing, str_eqb. rewrite negb_false_iff, bool_decide_eq_true.
  destruct l as [| x l'] using rev_ind.
  - split; [| done]. intros _ body c Hl. by destruct body.
  - clear IHl'. split.
    + intros Hr body c Hl. apply app_inj_tail in Hl as [-> ->].
      destruct (isspace c) eqn:Hc; [| done]. exfalso.
      unfold rstrip in Hr. rewrite rev_app_distr in Hr. simpl in Hr.
      rewrite Hc in Hr.
      apply (f_equal (@length N)) in Hr.
      rewrite length_rev, length_app in Hr. simpl in Hr.
      pose proof (length_lstrip (rev body)) as Hle.
      rewrite length_rev in Hle. lia.
    + intros Hl. by rewrite rstrip_solid by (by apply (Hl l')).
Qed.

Lemma is_long_spec (l : str) : is_long l = false <-> (length l <= 79)%nat.
Proof. unfold is_long. by rewrite Nat.ltb_ge. Qed.

Lemma numbered_from_nil (cond : str -> bool) (lines : list str) :
  forall i : nat,
    map (fun p : nat * str => (p.1 + 1)%nat)
      (List.filter (fun p => cond p.2) (zip (seq i (length lines)) lines)) =
    [] <->
    Forall (fun l => cond l = false) lines.
Proof.
  induction lines as [| l lines IH]; intros i; simpl.
  - split; [constructor | done].
  - destruct (cond l) eqn:Hl; simpl.
    + split; [done |]. intros Hall. apply Forall_cons in Hall as [? _].
      congruence.
    + rewrite IH. split; [by constructor |].
      intros Hall. by apply Forall_cons in Hall as [_ ?].
Qed.

(** The list of line numbers is empty exactly when no line meets the
    condition. *)
Lemma line_numbers_nil (cond : str -> bool) (lines : list str) :
  line_numbers cond lines = [] <-> Forall (fun l => cond l = false) lines.
Proof. apply numbered_from_nil. Qed.

Lemma tidy_lines (lines : list str) :
  Forall tidy lines <->
  line_numbers is_long lines = [] /\ line_numbers has_trailing lines = [].
Proof.
  rewrite !line_numbers_nil, <- Forall_and.
  apply Forall_iff. intros l. unfold tidy.
  by rewrite is_long_spec, has_trailing_spec.
Qed.

(** X17: [check_pep8] answers [PEP8 check OK] exactly when no line of
    the source is longer than 79 characters and none ends in white
    space; the score is then [1.0].  Otherwise [PEP8 check OK] is not
    among the lines of the report. *)
Theorem X17_pep8_ok_iff_tidy (code : str) :
  ((check_pep8 code).2 = [u "PEP8 check OK"] <->
   Forall tidy (splitlines code)) /\
  ((check_pep8 code).2 = [u "PEP8 check OK"] ->
   (check_pep8 code).1 = 1%float) /\
  ((check_pep8 code).2 <> [u "PEP8 check OK"] ->
   u "PEP8 check OK" ∉ (check_pep8 code).2).
Proof.
  rewrite tidy_lines. unfold check_pep8.
  destruct (line_numbers is_long (splitlines code)) as [| n ns];
    destruct (line_numbers has_trailing (splitlines code)) as [| m ms];
    simpl.
  - repeat split; done.
  - repeat split; try done.
    + intros [_ ?]. done.
    + intros _ Hin. apply list_elem_of_singleton in Hin. discriminate.
  - repeat split; try done.
    + intros [? _]. done.
    + intros _ Hin. apply list_elem_of_singleton in Hin. discriminate.
  - repeat split; try done.
    + intros [? _]. done.
    + intros _ Hin. apply elem_of_cons in Hin as [Hin | Hin];
        [discriminate |].
      apply list_elem_of_singleton in Hin. discriminate.
Qed.


(** ** Experience points and levels *)

Lemma result_xp_range (result : result_row) (gain : Z) :
  result_xp result = Some gain ->
  (10 <= gain <= 70)%Z /\ (gain mod 10 = 0)%Z.
Proof.
  unfold result_xp. intros Hg.
  destruct (cell_gt (get result (u "pep8_score") _) _)
    as [style |]; [| discriminate].
  destruct (cell_gt (get result (u "performance_score") _) _)
    as [speed |]; [| discriminate].
  simpl in Hg.
  destruct (cell_truthy _), style, speed; simplify_eq; by compute.
Qed.

Lemma calculate_xp_from_shift (rows : list result_row) :
  forall xp : Z,
    calculate_xp_from xp rows =
    gain ← calculate_xp_from 0 rows; Some (xp + gain)%Z.
Proof.
  induction rows as [| r rows IH]; intros xp; simpl.
  - by rewrite Z.add_0_r.
  - destruct (result_xp r) as [g |]; simpl; [| reflexivity].
    rewrite (IH (xp + g)%Z), (IH (0 + g)%Z).
    destruct (calculate_xp_from 0 rows) as [k |]; simpl; [| reflexivity].
    f_equal. lia.
Qed.

Lemma calculate_xp_cons (r : result_row) (rows : list result_row) :
  calculate_xp (r :: rows) =
  gain ← result_xp r; rest ← calculate_xp rows; Some (gain + rest)%Z.
Proof.
  unfold calculate_xp. simpl.
  destruct (result_xp r) as [g |]; simpl; [| reflexivity].
  by rewrite calculate_xp_from_shift.
Qed.

Lemma calculate_xp_range (rows : list result_row) :
  forall xp : Z,
    calculate_xp rows = Some xp ->
    (10 * Z.of_nat (length rows) <= xp <= 70 * Z.of_nat (length rows))%Z /\
    (xp mod 10 = 0)%Z.
Proof.
  induction rows as [| r rows IH]; intros xp Hxp.
  - unfold calculate_xp in Hxp. simpl in Hxp. simplify_eq. by compute.
  - rewrite calculate_xp_cons in Hxp.
    destruct (result_xp r) as [g |] eqn:Hg; [| discriminate].
    destruct (calculate_xp rows) as [k |]; [| discriminate].
    simpl in Hxp. simplify_eq.
    destruct (result_xp_range _ _ Hg) as [Hr Hm].
    destruct (IH k eq_refl) as [Hk Hkm].
    split; [simpl length; lia |].
    rewrite Z.add_mod, Hm, Hkm by lia. reflexivity.
Qed.

(** X18: the XP of a list of results is the sum of the XP of its parts:
    results earn XP one by one, and a result whose score is no number
    makes the whole sum fail however the list is cut. *)
Theorem X18_xp_is_additive (before after : list result_row) :
  calculate_xp (before ++ after) =
  a ← calculate_xp before; b ← calculate_xp after; Some (a + b)%Z.
Proof.
  induction before as [| r before IH].
  - unfold calculate_xp. simpl.
    by destruct (calculate_xp_from 0 after).
  - simpl app. rewrite !calculate_xp_cons, IH.
    destruct (result_xp r) as [g |]; simpl; [| reflexivity].
    destruct (calculate_xp before) as [a |]; simpl; [| reflexivity].
    destruct (calculate_xp after) as [b |]; simpl; [| reflexivity].
    f_equal. lia.
Qed.

(** X19: every result earns between 10 and 70 XP, in tens: the XP of
    [n] results is a multiple of 10 between [10 * n] and [70 * n]. *)
Theorem X19_xp_bounds (challenge_results : list result_row) (xp : Z) :
  calculate_xp challenge_results = Some xp ->
  (10 * Z.of_nat (length challenge_results) <= xp
   <= 70 * Z.of_nat (length challenge_results))%Z /\
  (xp mod 10 = 0)%Z.
Proof. apply calculate_xp_range. Qed.

(** X20: level, threshold and progress fit together for every XP,
    negative ones included: the XP lies from the threshold of the level
    below up to, and not including, the threshold shown for the next
    level, and is the lower threshold plus the progress, which is
    between 0 and 99. *)
Theorem X20_level_arithmetic (xp : Z) :
  let level := get_level_from_xp xp in
  (get_xp_for_next_level (level - 1) <= xp < get_xp_for_next_level level)%Z /\
  xp = (get_xp_for_next_level (level - 1) +
        get_xp_progress_in_level xp level)%Z /\
  (0 <= get_xp_progress_in_level xp level < 100)%Z.
Proof.
  unfold get_level_from_xp, get_xp_for_next_level, get_xp_progress_in_level.
  simpl.
  pose proof (Z.div_mod xp 100 ltac:(lia)).
  pose proof (Z.mod_pos_bound xp 100 ltac:(lia)).
  lia.
Qed.

Lemma X19_xp_bounds_witness :
  (10 * Z.of_nat (length sample_results) <= 90
   <= 70 * Z.of_nat (length sample_results))%Z /\
  (90 mod 10 = 0)%Z.
Proof. apply (X19_xp_bounds sample_results 90). reflexivity. Defined.

(** ** Badges *)

Lemma fromkeys_from (badges : list str) :
  forall seen : list str,
    NoDup seen ->
    NoDup (foldl (fun seen b => if bool_decide (b ∈ seen) then seen
                                else seen ++ [b]) seen badges) /\
    forall b,
      b ∈ foldl (fun seen b => if bool_decide (b ∈ seen) then seen
                               else seen ++ [b]) seen badges <->
      b ∈ seen \/ b ∈ badges.
Proof.
  induction badges as [| x badges IH]; intros seen Hseen; simpl.
  - split; [done |]. intros b. split; [by left |].
    intros [? | Hin]; [done | inversion Hin].
  - destruct (bool_decide_reflect (x ∈ seen)) as [Hx | Hx].
    + destruct (IH seen Hseen) as [Hnd Hin]. split; [done |].
      intros b. rewrite Hin, elem_of_cons.
      split; [intros [? | ?]; auto |].
      intros [? | [-> | ?]]; auto.
    + assert (NoDup (seen ++ [x])) as Hseen'.
      { apply NoDup_app. split; [done |]. split; [| apply NoDup_singleton].
        intros y Hy Hyx. apply list_elem_of_singleton in Hyx. by subst. }
      destruct (IH _ Hseen') as [Hnd Hin]. split; [done |].
      intros b. rewrite Hin, elem_of_app, list_elem_of_singleton, elem_of_cons.
      tauto.
Qed.

Lemma fromkeys_spec (badges : list str) :
  NoDup (fromkeys badges) /\ forall b, b ∈ fromkeys badges <-> b ∈ badges.
Proof.
  destruct (fromkeys_from badges [] (NoDup_nil_2)) as [Hnd Hin].
  split; [exact Hnd |]. intros b. unfold fromkeys. rewrite Hin.
  split; [intros [Hb | ?]; [inversion Hb | done] | by right].
Qed.

(** What the loop of [get_user_badges] appends. *)
Lemma append_badges_spec (rows : list result_row) :
  forall badges all : list str,
    append_badges badges rows = Some all ->
    exists mores : list (list str),
      Forall2 (fun r more => result_badges r = Some more) rows mores /\
      all = badges ++ List.concat mores.
Proof.
  induction rows as [| r rows IH]; intros badges all Hall; simpl in Hall.
  - simplify_eq. exists []. split; [constructor |]. by rewrite app_nil_r.
  - destruct (result_badges r) as [more |] eqn:Hr; [| discriminate].
    simpl in Hall. apply IH in Hall as (mores & Hm & ->).
    exists (more :: mores). split; [by constructor |].
    simpl. by rewrite app_assoc.
Qed.

Lemma result_badges_shape (r : result_row) (more : list str) :
  result_badges r = Some more ->
  exists style speed perfect : bool,
    cell_gt (get r (u "pep8_score") (CInt 0)) 0.8 = Some style /\
    cell_lt (get r (u "execution_time") (CInt 1)) 0.5 = Some speed /\
    more = (if style then [u "style_seeker"] else []) ++
           (if speed then [u "speed_demon"] else []) ++
           (if perfect then [u "perfectionist"] else []).
Proof.
  unfold result_badges. intros Hm.
  destruct (cell_gt (get r (u "pep8_score") _) _) as [style |];
    [| discriminate].
  destruct (cell_lt (get r (u "execution_time") _) _) as [speed |];
    [| discriminate].
  simpl in Hm.
  match type of Hm with
  | ?c ≫= _ = _ => destruct c as [perfect |]; [| discriminate]
  end.
  simpl in Hm. simplify_eq. by exists style, speed, perfect.
Qed.

Lemma elem_of_decide (x : str) (l : list str) :
  x ∈ l <-> bool_decide (x ∈ l) = true.
Proof. by rewrite bool_decide_eq_true. Qed.

Lemma concat_badges (rows : list result_row) (mores : list (list str)) :
  Forall2 (fun r more => result_badges r = Some more) rows mores ->
  forall b,
    b ∈ List.concat mores <->
    exists r more, r ∈ rows /\ result_badges r = Some more /\ b ∈ more.
Proof.
  induction 1 as [| r more rows mores Hr _ IH]; intros b; simpl.
  - split; [intros Hb; inversion Hb |].
    intros (r & more & Hin & _). inversion Hin.
  - rewrite elem_of_app, IH. split.
    + intros [Hb | (r' & more' & Hin & Hr' & Hb)].
      * exists r, more. split; [left | done].
      * exists r', more'. split; [by right | done].
    + intros (r' & more' & Hin & Hr' & Hb).
      apply elem_of_cons in Hin as [-> | Hin].
      * left. congruence.
      * right. by exists r', more'.
Qed.

(** Which badges the three flags of one result stand for. *)
Lemma shape_members (style speed perfect : bool) (b : str) :
  b ∈ (if style then [u "style_seeker"] else []) ++
      (if speed then [u "speed_demon"] else []) ++
      (if perfect then [u "perfectionist"] else []) <->
  b = u "style_seeker" /\ style = true \/
  b = u "speed_demon" /\ speed = true \/
  b = u "perfectionist" /\ perfect = true.
Proof.
  rewrite !elem_of_app.
  destruct style, speed, perfect;
    rewrite ?list_elem_of_singleton, ?elem_of_nil; intuition congruence.
Qed.

(** The badges given before the loop. *)
Lemma initial_members (n : nat) (level : Z) (b : str) :
  b ∈ (let badges := [] in
       let badges := if (1 <=? n)%nat
                     then badges ++ [u "first_blood"] else badges in
       let badges := if (3 <=? n)%nat
                     then badges ++ [u "streak_starter"] else badges in
       if (2 <=? level)%Z then badges ++ [u "level_up"] else badges) <->
  b = u "first_blood" /\ (1 <= n)%nat \/
  b = u "streak_starter" /\ (3 <= n)%nat \/
  b = u "level_up" /\ (2 <= level)%Z.
Proof.
  cbv zeta.
  destruct (Nat.leb_spec 1 n), (Nat.leb_spec 3 n), (Z.leb_spec 2 level);
    simpl; rewrite ?elem_of_cons, ?elem_of_nil; intuition (congruence || lia).
Qed.

Lemma get_user_badges_members (rows : list result_row) (level : Z)
    (badges : list str) :
  get_user_badges rows level = Some badges ->
  NoDup badges /\
  Forall (fun r => is_Some (result_badges r)) rows /\
  forall b,
    b ∈ badges <->
    b = u "first_blood" /\ (1 <= length rows)%nat \/
    b = u "streak_starter" /\ (3 <= length rows)%nat \/
    b = u "level_up" /\ (2 <= level)%Z \/
    exists r (style speed perfect : bool),
      r ∈ rows /\
      cell_gt (get r (u "pep8_score") (CInt 0)) 0.8 = Some style /\
      cell_lt (get r (u "execution_time") (CInt 1)) 0.5 = Some speed /\
      result_badges r =
        Some ((if style then [u "style_seeker"] else []) ++
              (if speed then [u "speed_demon"] else []) ++
              (if perfect then [u "perfectionist"] else [])) /\
      (b = u "style_seeker" /\ style = true \/
       b = u "speed_demon" /\ speed = true \/
       b = u "perfectionist" /\ perfect = true).
Proof.
  unfold get_user_badges. intros Hb.
  pose proof (initial_members (length rows) level) as Hinit.
  cbv zeta in Hb, Hinit.
  match type of Hb with
  | context [append_badges ?i rows] => set (initial := i) in *
  end.
  destruct (append_badges initial rows) as [all |] eqn:Hall; [| discriminate].
  simpl in Hb. simplify_eq.
  apply append_badges_spec in Hall as (mores & Hm & ->).
  destruct (fromkeys_spec (initial ++ List.concat mores)) as [Hnd Hin].
  split; [exact Hnd |].
  split.
  { clear -Hm. induction Hm; constructor; eauto. }
  intros b.
  rewrite Hin, elem_of_app, Hinit, (concat_badges _ _ Hm). split.
  - intros [[? | [? | ?]] | (r & more & Hr & Hmore & Hbm)]; auto.
    right. right. right.
    destruct (result_badges_shape _ _ Hmore)
      as (style & speed & perfect & Hst & Hsp & ->).
    exists r, style, speed, perfect.
    by rewrite <- shape_members.
  - intros [? | [? | [? | (r & style & speed & perfect & Hr & _ & _ & Hmore
                           & Hb)]]]; auto.
    right. eexists r, _. split; [done |]. split; [exact Hmore |].
    by apply shape_members.
Qed.

Ltac distinct_keys :=
  repeat match goal with
         | H : _ /\ _ |- _ => destruct H
         | H : u _ = u _ |- _ => by vm_compute in H
         end.

(** X21: the badges [get_user_badges] returns hold each badge once and
    only keys of [BADGES]; [first_blood] is among them exactly when
    there is a result, [streak_starter] exactly from three results on,
    [level_up] exactly from level 2 on, [style_seeker] exactly when
    some result has a PEP8 score over 0.8, and [speed_demon] exactly
    when some result ran in less than 0.5 seconds. *)
Theorem X21_badges_earned (challenge_results : list result_row) (level : Z)
    (badges : list str) :
  get_user_badges challenge_results level = Some badges ->
  NoDup badges /\
  (forall b, b ∈ badges -> b ∈ BADGES.*1) /\
  (u "first_blood" ∈ badges <-> challenge_results <> []) /\
  (u "streak_starter" ∈ badges <-> (3 <= length challenge_results)%nat) /\
  (u "level_up" ∈ badges <-> (2 <= level)%Z) /\
  (u "style_seeker" ∈ badges <->
   exists r, r ∈ challenge_results /\
             cell_gt (get r (u "pep8_score") (CInt 0)) 0.8 = Some true) /\
  (u "speed_demon" ∈ badges <->
   exists r, r ∈ challenge_results /\
             cell_lt (get r (u "execution_time") (CInt 1)) 0.5 = Some true).
Proof.
  intros Hb. apply get_user_badges_members in Hb as (Hnd & Hdef & Hin).
  assert (forall r, r ∈ challenge_results ->
            exists style speed perfect : bool,
              cell_gt (get r (u "pep8_score") (CInt 0)) 0.8 = Some style /\
              cell_lt (get r (u "execution_time") (CInt 1)) 0.5 =
                Some speed /\
              result_badges r =
                Some ((if style then [u "style_seeker"] else []) ++
                      (if speed then [u "speed_demon"] else []) ++
                      (if perfect then [u "perfectionist"] else [])))
    as Hshape.
  { intros r Hr.
    destruct (proj1 (Forall_forall _ _) Hdef r Hr) as [more Hmore].
    destruct (result_badges_shape _ _ Hmore)
      as (style & speed & perfect & Hst & Hsp & ->).
    by exists style, speed, perfect. }
  split; [exact Hnd |].
  split.
  { intros b Hbin. apply Hin in Hbin.
    apply elem_of_decide.
    destruct Hbin as [[-> _] | [[-> _] | [[-> _] |
      (r & style & speed & perfect & _ & _ & _ & _ &
       [[-> _] | [[-> _] | [-> _]]])]]]; reflexivity. }
  repeat split.
  - intros Hfb. apply Hin in Hfb.
    destruct Hfb as [[_ Hn] | [? | [? |
      (r & style & speed & perfect & _ & _ & _ & _ & [? | [? | ?]])]]];
      distinct_keys.
    intros ->. simpl in Hn. lia.
  - intros Hne. apply Hin. left. split; [done |].
    destruct challenge_results; [done | simpl; lia].
  - intros Hfb. apply Hin in Hfb.
    destruct Hfb as [? | [[_ Hn] | [? |
      (r & style & speed & perfect & _ & _ & _ & _ & [? | [? | ?]])]]];
      distinct_keys. exact Hn.
  - intros Hn. apply Hin. right. left. by split.
  - intros Hfb. apply Hin in Hfb.
    destruct Hfb as [? | [? | [[_ Hn] |
      (r & style & speed & perfect & _ & _ & _ & _ & [? | [? | ?]])]]];
      distinct_keys. exact Hn.
  - intros Hn. apply Hin. right. right. left. by split.
  - intros Hfb. apply Hin in Hfb.
    destruct Hfb as [? | [? | [? |
      (r & style & speed & perfect & Hr & Hst & _ & _ &
       [[_ ->] | [? | ?]])]]];
      distinct_keys. by exists r.
  - intros (r & Hr & Hst). apply Hin. right. right. right.
    destruct (Hshape r Hr) as (style & speed & perfect & Hst' & Hsp & Hm).
    exists r, style, speed, perfect. repeat (split; [done |]).
    left. split; [done | congruence].
  - intros Hfb. apply Hin in Hfb.
    destruct Hfb as [? | [? | [? |
      (r & style & speed & perfect & Hr & _ & Hsp & _ &
       [? | [[_ ->] | ?]])]]];
      distinct_keys. by exists r.
  - intros (r & Hr & Hsp). apply Hin. right. right. right.
    destruct (Hshape r Hr) as (style & speed & perfect & Hst & Hsp' & Hm).
    exists r, style, speed, perfect. repeat (split; [done |]).
    right. left. split; [done | congruence].
Qed.

Lemma X21_badges_earned_witness :
  NoDup [u "first_blood"; u "style_seeker"; u "speed_demon";
         u "perfectionist"] /\
  (u "streak_starter" ∈ [u "first_blood"; u "style_seeker"; u "speed_demon";
                         u "perfectionist"] <->
   (3 <= length sample_results)%nat).
Proof.
  destruct (X21_badges_earned sample_results 1
              [u "first_blood"; u "style_seeker"; u "speed_demon";
               u "perfectionist"] eq_refl)
    as (Hnd & _ & _ & Hstreak & _).
  by split.
Defined.

(** X22: in the hub, where the level is worked out from the XP of the
    same results, the [level_up] badge is shown exactly when the XP has
    reached 100.  That takes at least two results, and ten results are
    always enough. *)
Theorem X22_level_up_in_hub (raw_challenge_results : list result_row)
    (total_xp current_level : Z) (earned_badges : list str) :
  hub_status raw_challenge_results =
    Some (total_xp, current_level, earned_badges) ->
  (1 <= current_level)%Z /\
  (u "level_up" ∈ earned_badges <-> (100 <= total_xp)%Z) /\
  (u "level_up" ∈ earned_badges ->
   (2 <= length raw_challenge_results)%nat) /\
  ((10 <= length raw_challenge_results)%nat ->
   u "level_up" ∈ earned_badges).
Proof.
  unfold hub_status. intros Hhub.
  destruct (calculate_xp raw_challenge_results) as [xp |] eqn:Hxp;
    [| discriminate].
  simpl in Hhub.
  destruct (get_user_badges raw_challenge_results (get_level_from_xp xp))
    as [badges |] eqn:Hb; [| discriminate].
  simpl in Hhub. simplify_eq.
  apply calculate_xp_range in Hxp as [Hrange _].
  apply get_user_badges_members in Hb as (_ & _ & Hin).
  assert (u "level_up" ∈ earned_badges <->
          (2 <= get_level_from_xp total_xp)%Z) as Hlevel.
  { rewrite Hin. split; [| intros ?; right; right; left; by split].
    intros [? | [? | [[_ ?] |
      (r & style & speed & perfect & _ & _ & _ & _ & [? | [? | ?]])]]];
      distinct_keys. done. }
  unfold get_level_from_xp in *.
  pose proof (Z.div_mod total_xp 100 ltac:(lia)).
  pose proof (Z.mod_pos_bound total_xp 100 ltac:(lia)).
  rewrite Hlevel. repeat split; intros; lia.
Qed.

Lemma X22_level_up_in_hub_witness :
  (1 <= 1)%Z /\
  (u "level_up" ∈ [u "first_blood"; u "style_seeker"; u "speed_demon";
                   u "perfectionist"] <-> (100 <= 90)%Z).
Proof.
  destruct (X22_level_up_in_hub sample_results 90 1
              [u "first_blood"; u "style_seeker"; u "speed_demon";
               u "perfectionist"] eq_refl)
    as (Hlevel & Hup & _).
  by split.
Defined.


(** ** Arcade mode *)

Lemma arcade_rounds_snoc (outcomes : list bool) (passed : bool) :
  arcade_rounds (outcomes ++ [passed]) =
  arcade_round (arcade_rounds outcomes) passed.
Proof. unfold arcade_rounds. by rewrite foldl_app. Qed.

(** A run of passed rounds at the end of the rounds played is no longer
    than the run that starts after the last failed round. *)
Lemma trailing_run (pre p : list bool) (c k : nat) :
  (forall pre', pre <> pre' ++ [true]) ->
  pre ++ replicate c true = p ++ replicate k true -> (k <= c)%nat.
Proof.
  intros Hpre Heq.
  destruct (Nat.le_gt_cases k c) as [? | Hlt]; [done |].
  exfalso.
  assert (length pre = (length p + (k - c))%nat) as Hlen.
  { apply (f_equal length) in Heq.
    rewrite !length_app, !length_replicate in Heq. lia. }
  assert (pre = p ++ replicate (k - c) true) as Hp.
  { replace k with ((k - c) + c)%nat in Heq by lia.
    rewrite replicate_add, app_assoc in Heq.
    by apply app_inv_tail in Heq. }
  destruct (k - c)%nat as [| d] eqn:Hd; [lia |].
  apply (Hpre (p ++ replicate d true)).
  rewrite Hp, <- app_assoc. f_equal.
  change [true] with (replicate 1 true).
  rewrite <- replicate_add. f_equal. lia.
Qed.

(** What the four counters stand for. *)
Lemma arcade_rounds_spec (outcomes : list bool) :
  let c := arcade_rounds outcomes in
  attempted c = length outcomes /\
  solved c = length (List.filter (fun passed => passed) outcomes) /\
  (exists pre, outcomes = pre ++ replicate (current_streak c) true /\
               forall pre', pre <> pre' ++ [true]) /\
  (exists pre post,
     outcomes = pre ++ replicate (best_streak c) true ++ post) /\
  (forall k pre post,
     outcomes = pre ++ replicate k true ++ post -> (k <= best_streak c)%nat) /\
  (current_streak c <= best_streak c)%nat.
Proof.
  induction outcomes as [| passed outcomes IH] using rev_ind.
  - simpl. repeat split; try (simpl; lia).
    + exists []. split; [done |]. intros pre' H. by destruct pre'.
    + by exists [], [].
    + intros k pre post H. symmetry in H.
      apply app_eq_nil in H as [_ H]. apply app_eq_nil in H as [H _].
      destruct k; [lia | discriminate].
  - cbv zeta in *. rewrite arcade_rounds_snoc.
    destruct IH as (Hatt & Hsol & (pre & Hcur & Hpre) & (bp & bq & Hbest)
                    & Hmax & Hle).
    set (c := arcade_rounds outcomes) in *.
    rewrite List.filter_app, !length_app. simpl length.
    destruct passed; simpl.
    + split; [lia |]. split; [lia |].
      split.
      { exists pre. split; [| done].
        rewrite Hcur at 1. rewrite <- app_assoc. f_equal.
        change [true] with (replicate 1 true).
        by rewrite <- replicate_add. }
      split.
      { destruct (Nat.max_spec (best_streak c) (current_streak c + 1))
          as [[_ ->] | [_ ->]].
        - exists pre, []. rewrite app_nil_r.
          rewrite Hcur at 1. rewrite <- app_assoc. f_equal.
          change [true] with (replicate 1 true).
          by rewrite <- replicate_add.
        - exists bp, (bq ++ [true]).
          rewrite Hbest at 1. by rewrite <- !app_assoc. }
      split; [| lia].
      intros k p q Hseg.
      destruct q as [| x q _] using rev_ind.
      * rewrite app_nil_r in Hseg.
        assert (k <= current_streak c + 1)%nat; [| lia].
        apply (trailing_run pre p); [done |].
        rewrite <- Hseg. rewrite Hcur at 1. rewrite <- app_assoc. f_equal.
        change [true] with (replicate 1 true).
        by rewrite <- replicate_add.
      * rewrite !app_assoc in Hseg. apply app_inj_tail in Hseg as [Hseg _].
        rewrite <- app_assoc in Hseg. apply Hmax in Hseg. lia.
    + split; [lia |]. split; [lia |].
      split.
      { exists (outcomes ++ [false]). split; [by rewrite app_nil_r |].
        intros pre' H. by apply app_inj_tail in H as [_ ?]. }
      split.
      { exists bp, (bq ++ [false]).
        rewrite Hbest at 1. by rewrite <- !app_assoc. }
      split; [| lia].
      intros k p q Hseg.
      destruct q as [| x q _] using rev_ind.
      * rewrite app_nil_r in Hseg.
        destruct k as [| k]; [lia |]. exfalso.
        replace (S k) with (k + 1)%nat in Hseg by lia.
        rewrite replicate_add, app_assoc in Hseg. simpl in Hseg.
        by apply app_inj_tail in Hseg as [_ ?].
      * rewrite !app_assoc in Hseg. apply app_inj_tail in Hseg as [Hseg _].
        rewrite <- app_assoc in Hseg. by apply Hmax in Hseg.
Qed.

(** X23: after any rounds of arcade mode, [attempted] is the number of
    rounds, [solved] the number of rounds passed, [current_streak] the
    run of passed rounds the session ends on, and [best_streak] the
    length of the longest run of consecutive passed rounds: there is
    such a run, and no longer one.  So
    [current_streak <= best_streak <= solved <= attempted]. *)
Theorem X23_arcade_counters (outcomes : list bool) :
  let c := arcade_rounds outcomes in
  attempted c = length outcomes /\
  solved c = length (List.filter (fun passed => passed) outcomes) /\
  (exists pre, outcomes = pre ++ replicate (current_streak c) true /\
               forall pre', pre <> pre' ++ [true]) /\
  (exists pre post,
     outcomes = pre ++ replicate (best_streak c) true ++ post) /\
  (forall k pre post,
     outcomes = pre ++ replicate k true ++ post -> (k <= best_streak c)%nat) /\
  (current_streak c <= best_streak c <= solved c)%nat /\
  (solved c <= attempted c)%nat.
Proof.
  pose proof (arcade_rounds_spec outcomes) as Hspec. cbv zeta in *.
  destruct Hspec as (Hatt & Hsol & Hcur & (bp & bq & Hbest) & Hmax & Hle).
  split; [exact Hatt |]. split; [exact Hsol |]. split; [exact Hcur |].
  split; [by exists bp, bq |]. split; [exact Hmax |].
  split; [split; [exact Hle |] |].
  - rewrite Hsol. rewrite Hbest at 2.
    rewrite !List.filter_app, !length_app.
    assert (List.filter (fun passed : bool => passed)
              (replicate (best_streak (arcade_rounds outcomes)) true) =
            replicate (best_streak (arcade_rounds outcomes)) true) as ->.
    { generalize (best_streak (arcade_rounds outcomes)).
      intros n. induction n as [| n IHn]; simpl; [done | by rewrite IHn]. }
    rewrite length_replicate. lia.
  - rewrite Hatt, Hsol. apply List.filter_length_le.
Qed.


(** ** The quest campaign *)

Lemma is_step_completed_append (progress : campaign)
    (zone_id step_id zone_id' step_id' : str) :
  is_step_completed (append_step progress zone_id' step_id') zone_id step_id
    = true <->
  zone_id = zone_id' /\ step_id = step_id' \/
  is_step_completed progress zone_id step_id = true.
Proof.
  unfold is_step_completed, append_step.
  destruct (decide (zone_id = zone_id')) as [-> | Hne].
  - rewrite lookup_insert_eq, bool_decide_eq_true, elem_of_app,
      list_elem_of_singleton.
    destruct (progress !! zone_id') as [steps |]; simpl.
    + rewrite bool_decide_eq_true. tauto.
    + rewrite elem_of_nil. intuition discriminate.
  - rewrite lookup_insert_ne by done. tauto.
Qed.

(** The progress read back holds the rows fetched, whatever their
    order. *)
Lemma get_user_progress_spec (rows : list (str * str)) (zone_id step_id : str) :
  is_step_completed (get_user_progress rows) zone_id step_id = true <->
  (zone_id, step_id) ∈ rows.
Proof.
  unfold get_user_progress.
  assert (forall progress : campaign,
            is_step_completed
              (foldl (fun progress row => append_step progress row.1 row.2)
                 progress rows) zone_id step_id = true <->
            is_step_completed progress zone_id step_id = true \/
            (zone_id, step_id) ∈ rows) as Hgen.
  { induction rows as [| [z s] rows IH]; intros progress; simpl.
    - rewrite elem_of_nil. tauto.
    - rewrite IH, is_step_completed_append, elem_of_cons. simpl.
      split; [intros [[[-> ->] | ?] | ?]; auto |].
      intros [? | [Heq | ?]]; auto. simplify_eq. auto. }
  rewrite Hgen. unfold is_step_completed. rewrite lookup_empty.
  intuition discriminate.
Qed.

Lemma selected_spec (table : campaign_table) (username zone_id step_id : str) :
  (zone_id, step_id) ∈ selected table username <->
  exists row, table !! (username, zone_id, step_id) = Some row /\
              completed row = true.
Proof.
  unfold selected. rewrite list_elem_of_omap. split.
  - intros ([[[user z] s] row] & Hin & Hsel).
    apply elem_of_map_to_list in Hin.
    destruct (bool_decide_reflect (user = username)) as [-> | ?];
      [| discriminate].
    destruct (completed row) eqn:Hc; [| discriminate].
    simpl in Hsel. simplify_eq. by exists row.
  - intros (row & Hrow & Hc).
    exists (username, zone_id, step_id, row).
    split; [by apply elem_of_map_to_list |].
    by rewrite bool_decide_true, Hc.
Qed.

(** X24: a step marked as completed is there on the next start: when
    the rows of a user are fetched after [mark_step_completed], in
    whatever order the database returns them, [get_user_progress] has
    as completed the step that was marked, if the user is the one it
    was marked for, and the steps that were completed in the table
    before, and no others. *)
Theorem X24_marked_step_is_reloaded (table : campaign_table)
    (username zone_id step_id now user : str) (rows : list (str * str)) :
  fetched (mark_step_completed table username zone_id step_id now) user
    rows ->
  forall z s,
    is_step_completed (get_user_progress rows) z s = true <->
    user = username /\ z = zone_id /\ s = step_id \/
    exists row, table !! (user, z, s) = Some row /\ completed row = true.
Proof.
  unfold fetched, mark_step_completed. intros Hrows z s.
  rewrite get_user_progress_spec, Hrows, selected_spec.
  destruct (decide ((user, z, s) = (username, zone_id, step_id)))
    as [Heq | Hne].
  - simplify_eq. rewrite lookup_insert_eq. split; [auto |].
    intros _. by eexists.
  - rewrite lookup_insert_ne by done. split; [auto |].
    intros [(-> & -> & ->) | ?]; done.
Qed.

Lemma X24_marked_step_is_reloaded_witness :
  is_step_completed
    (get_user_progress [(u "green_valley", u "gv_step1")])
    (u "green_valley") (u "gv_step1") = true.
Proof.
  apply (X24_marked_step_is_reloaded ∅ (u "ada") (u "green_valley")
           (u "gv_step1") (u "2024-01-01T00:00:00") (u "ada")
           [(u "green_valley", u "gv_step1")]).
  - unfold fetched, mark_step_completed, selected.
    rewrite insert_empty, map_to_list_singleton. reflexivity.
  - left. done.
Defined.

(** X25: [mark_step_as_completed_ui] keeps memory and table in step:
    if the progress in memory shows as completed exactly the steps the
    table holds as completed for the user, it still does afterwards,
    whatever zone, step and answer were given; and the rows of other
    users are not touched. *)
Theorem X25_memory_matches_table (table : campaign_table)
    (username zone_id : str) (step_index : Z) (progress : campaign)
    (choice now : str) :
  in_step table username progress ->
  let after := mark_step_as_completed_ui table username zone_id step_index
                 progress choice now in
  in_step after.1 username after.2 /\
  forall user z s, user <> username ->
                   after.1 !! (user, z, s) = table !! (user, z, s).
Proof.
  intros Hstep. cbv zeta. unfold mark_step_as_completed_ui.
  destruct (assoc zone_id ZONES) as [zone_data |]; [| by split].
  destruct (_ || _); [by split |].
  destruct (zone_steps zone_data !! Z.to_nat step_index) as [step |];
    [| by split].
  destruct (is_step_completed progress zone_id (step_id step));
    [by split |].
  destruct (_ && _); [by split |].
  destruct (str_eqb (lower choice) (u "y")); [| by split].
  simpl. split.
  - intros z s. unfold mark_step_completed.
    rewrite is_step_completed_append, (Hstep z s).
    destruct (decide ((username, z, s) =
                      (username, zone_id, step_id step))) as [Heq | Hne].
    + simplify_eq. rewrite lookup_insert_eq. split; [| auto].
      intros _. by eexists.
    + rewrite lookup_insert_ne by done. split; [| auto].
      intros [[-> ->] | ?]; done.
  - intros user z s Hne. unfold mark_step_completed.
    rewrite lookup_insert_ne; [done |]. intros Heq. simplify_eq.
Qed.

Lemma X25_memory_matches_table_witness :
  in_step
    (mark_step_as_completed_ui ∅ (u "ada") (u "green_valley") 0 ∅ (u "Y")
       (u "2024-01-01T00:00:00")).1
    (u "ada")
    (mark_step_as_completed_ui ∅ (u "ada") (u "green_valley") 0 ∅ (u "Y")
       (u "2024-01-01T00:00:00")).2.
Proof.
  apply (X25_memory_matches_table ∅ (u "ada") (u "green_valley") 0 ∅
           (u "Y") (u "2024-01-01T00:00:00")).
  intros z s. unfold is_step_completed. rewrite lookup_empty.
  split; [done |]. intros (row & Hrow & _). by rewrite lookup_empty in Hrow.
Defined.

(** In every zone the steps have ids of their own. *)
Lemma zone_ids_nodup (zone_id : str) : NoDup (zone_step_ids zone_id).
Proof.
  unfold zone_step_ids, ZONES. cbn [assoc].
  repeat (destruct (str_eqb zone_id _);
          [cbn [from_option zone_steps];
           match goal with
           | |- ?P => apply (@bool_decide_unpack P _)
           end; by vm_compute |]).
  constructor.
Qed.

(** The next step of a zone extends what has been completed in
    order. *)
Lemma prefix_next (ids cur : list str) (i : nat) (x : str) :
  NoDup ids -> cur `prefix_of` ids -> ids !! i = Some x -> x ∉ cur ->
  (i = 0%nat \/ exists y, ids !! (i - 1)%nat = Some y /\ y ∈ cur) ->
  cur ++ [x] `prefix_of` ids.
Proof.
  intros Hnd [rest ->] Hi Hx Hprev.
  assert (length cur <= i)%nat as Hle.
  { destruct (Nat.le_gt_cases (length cur) i) as [? | Hlt]; [done |].
    rewrite lookup_app_l in Hi by done.
    apply list_elem_of_lookup_2 in Hi. done. }
  destruct (decide (i = length cur)) as [-> | Hne].
  - rewrite lookup_app_r, Nat.sub_diag in Hi by done.
    destruct rest as [| r rest]; simpl in Hi; simplify_eq.
    exists rest. by rewrite <- app_assoc.
  - exfalso. destruct Hprev as [-> | (y & Hy & Hin)]; [lia |].
    apply list_elem_of_lookup_1 in Hin as [j Hj].
    pose proof (lookup_lt_Some _ _ _ Hj) as Hjlt.
    assert ((cur ++ rest) !! j = Some y) as Hj'
      by (by rewrite lookup_app_l).
    pose proof (NoDup_lookup _ _ _ _ Hnd Hj' Hy). lia.
Qed.

(** Completing a step never locks a zone. *)
Lemma is_zone_unlocked_append (progress : campaign)
    (zone_id zone_id' step_id' : str) :
  is_zone_unlocked progress zone_id = true ->
  is_zone_unlocked (append_step progress zone_id' step_id') zone_id = true.
Proof.
  unfold is_zone_unlocked, append_step.
  destruct (str_eqb zone_id (u "green_valley")); [done |].
  destruct (assoc zone_id unlock_requirements) as [[required n] |];
    [| done].
  destruct (decide (required = zone_id')) as [-> | Hne].
  - rewrite lookup_insert_eq.
    destruct (progress !! zone_id') as [steps |]; [| done]. simpl.
    rewrite !Nat.leb_le, length_app. lia.
  - by rewrite lookup_insert_ne.
Qed.

Lemma zone_choices_unlocked (progress : campaign) (i : nat) (zone_id : str) :
  zone_choices progress !! i = Some zone_id ->
  is_zone_unlocked progress zone_id = true.
Proof.
  unfold zone_choices. intros Hi.
  apply list_elem_of_lookup_2, list_elem_of_In, filter_In in Hi.
  tauto.
Qed.

(** X26: progress made through the menu stays in order.  If in every
    zone the completed steps are the first steps of the zone, in their
    order, and no locked zone has a completed step, then this is still
    so after choice 3 of the menu, whatever zone and step are picked
    and whatever is answered at the prompt.  So a step is never
    completed before the one before it, nor twice, nor in a zone that
    is locked. *)
Theorem X26_progress_stays_in_order (table : campaign_table)
    (username : str) (progress : campaign) (zone_idx step_idx : nat)
    (choice now : str) :
  orderly progress ->
  orderly (mark_from_menu table username progress zone_idx step_idx
             choice now).2.
Proof.
  intros Hord. unfold mark_from_menu.
  destruct (zone_choices progress !! zone_idx) as [zone_id |] eqn:Hzone;
    [| exact Hord].
  apply zone_choices_unlocked in Hzone.
  unfold mark_step_as_completed_ui.
  destruct (assoc zone_id ZONES) as [zone_data |] eqn:Hdata; [| exact Hord].
  destruct (_ || _); [exact Hord |].
  rewrite Nat2Z.id.
  destruct (zone_steps zone_data !! step_idx) as [step |] eqn:Hstep;
    [| exact Hord].
  destruct (is_step_completed progress zone_id (step_id step)) eqn:Hdone;
    [exact Hord |].
  destruct (_ && _) eqn:Hprev; [exact Hord |].
  destruct (str_eqb (lower choice) (u "y")); [| exact Hord].
  simpl. intros z steps Hz. unfold append_step in Hz.
  destruct (decide (z = zone_id)) as [-> | Hne].
  - rewrite lookup_insert_eq in Hz. simplify_eq.
    split; [| intros _; by apply is_zone_unlocked_append].
    assert (zone_step_ids zone_id = map step_id (zone_steps zone_data))
      as Hids by (unfold zone_step_ids; by rewrite Hdata).
    apply (prefix_next _ _ step_idx).
    + apply zone_ids_nodup.
    + destruct (progress !! zone_id) as [cur |] eqn:Hcur; simpl.
      * by apply (Hord zone_id cur).
      * apply prefix_nil.
    + by rewrite Hids, list_lookup_fmap, Hstep.
    + unfold is_step_completed in Hdone.
      destruct (progress !! zone_id) as [cur |]; simpl.
      * by apply bool_decide_eq_false in Hdone.
      * apply not_elem_of_nil.
    + destruct step_idx as [| i]; [by left |]. right.
      apply andb_false_iff in Hprev as [Hprev | Hprev];
        [apply Z.ltb_ge in Hprev; lia |].
      apply negb_false_iff in Hprev.
      replace (Z.to_nat (Z.of_nat (S i) - 1)) with i in Hprev by lia.
      replace (S i - 1)%nat with i by lia.
      destruct (zone_steps zone_data !! i) as [previous |] eqn:Hi;
        [| discriminate].
      simpl in Hprev. exists (step_id previous).
      split; [by rewrite Hids, list_lookup_fmap, Hi |].
      unfold is_step_completed in Hprev.
      destruct (progress !! zone_id) as [cur |]; [| discriminate].
      by apply bool_decide_eq_true in Hprev.
  - rewrite lookup_insert_ne in Hz by done.
    destruct (Hord z steps Hz) as [Hpre Hun].
    split; [exact Hpre |].
    intros Hne'. by apply is_zone_unlocked_append, Hun.
Qed.

Lemma X26_progress_stays_in_order_witness :
  orderly (mark_from_menu ∅ (u "ada") ∅ 0 0 (u "y")
             (u "2024-01-01T00:00:00")).2.
Proof.
  apply (X26_progress_stays_in_order ∅ (u "ada") ∅ 0 0 (u "y")
           (u "2024-01-01T00:00:00")).
  intros z steps Hz. by rewrite lookup_empty in Hz.
Defined.


(** ** Arcade mode: the syntax check in front of the validator *)

(** Validating a source that the pre-screen rejects touches nothing. *)
Lemma validate_rejected_world `{R : Runtime} `{H : Host} self (code : str)
    (test_cases : list test_case) (expected_outputs : list pyval)
    (w : world) :
  _is_safe_code code = false ->
  (validate_solution self code test_cases expected_outputs w).1 = w.
Proof.
  intros Hs. unfold validate_solution.
  destruct test_cases as [| tc tcs]; [reflexivity |].
  unfold_M. by rewrite (run_cases_rejected _ _ _ Hs).
Qed.

(** X27: in arcade mode nothing happens outside the console - no
    semaphore unit taken, no file written, no child started - unless
    the source parses, none of its import statements, at any depth,
    names a denied module, and its text holds no denied token.  A
    source that does not parse, and so would pass the pre-screen of
    [execute], is stopped by the syntax check before it. *)
Theorem X27_arcade_runs_only_screened_code `{R : Runtime} `{H : Host}
    `{S : SyntaxReport} validator (challenge : ArcadeChallenge)
    (user_code : str) (start_time end_time : float) (w w' : world)
    (r : outcome (bool * cell * list str)) :
  run_arcade_challenge validator challenge user_code start_time end_time w =
    (w', r) ->
  w' <> w ->
  exists tree,
    ast_parse user_code = Some tree /\
    (forall n x, subnode n tree -> x ∈ import_check n ->
                 x ∉ blocked_imports) /\
    (forall tok, tok ∈ blocked_calls ->
                 contains tok (lower user_code) = false).
Proof.
  unfold run_arcade_challenge, validate_syntax. intros Hrun Hw.
  destruct user_code as [| c code]; [unfold_M; by simplify_eq |].
  destruct (ast_parse (c :: code)) as [tree |] eqn:Hparse;
    [| simpl in Hrun; unfold_M; by simplify_eq].
  exists tree. split; [reflexivity |].
  apply (safe_code_clean _ _ Hparse).
  destruct (_is_safe_code (c :: code)) eqn:Hsafe; [reflexivity |].
  exfalso. apply Hw.
  pose proof (validate_rejected_world validator (c :: code)
                (arcade_test_cases challenge)
                (arcade_expected_outputs challenge) w Hsafe) as Hsame.
  simpl in Hrun. revert Hrun. unfold_M.
  destruct (validate_solution _ _ _ _ w) as [w1 [res | e |]];
    simpl in *; intros; by simplify_eq.
Qed.

Lemma X27_arcade_runs_only_screened_code_witness :
  exists tree,
    parse_imports (u "pass") = Some tree /\
    (forall n x, subnode n tree -> x ∈ import_check n ->
                 x ∉ blocked_imports) /\
    (forall tok, tok ∈ blocked_calls ->
                 contains tok (lower (u "pass")) = false).
Proof.
  set (host := echo_host (success_record (u "3"))).
  set (run := @run_arcade_challenge cpython_fragment host plain_report
                sample_validator quick_sum (u "pass") 0 1
                (initial_world sample_config)).
  apply (@X27_arcade_runs_only_screened_code cpython_fragment host
           plain_report sample_validator quick_sum (u "pass") 0 1
           (initial_world sample_config) run.1 run.2).
  - apply surjective_pairing.
  - intros Heq. apply (f_equal trace) in Heq.
    vm_compute in Heq. discriminate.
Defined.


(** ** Mastery *)

(** From the eleventh passed attempt on the level is [1.0]. *)
Lemma mastery_climb_top (n : nat) : mastery_climb (11 + n) = 1%float.
Proof.
  induction n as [| n IH]; [by vm_compute |].
  replace (11 + S n)%nat with (S (11 + n)) by lia.
  cbn [mastery_climb]. rewrite IH. by vm_compute.
Qed.

Lemma mastery_climb_shown (passes : nat) :
  int_of_float (mastery_climb passes * 100) = Some (mastery_shown passes).
Proof.
  destruct (Nat.le_gt_cases 11 passes) as [Hge | Hlt].
  - replace passes with (11 + (passes - 11))%nat by lia.
    rewrite mastery_climb_top. unfold mastery_shown.
    rewrite nth_overflow by (simpl; lia). by vm_compute.
  - do 11 (destruct passes as [| passes]; [by vm_compute |]). lia.
Qed.

Lemma progress_after_snoc (user : str) (challenge : Challenge)
    (made : list (bool * str)) (attempt : bool * str) :
  progress_after user challenge (made ++ [attempt]) =
  Some (_update_progress (option_list (progress_after user challenge made))
          user challenge attempt.1 attempt.2).
Proof. unfold progress_after. by rewrite foldl_app. Qed.

(** What the record holds after a run of attempts. *)
Lemma progress_after_spec (user : str) (challenge : Challenge)
    (made : list (bool * str)) :
  match progress_after user challenge made with
  | None => made = []
  | Some p =>
      made <> [] /\
      user_id p = user /\ progress_module p = module challenge /\
      progress_concept p = concept challenge /\
      attempts p = Z.of_nat (length made) /\
      correct_attempts p =
        Z.of_nat (length (List.filter fst made)) /\
      mastery_level p = mastery_climb (length (List.filter fst made)) /\
      last_attempt p = snd <$> last made
  end.
Proof.
  induction made as [| [passed now] made IH] using rev_ind; [done |].
  rewrite progress_after_snoc, List.filter_app, !length_app, last_snoc.
  simpl fst; simpl snd.
  destruct (progress_after user challenge made) as [p |].
  - destruct IH as (_ & Hu & Hm & Hc & Ha & Hca & Hml & _).
    split; [by destruct made |].
    destruct passed; simpl; rewrite ?Hml, ?Nat.add_0_r;
      repeat split; try done; try lia.
    by rewrite Nat.add_1_r.
  - subst made. destruct passed; simpl; repeat split; try done;
      by vm_compute.
Qed.

(** X28: after any run of attempts at a challenge, the record counts
    the attempts and the passed ones, and the mastery shown depends on
    the number of passed attempts only: 10 more for each of the first
    eight, then 89 after the ninth and 99 after the tenth; it is the
    eleventh passed attempt that brings it to 100, where it stays. *)
Theorem X28_mastery_ladder (current_user : str) (challenge : Challenge)
    (attempts_made : list (bool * str)) (p : UserProgress) :
  progress_after current_user challenge attempts_made = Some p ->
  attempts p = Z.of_nat (length attempts_made) /\
  correct_attempts p = Z.of_nat (length (List.filter fst attempts_made)) /\
  get_mastery_percentage p =
    Some (mastery_shown (length (List.filter fst attempts_made))).
Proof.
  intros Hp. pose proof (progress_after_spec current_user challenge
                           attempts_made) as Hspec.
  rewrite Hp in Hspec.
  destruct Hspec as (_ & _ & _ & _ & Ha & Hc & Hm & _).
  split; [exact Ha |]. split; [exact Hc |].
  unfold get_mastery_percentage. rewrite Hm. apply mastery_climb_shown.
Qed.

Lemma X28_mastery_ladder_witness :
  exists p,
    progress_after (u "ada") ch1
      (replicate 9 (true, u "2024-01-01T00:00:00")) = Some p /\
    attempts p = 9%Z /\ get_mastery_percentage p = Some 89%Z.
Proof.
  destruct (progress_after (u "ada") ch1
              (replicate 9 (true, u "2024-01-01T00:00:00")))
    as [p |] eqn:Hp; [| vm_compute in Hp; discriminate].
  exists p. split; [reflexivity |].
  destruct (X28_mastery_ladder (u "ada") ch1
              (replicate 9 (true, u "2024-01-01T00:00:00")) p Hp)
    as (Ha & _ & Hm).
  by split.
Defined.
